(** * Grommet: theme composition, message composition and responsive
      breakpoint resolution of the top-level provider component

    Shallow embedding of [src/js/components/Grommet/Grommet.js].

    JavaScript objects live in a store indexed by locations, so that the
    aliasing between the base theme, the theme override and the composed
    theme is visible.  Statements that can raise (property access on
    [undefined], assignment to a primitive, access to an undeclared global)
    run in a state-and-exception monad; a raised exception keeps the store
    as it was when the exception was raised. *)

From Stdlib Require Import ZArith NArith Lia.
From stdpp Require Import gmap strings list fin_maps.

Local Open Scope string_scope.

(** ** Values *)

Definition loc := nat.

(** Primitive values and references to plain objects.  Numbers are the
    integers (no theme token read by this file is fractional). *)
Inductive value :=
  | VUndef
  | VNull
  | VBool (b : bool)
  | VNum (n : Z)
  | VStr (s : string)
  | VRef (l : loc).

#[global] Instance value_eq_dec : EqDecision value.
Proof. solve_decision. Defined.

(** ToBoolean *)
Definition truthy (v : value) : bool :=
  match v with
  | VUndef | VNull => false
  | VBool b => b
  | VNum n => negb (n =? 0)%Z
  | VStr s => negb (String.eqb s "")
  | VRef _ => true
  end.

(** [a === b] *)
Definition strict_eq (a b : value) : bool := bool_decide (a = b).

(** [typeof v !== 'undefined'] *)
Definition defined (v : value) : bool :=
  match v with VUndef => false | _ => true end.

(** ** Objects: own properties in insertion order *)

Fixpoint obj_get (k : string) (fs : list (string * value)) : value :=
  match fs with
  | [] => VUndef
  | (k', v) :: fs' => if String.eqb k k' then v else obj_get k fs'
  end.

Fixpoint obj_has (k : string) (fs : list (string * value)) : bool :=
  match fs with
  | [] => false
  | (k', _) :: fs' => String.eqb k k' || obj_has k fs'
  end.

(** Assignment keeps the position of an existing key and appends a new one. *)
Fixpoint obj_set (k : string) (x : value) (fs : list (string * value))
  : list (string * value) :=
  match fs with
  | [] => [(k, x)]
  | (k', v) :: fs' =>
      if String.eqb k k' then (k', x) :: fs' else (k', v) :: obj_set k x fs'
  end.

Fixpoint obj_delete (k : string) (fs : list (string * value))
  : list (string * value) :=
  match fs with
  | [] => []
  | (k', v) :: fs' =>
      if String.eqb k k' then obj_delete k fs' else (k', v) :: obj_delete k fs'
  end.

(** ** State and exceptions *)

Inductive error := TypeError | RangeError | ReferenceError.

Inductive outcome (A : Type) :=
  | Ok (a : A)
  | Throw (e : error).
Arguments Ok {A} a.
Arguments Throw {A} e.

Definition M (S A : Type) : Type := S -> outcome A * S.

Definition ret {S A} (a : A) : M S A := fun s => (Ok a, s).

Definition throw {S A} (e : error) : M S A := fun s => (Throw e, s).

Definition bind {S A B} (m : M S A) (k : A -> M S B) : M S B :=
  fun s =>
    match m s with
    | (Ok a, s') => k a s'
    | (Throw e, s') => (Throw e, s')
    end.

Notation "'let!' x ':=' m 'in' k" := (bind m (fun x => k))
  (at level 10, x name, m at level 100, k at level 200).
Notation "'run!' m 'in' k" := (bind m (fun _ => k))
  (at level 10, m at level 100, k at level 200).

Fixpoint mapM {S A B} (f : A -> M S B) (xs : list A) : M S (list B) :=
  match xs with
  | [] => ret []
  | x :: xs' => let! y := f x in let! ys := mapM f xs' in ret (y :: ys)
  end.

(** ** The object store *)

Abbreviation heap := (gmap loc (list (string * value))).

(** Object literal / fresh object *)
Definition alloc (fs : list (string * value)) : M heap value :=
  fun h => let l := fresh (dom h) in (Ok (VRef l), <[l := fs]> h).

(** A reference denotes an object of the store; reading through one that
    the store lacks raises. *)
Definition read_obj (l : loc) : M heap (list (string * value)) :=
  fun h =>
    match h !! l with
    | Some fs => (Ok fs, h)
    | None => (Throw TypeError, h)
    end.

(** [v.k]: raises on [undefined] and [null]; a primitive has none of the
    properties read by this file. *)
Definition get_prop (v : value) (k : string) : M heap value :=
  match v with
  | VUndef | VNull => throw TypeError
  | VRef l => let! fs := read_obj l in ret (obj_get k fs)
  | _ => ret VUndef
  end.

(** [v.k = x] in strict mode (the file is a module). *)
Definition set_prop (v : value) (k : string) (x : value) : M heap unit :=
  match v with
  | VRef l =>
      fun h =>
        match h !! l with
        | Some fs => (Ok tt, <[l := obj_set k x fs]> h)
        | None => (Throw TypeError, h)
        end
  | _ => throw TypeError
  end.

(** [delete v.k] *)
Definition delete_prop (v : value) (k : string) : M heap unit :=
  match v with
  | VUndef | VNull => throw TypeError
  | VRef l =>
      fun h =>
        match h !! l with
        | Some fs => (Ok tt, <[l := obj_delete k fs]> h)
        | None => (Throw TypeError, h)
        end
  | _ => ret tt
  end.

(** [a && b], where [b] is evaluated only when [a] is truthy *)
Definition js_and {S} (a b : M S value) : M S value :=
  let! x := a in if truthy x then b else ret x.

(** [a || b], where [b] is evaluated only when [a] is falsy *)
Definition js_or {S} (a b : M S value) : M S value :=
  let! x := a in if truthy x then ret x else b.

(** [a || b] on two values already at hand *)
Definition or_val (a b : value) : value := if truthy a then a else b.

(** [v.k1.k2...] *)
Fixpoint get_path (v : value) (ks : list string) : M heap value :=
  match ks with
  | [] => ret v
  | k :: ks' => let! x := get_prop v k in get_path x ks'
  end.

(** ** Deep merge *)

(** [deepMerge] is imported from [utils] and is not among the sources.  The
    specification gives its contract: two nested mappings are combined key
    by key; where both sides hold a mapping the merge recurses, otherwise the
    override's value wins, also when it is empty or falsy; a key of the base
    alone keeps the base's value; neither input is mutated and the result is
    a new structure. *)

(** Modelled from the spec: the new structure that [deepMerge] returns for a
    value it takes over from one side.  Every mapping in it is a newly
    allocated object; a primitive is itself.  The specification does not say
    how much of its inputs the result may share: this model shares nothing,
    [sharingMerge] below shares all it can, and that the composition keeps
    its inputs is proved with the merge as a parameter. *)
Fixpoint deepCopy (n : nat) (v : value) : M heap value :=
  match v with
  | VRef l =>
      match n with
      | 0 => throw RangeError
      | S n' =>
          let! fs := read_obj l in
          let! fs' := mapM (fun kv => let! x := deepCopy n' kv.2 in
                                      ret (kv.1, x)) fs in
          alloc fs'
      end
  | _ => ret v
  end.

(** Modelled from the spec: [deepMerge] with at most [n] nested calls.  The
    keys of the base come first, in the base's order, then the keys that
    only the override has.  Nothing that exists is written.  The
    specification speaks of two mappings; for an override that is not one,
    the model lets it win outright, and the theorems on merged tables take
    the override to be a mapping. *)
Fixpoint deepMerge_depth (n : nat) (b o : value) : M heap value :=
  match b, o with
  | VRef lb, VRef lo =>
      match n with
      | 0 => throw RangeError
      | S n' =>
          let! fb := read_obj lb in
          let! fo := read_obj lo in
          let! merged :=
            mapM (fun kv =>
                    if obj_has kv.1 fo
                    then let! x := deepMerge_depth n' kv.2 (obj_get kv.1 fo) in
                         ret (kv.1, x)
                    else let! x := deepCopy n' kv.2 in ret (kv.1, x)) fb in
          let! added :=
            mapM (fun kv => let! x := deepCopy n' kv.2 in ret (kv.1, x))
                 (List.filter (fun kv => negb (obj_has kv.1 fb)) fo) in
          alloc (merged ++ added)
      end
  | _, _ => deepCopy n o
  end.

(** Modelled from the spec: [deepMerge(base, override)].  No chain of
    distinct objects is longer than the store, so only a cyclic input
    exhausts the depth; it raises [RangeError], as a call stack overflow. *)
Definition deepMerge (b o : value) : M heap value :=
  fun h => deepMerge_depth (S (size h)) b o h.

(** Modelled from the spec: a [deepMerge] that does what section 4.1 says
    and no more.  Where both sides hold a mapping the merge recurses and the
    result is a new mapping; otherwise the override's value wins outright,
    and a key of the base alone keeps the base's value: the value itself,
    not a copy of it.  Nothing that exists is written. *)
Fixpoint sharingMerge_depth (n : nat) (b o : value) : M heap value :=
  match b, o with
  | VRef lb, VRef lo =>
      match n with
      | 0 => throw RangeError
      | S n' =>
          let! fb := read_obj lb in
          let! fo := read_obj lo in
          let! merged :=
            mapM (fun kv =>
                    if obj_has kv.1 fo
                    then let! x := sharingMerge_depth n' kv.2
                                     (obj_get kv.1 fo) in
                         ret (kv.1, x)
                    else ret kv) fb in
          alloc (merged ++
                 List.filter (fun kv => negb (obj_has kv.1 fb)) fo)
      end
  | _, _ => ret o
  end.

Definition sharingMerge (b o : value) : M heap value :=
  fun h => sharingMerge_depth (S (size h)) b o h.

(** ** Theme composition (the [theme] memo, lines 75-107) *)

Section Theme.

(** [normalizeColor] and [backgroundIsDark] are imported from [utils]:
    they read the store and the theme they are given and write nothing. *)
Variable normalizeColor : heap -> value -> value -> value.
Variable backgroundIsDark : heap -> value -> value -> value.

Definition call (f : heap -> value -> value -> value) (a b : value)
  : M heap value :=
  fun h => (Ok (f h a b), h).

(** [themeProp && themeProp.menu && themeProp.menu.drop &&
    themeProp.menu.drop.align] *)
Definition menuDropAlign (themeProp : value) : M heap value :=
  js_and (js_and (js_and (ret themeProp)
                         (get_path themeProp ["menu"]))
                 (get_path themeProp ["menu"; "drop"]))
         (get_path themeProp ["menu"; "drop"; "align"]).

(** Lines 76-89: the merge and the menu alignment special case. *)
Definition mergeTheme (baseTheme themeProp : value) : M heap value :=
  let! override := js_or (ret themeProp) (alloc []) in
  let! nextTheme := deepMerge baseTheme override in
  let! guard := menuDropAlign themeProp in
  run! (if truthy guard then
          let! drop := get_path nextTheme ["menu"; "drop"] in
          run! delete_prop drop "align" in
          let! drop' := get_path nextTheme ["menu"; "drop"] in
          let! align := get_path themeProp ["menu"; "drop"; "align"] in
          set_prop drop' "align" align
        else ret tt) in
  ret nextTheme.

(** Lines 90-94: the theme's own background and the tentative [dark]. *)
Definition tentativeDark (nextTheme themeMode : value) : M heap value :=
  let! global := get_prop nextTheme "global" in
  let! colors := get_prop global "colors" in
  let! themeBackground := get_prop colors "background" in
  let! mode := js_or (ret themeMode) (get_prop nextTheme "defaultMode") in
  run! set_prop nextTheme "dark" (VBool (strict_eq mode (VStr "dark"))) in
  ret themeBackground.

(** The whole memo ([composeTheme] in the specification): lines 76-106. *)
Definition composeTheme (baseTheme themeProp background dir themeMode : value)
  : M heap value :=
  let! nextTheme := mergeTheme baseTheme themeProp in
  let! themeBackground := tentativeDark nextTheme themeMode in
  let! color := call normalizeColor (or_val background themeBackground)
                     nextTheme in
  let! isDark := call backgroundIsDark color nextTheme in
  run! set_prop nextTheme "dark" isDark in
  run! set_prop nextTheme "baseBackground"
                (or_val background themeBackground) in
  let! baseBackground := get_prop nextTheme "baseBackground" in
  run! set_prop nextTheme "background" baseBackground in
  run! (if truthy dir then set_prop nextTheme "dir" dir else ret tt) in
  ret nextTheme.

End Theme.

(** ** Theme composition over the imported merge *)

Section ThemeWith.

(** [deepMerge] is imported from [utils]: here it is whatever function the
    import provides. *)
Variable merge : value -> value -> M heap value.

Variable normalizeColor : heap -> value -> value -> value.
Variable backgroundIsDark : heap -> value -> value -> value.

(** Lines 76-89 *)
Definition mergeThemeWith (baseTheme themeProp : value) : M heap value :=
  let! override := js_or (ret themeProp) (alloc []) in
  let! nextTheme := merge baseTheme override in
  let! guard := menuDropAlign themeProp in
  run! (if truthy guard then
          let! drop := get_path nextTheme ["menu"; "drop"] in
          run! delete_prop drop "align" in
          let! drop' := get_path nextTheme ["menu"; "drop"] in
          let! align := get_path themeProp ["menu"; "drop"; "align"] in
          set_prop drop' "align" align
        else ret tt) in
  ret nextTheme.

(** Lines 76-106 *)
Definition composeThemeWith
    (baseTheme themeProp background dir themeMode : value) : M heap value :=
  let! nextTheme := mergeThemeWith baseTheme themeProp in
  let! themeBackground := tentativeDark nextTheme themeMode in
  let! color := call normalizeColor (or_val background themeBackground)
                     nextTheme in
  let! isDark := call backgroundIsDark color nextTheme in
  run! set_prop nextTheme "dark" isDark in
  run! set_prop nextTheme "baseBackground"
                (or_val background themeBackground) in
  let! baseBackground := get_prop nextTheme "baseBackground" in
  run! set_prop nextTheme "background" baseBackground in
  run! (if truthy dir then set_prop nextTheme "dir" dir else ret tt) in
  ret nextTheme.

End ThemeWith.

(** ** Regular expressions over UTF-16 code units *)

(** The two patterns of [deviceResponsive] use literals, alternation,
    concatenation, [.*] and a negative lookahead. *)
Inductive regex :=
  | Lit (s : string)
  | Alt (r1 r2 : regex)
  | Seq (r1 r2 : regex)
  | DotStar
  | NotAhead (r : regex).

Definition units (s : string) : list N :=
  List.map Ascii.N_of_ascii (String.list_ascii_of_string s).

(** Case folding of the [i] flag (without the [u] flag): a code unit is
    compared by its upper-case form, and a unit outside ASCII never folds to
    an ASCII one.  All literals of the patterns are ASCII, so only the
    folding of ASCII letters is observable. *)
Definition canonicalize (c : N) : N :=
  if ((97 <=? c) && (c <=? 122))%N then (c - 32)%N else c.

Definition unit_match (ignoreCase : bool) (a c : N) : bool :=
  if ignoreCase then (canonicalize a =? canonicalize c)%N else (a =? c)%N.

(** The rest of the input after the literal [p], if the input starts with it *)
Fixpoint strip (ignoreCase : bool) (p s : list N) : option (list N) :=
  match p, s with
  | [], _ => Some s
  | a :: p', c :: s' =>
      if unit_match ignoreCase a c then strip ignoreCase p' s' else None
  | _ :: _, [] => None
  end.

(** [.] matches any code unit but a line terminator. *)
Definition line_terminator (c : N) : bool :=
  ((c =? 10) || (c =? 13) || (c =? 8232) || (c =? 8233))%N.

Fixpoint dotstar (k : list N -> bool) (s : list N) : bool :=
  k s ||
  match s with
  | [] => false
  | c :: s' => negb (line_terminator c) && dotstar k s'
  end.

(** Backtracking matcher: does [r] match at the start of [s] with the rest
    of the input accepted by [k]? *)
Fixpoint rmatch (ignoreCase : bool) (r : regex) (s : list N)
    (k : list N -> bool) : bool :=
  match r with
  | Lit p =>
      match strip ignoreCase (units p) s with
      | Some rest => k rest
      | None => false
      end
  | Alt r1 r2 => rmatch ignoreCase r1 s k || rmatch ignoreCase r2 s k
  | Seq r1 r2 => rmatch ignoreCase r1 s (fun s' => rmatch ignoreCase r2 s' k)
  | DotStar => dotstar k s
  | NotAhead r' => negb (rmatch ignoreCase r' s (fun _ => true)) && k s
  end.

(** [RegExp.prototype.test]: a match at some start position *)
Fixpoint test (ignoreCase : bool) (r : regex) (s : list N) : bool :=
  rmatch ignoreCase r s (fun _ => true) ||
  match s with
  | [] => false
  | _ :: s' => test ignoreCase r s'
  end.

(** [/(tablet|ipad|playbook|silk)|(android(?!.*mobile))/i] *)
Definition tabletPattern : regex :=
  Alt (Alt (Alt (Alt (Lit "tablet") (Lit "ipad")) (Lit "playbook")) (Lit "silk"))
      (Seq (Lit "android") (NotAhead (Seq DotStar (Lit "mobile")))).

(** [/Mobile|iPhone|Android/] *)
Definition mobilePattern : regex :=
  Alt (Alt (Lit "Mobile") (Lit "iPhone")) (Lit "Android").

(** ** Device classification (lines 37-56) *)

Section Device.

(** [getDeviceBreakpoint(type, theme)] is imported from [utils]. *)
Variable getDeviceBreakpoint : heap -> string -> value -> value.

(** [userAgent] is [None] when the prop is absent. *)
Definition deviceResponsive (h : heap) (userAgent : option (list N))
    (theme : value) : value :=
  match userAgent with
  | Some (c :: ua) =>
      if test true tabletPattern (c :: ua)
      then getDeviceBreakpoint h "tablet" theme
      else if test false mobilePattern (c :: ua)
      then getDeviceBreakpoint h "phone" theme
      else getDeviceBreakpoint h "computer" theme
  | _ => VUndef
  end.

(** ** The published breakpoint (lines 139-142) *)

Definition responsive (stateResponsive : value) (userAgent : option (list N))
    (theme : value) : M heap value :=
  js_or (js_or (ret stateResponsive)
               (fun h => (Ok (deviceResponsive h userAgent theme), h)))
        (get_path theme ["global"; "deviceBreakpoints"; "tablet"]).

End Device.

(** ** The host environment, the resize listener and the measurement *)

(** A DOM element: the reference a consumer holds and its width *)
Record Element := { element : value; clientWidth : Z }.

Record Document := { body : Element }.

(** The listeners registered on [window]: the event type and the theme the
    registered [onResize] closes over. *)
Record Window := { listeners : list (string * value) }.

(** The globals, each of which may be undeclared, and the component's
    [stateResponsive] (initially [undefined]). *)
Record runtime := {
  document : option Document;
  window : option Window;
  stateResponsive : value
}.

(** [typeof document === 'object' ? document.body : undefined], the default
    of the [containerTarget] prop (line 64); the default applies when the
    prop is [undefined]. *)
Definition containerTarget (w : runtime) (prop : value) : value :=
  match prop with
  | VUndef =>
      match document w with
      | Some d => element (body d)
      | None => VUndef
      end
  | _ => prop
  end.

Definition the_document : M runtime Document :=
  fun w =>
    match document w with
    | Some d => (Ok d, w)
    | None => (Throw ReferenceError, w)
    end.

Definition the_window : M runtime Window :=
  fun w =>
    match window w with
    | Some x => (Ok x, w)
    | None => (Throw ReferenceError, w)
    end.

Definition setResponsive (v : value) : M runtime unit :=
  fun w => (Ok tt, {| document := document w; window := window w;
                      stateResponsive := v |}).

Definition set_listeners (ls : list (string * value)) : M runtime unit :=
  fun w => (Ok tt, {| document := document w;
                      window := Some {| listeners := ls |};
                      stateResponsive := stateResponsive w |}).

Section Resize.

(** [getBreakpoint(width, theme)] is imported from [utils]. *)
Variable getBreakpoint : heap -> Z -> value -> value.

(** The store the theme lives in *)
Variable h : heap.

(** Lines 127-129 *)
Definition onResize (theme : value) : M runtime unit :=
  let! d := the_document in
  setResponsive (getBreakpoint h (clientWidth (body d)) theme).

(** The effect of lines 131-133 *)
Definition resizeEffect (theme : value) : M runtime unit :=
  let! win := the_window in
  run! set_listeners (listeners win ++ [("resize", theme)]) in
  onResize theme.

(** Its cleanup, lines 134-136: the first registration of this listener is
    removed. *)
Fixpoint remove_listener (l : string * value) (ls : list (string * value))
  : list (string * value) :=
  match ls with
  | [] => []
  | l' :: ls' =>
      if bool_decide (l = l') then ls' else l' :: remove_listener l ls'
  end.

Definition resizeCleanup (theme : value) : M runtime unit :=
  let! win := the_window in
  set_listeners (remove_listener ("resize", theme) (listeners win)).

End Resize.

(** ** Options (lines 58 and 66) *)

(** [const defaultOptions = {}], evaluated once when the module is loaded *)
Definition defaultOptions_init : M heap value := alloc [].

(** [options = defaultOptions] in the destructuring of the props *)
Definition options (defaultOptions prop : value) : value :=
  match prop with
  | VUndef => defaultOptions
  | _ => prop
  end.

(** ** Message composition (the [messages] memo, lines 109-125) *)

Section Messages.

(** What a caller passes to [format]: message id, values, default. *)
Variable opts : Type.

(** [format(opts, messages)] of [MessageContext], the standard template
    substitution *)
Variable format : heap -> opts -> value -> value.

(** The value of a [format] property: absent, a function, or something
    else. *)
Inductive format_prop :=
  | FormatAbsent
  | FormatFun (f : opts -> value)
  | FormatOther (v : value).

(** The [messages] prop; [None] when the prop is absent. *)
Record MessagesProp := {
  prop_messages : value;
  prop_format : format_prop
}.

(** [messagesProp?.format && messagesProp.format(opts)] *)
Definition callerFormat (messagesProp : option MessagesProp) (o : opts)
  : M heap value :=
  match messagesProp with
  | None => ret VUndef
  | Some p =>
      match prop_format p with
      | FormatAbsent => ret VUndef
      | FormatFun f => ret (f o)
      | FormatOther v => if truthy v then throw TypeError else ret v
      end
  end.

(** The composed [format], lines 118-123 *)
Definition composedFormat (messagesProp : option MessagesProp)
    (nextMessages : value) (o : opts) : M heap value :=
  let! message := callerFormat messagesProp o in
  if defined message then ret message
  else fun h => (Ok (format h o nextMessages), h).

Record MessageBundle := {
  bundle_messages : value;
  bundle_format : opts -> M heap value
}.

(** Lines 112-115: [deepMerge(defaultMessages, messagesProp?.messages || {})] *)
Definition nextMessages (defaultMessages : value)
    (messagesProp : option MessagesProp) : M heap value :=
  let! override :=
    js_or (ret (match messagesProp with
                | Some p => prop_messages p
                | None => VUndef
                end))
          (alloc []) in
  deepMerge defaultMessages override.

Definition messages (defaultMessages : value)
    (messagesProp : option MessagesProp) : M heap MessageBundle :=
  let! merged := nextMessages defaultMessages messagesProp in
  ret {| bundle_messages := merged;
         bundle_format := composedFormat messagesProp merged |}.

End Messages.

Arguments FormatAbsent {opts}.
Arguments FormatFun {opts} f.
Arguments FormatOther {opts} v.

(** * Reasoning about monadic code *)

(** [hoare P m Q E]: from a state satisfying [P], [m] either returns [a] in
    a state satisfying [Q a] or raises in a state satisfying [E]. *)
Definition hoare {S A} (P : S -> Prop) (m : M S A)
    (Q : A -> S -> Prop) (E : S -> Prop) : Prop :=
  forall s, P s ->
    match m s with
    | (Ok a, s') => Q a s'
    | (Throw _, s') => E s'
    end.

(** * Reading leaves the store alone *)

Definition readonly {A} (m : M heap A) : Prop := forall h, (m h).2 = h.

(** * Objects that existed before a computation and objects made by it *)

Section Frame.

(** The store before the computation. *)
Variable h0 : heap.

(** A value that does not refer to an object of [h0]. *)
Definition isnew (v : value) : Prop :=
  match v with
  | VRef l => h0 !! l = None
  | _ => True
  end.

(** The objects made by the computation only refer to one another. *)
Definition closed (h : heap) : Prop :=
  forall l fs, h !! l = Some fs -> h0 !! l = None ->
    Forall (fun kv : string * value => isnew kv.2) fs.

(** Every object of [h0] is still there, with the properties it had. *)
Definition framed (h : heap) : Prop := h0 ⊆ h.

Definition inv (h : heap) : Prop := framed h /\ closed h.

End Frame.

(** * Signatures of a user-agent string *)

(** The literal [p] occurs in [s]. *)
Definition contains (ignoreCase : bool) (p : string) (s : list N) : bool :=
  test ignoreCase (Lit p) s.

Definition found (o : option (list N)) : bool :=
  match o with Some _ => true | None => false end.

(** The input up to its first line terminator *)
Fixpoint firstLine (s : list N) : list N :=
  match s with
  | [] => []
  | c :: s' => if line_terminator c then [] else c :: firstLine s'
  end.

(** Some occurrence of "android" (in any case) has no "mobile" (in any case)
    after it on the same line. *)
Fixpoint androidNotFollowed (s : list N) : bool :=
  match strip true (units "android") s with
  | Some rest => negb (contains true "mobile" (firstLine rest))
  | None => false
  end ||
  match s with
  | [] => false
  | _ :: s' => androidNotFollowed s'
  end.

Definition tabletSignature (s : list N) : bool :=
  contains true "tablet" s || contains true "ipad" s ||
  contains true "playbook" s || contains true "silk" s ||
  androidNotFollowed s.

Definition mobileSignature (s : list N) : bool :=
  contains false "Mobile" s || contains false "iPhone" s ||
  contains false "Android" s.

(** The classification as the specification words it: the tablet family is
    "tablet, ipad, playbook, silk, or Android without a mobile token", the
    mobile family is "Mobile, iPhone, or Android". *)
Definition tabletFamily_words (s : list N) : bool :=
  contains true "tablet" s || contains true "ipad" s ||
  contains true "playbook" s || contains true "silk" s ||
  (contains true "android" s && negb (contains true "mobile" s)).

Definition classify_words (userAgent : option (list N)) : option string :=
  match userAgent with
  | Some (c :: ua) =>
      if tabletFamily_words (c :: ua) then Some "tablet"
      else if mobileSignature (c :: ua) then Some "phone"
      else Some "computer"
  | _ => None
  end.

(** A device breakpoint table that names each device class after itself, so
    that the class chosen by [deviceResponsive] can be observed. *)
Definition deviceClass : heap -> string -> value -> value :=
  fun _ device _ => VStr device.

Definition class_value (c : option string) : value :=
  match c with
  | Some device => VStr device
  | None => VUndef
  end.

(** A user agent in which "Mobile" comes before "Android", as feature
    phones of the Firefox OS family send it *)
Definition ua_mobile_android : list N :=
  units "Mozilla/5.0 (Mobile; LYF/F90M; Android; rv:48.0) Gecko/48.0 Firefox/48.0 KAIOS/2.5".

(** A user agent with "mobile" in lower case only *)
Definition ua_lowercase_mobile : list N :=
  units "Mozilla/5.0 (X11; Linux x86_64) mobile safari".

(** * Sample environments *)

(** No [document] and no [window]: execution outside a browser *)
Definition no_globals : runtime :=
  {| document := None; window := None; stateResponsive := VUndef |}.

(** A browser window 800 pixels wide, before any listener is registered *)
Definition browser_800 : runtime :=
  {| document := Some {| body := {| element := VRef 0; clientWidth := 800 |} |};
     window := Some {| listeners := [] |};
     stateResponsive := VUndef |}.

(** A width resolver with the thresholds of the specification's example
    table: small up to 767, medium up to 1279, large above. *)
Definition sample_getBreakpoint : heap -> Z -> value -> value :=
  fun _ width _ =>
    if (width <=? 767)%Z then VStr "small"
    else if (width <=? 1279)%Z then VStr "medium"
    else VStr "large".

(** * Observing a composed theme *)

(** The property [k] of the theme a composition returned *)
Definition field_of (k : string) (r : outcome value * heap) : option value :=
  match r with
  | (Ok theme, h) =>
      match get_prop theme k h with
      | (Ok v, _) => Some v
      | _ => None
      end
  | _ => None
  end.

(** Modelled from the spec: [normalizeColor] and [backgroundIsDark]
    (imported from [utils]) are not among the sources.  The spec has
    [normalizeColor] resolve a theme colour alias or a literal colour to a
    concrete colour, and [backgroundIsDark] classify a colour as dark when
    its luminance is below a fixed threshold.  '#000000' is a literal, not an
    alias, and no colour is darker: [normalizeColor] resolves it to
    itself. *)
Definition resolves_black (normalizeColor : heap -> value -> value -> value)
  : Prop :=
  forall (s : heap) t, normalizeColor s (VStr "#000000") t = VStr "#000000".

(** Modelled from the spec: [backgroundIsDark] finds '#000000' dark. *)
Definition black_is_dark (backgroundIsDark : heap -> value -> value -> value)
  : Prop :=
  forall (s : heap) t, backgroundIsDark s (VStr "#000000") t = VBool true.

(** A helper that does not look at the [dark] property of the theme it is
    given *)
Definition ignores_dark (f : heap -> value -> value -> value) : Prop :=
  forall (h : heap) l fs v c,
    h !! l = Some fs ->
    f (<[l := obj_set "dark" v fs]> h) c (VRef l) = f h c (VRef l).

(** The properties of the composed theme, given those of the merged one
    ([fs], stored at [l] in [h1]) and its declared background [tb]: lines
    94-104 *)
Definition themeFields (normalizeColor backgroundIsDark
    : heap -> value -> value -> value) (h1 : heap) (l : loc)
    (fs : list (string * value)) (tb background dir themeMode : value)
  : list (string * value) :=
  let mode := or_val themeMode (obj_get "defaultMode" fs) in
  let fs1 := obj_set "dark" (VBool (strict_eq mode (VStr "dark"))) fs in
  let h2 := <[l := fs1]> h1 in
  let bg := or_val background tb in
  let isDark := backgroundIsDark h2 (normalizeColor h2 bg (VRef l)) (VRef l) in
  let fs3 := obj_set "baseBackground" bg (obj_set "dark" isDark fs1) in
  let fs4 := obj_set "background" (obj_get "baseBackground" fs3) fs3 in
  if truthy dir then obj_set "dir" dir fs4 else fs4.

(** * What a merge result owes to the override *)

Definition isprim (v : value) : Prop :=
  match v with
  | VRef _ => False
  | _ => True
  end.

(** [carries h o v]: in the store [h], the value [v] agrees with [o] on
    every path present in [o] -- a primitive is carried by itself, an object
    by an object that has each of its keys, with a value that again carries
    the one in [o]. *)
Inductive carries (h : heap) : value -> value -> Prop :=
  | carries_prim o : isprim o -> carries h o o
  | carries_obj lo lv fo fv :
      h !! lo = Some fo ->
      h !! lv = Some fv ->
      (forall k, obj_has k fo = true -> obj_has k fv = true) ->
      (forall k, obj_has k fo = true ->
                 carries h (obj_get k fo) (obj_get k fv)) ->
      carries h (VRef lo) (VRef lv).

(** Two properties with the same key whose values are related by [P] *)
Definition field_rel (P : string -> value -> value -> Prop)
    (kv kv' : string * value) : Prop :=
  kv'.1 = kv.1 /\ P kv.1 kv.2 kv'.2.

(** * A sample store *)

(** A base theme at location 1 with [global.colors.background = 'white'],
    [defaultMode = 'light'] and [menu.drop.align = {top: 'top', left:
    'left'}]; a theme override at location 10 with [menu.drop.align = {top:
    'bottom'}]; default messages at location 20 and a messages override at
    location 21. *)
Definition sample_store : heap :=
  <[1 := [("global", VRef 2); ("menu", VRef 4); ("defaultMode", VStr "light")]]>
  (<[2 := [("colors", VRef 3)]]>
  (<[3 := [("background", VStr "white")]]>
  (<[4 := [("drop", VRef 5)]]>
  (<[5 := [("align", VRef 6)]]>
  (<[6 := [("top", VStr "top"); ("left", VStr "left")]]>
  (<[10 := [("menu", VRef 11)]]>
  (<[11 := [("drop", VRef 12)]]>
  (<[12 := [("align", VRef 13)]]>
  (<[13 := [("top", VStr "bottom")]]>
  (<[20 := [("input.readOnly", VStr "read only")]]>
  (<[21 := [("input.readOnly", VStr "lecture seule")]]> ∅))))))))))).

(** Colour helpers that resolve every colour to itself and find only
    '#000000' dark *)
Definition sample_normalizeColor : heap -> value -> value -> value :=
  fun _ color _ => color.

Definition sample_backgroundIsDark : heap -> value -> value -> value :=
  fun _ color _ => VBool (strict_eq color (VStr "#000000")).

(** A standard formatter that looks the message id up in the table *)
Definition sample_format : heap -> string -> value -> value :=
  fun h id table =>
    match get_prop table id h with
    | (Ok v, _) => v
    | _ => VUndef
    end.



(** Modelled from the spec: [normalizeColor] resolves a colour against the
    theme it is handed, of which section 4.2 does not say what it reads.
    This resolver takes a literal for itself -- it meets [resolves_black] --
    and resolves a colour given as a pair of variants, [{dark, light}], to
    the variant for the [dark] flag of the theme. *)
Definition mode_normalizeColor : heap -> value -> value -> value :=
  fun h color theme =>
    match color with
    | VRef _ =>
        match get_prop theme "dark" h with
        | (Ok flag, _) =>
            match get_prop color (if truthy flag then "dark" else "light") h with
            | (Ok variant, _) => variant
            | _ => VUndef
            end
        | _ => VUndef
        end
    | _ => color
    end.

(** The sample store with a background given as a pair of variants, at
    location 30 *)
Definition variant_store : heap :=
  <[30 := [("dark", VStr "#000000"); ("light", VStr "#ffffff")]]> sample_store.

(** * The message tables *)




(** A base theme without [menu], at location 1, and the theme override of
    the sample store, at location 10, with [menu.drop.align = {top:
    'bottom'}] *)
Definition no_menu_store : heap :=
  <[1 := [("global", VRef 2); ("defaultMode", VStr "light")]]>
  (<[2 := [("colors", VRef 3)]]>
  (<[3 := [("background", VStr "white")]]>
  (<[10 := [("menu", VRef 11)]]>
  (<[11 := [("drop", VRef 12)]]>
  (<[12 := [("align", VRef 13)]]>
  (<[13 := [("top", VStr "bottom")]]> ∅)))))).

(** * Finite structures *)

(** [finite h n v]: the value [v] is a primitive, or an object of [h] whose
    properties are finite structures, nested at most [n] deep.  A cyclic
    structure, or one that refers to an object the store lacks, is at no
    depth finite. *)
Fixpoint finite (h : heap) (n : nat) (v : value) : bool :=
  match v with
  | VRef l =>
      match n with
      | 0 => false
      | S n' =>
          match h !! l with
          | Some fs => forallb (fun kv => finite h n' kv.2) fs
          | None => false
          end
      end
  | _ => true
  end.

(** A computation whose result, once it has returned, is the same in every
    larger store *)
Definition stable {A} (m : M heap A) : Prop :=
  forall (h h' : heap) x, m h = (Ok x, h) -> h ⊆ h' -> m h' = (Ok x, h').

(** * Letter case of a user agent *)

(** Two code units that differ at most in the case of an ASCII letter *)
Definition same_letter (c c' : N) : Prop := canonicalize c = canonicalize c'.

(** The four keywords of the tablet pattern *)
Definition tabletKeywords : list string := ["tablet"; "ipad"; "playbook"; "silk"].

(** * Values without properties *)

(** [undefined] and [null]: reading a property of either raises. *)
Definition nullish (v : value) : Prop := v = VUndef \/ v = VNull.

(** The keys that theme composition writes: [align] under [menu.drop], the
    others on the theme itself. *)
Definition composedKeys : list string :=
  ["align"; "dark"; "baseBackground"; "background"; "dir"].

(** A base theme, at location 1, that declares a background and the device
    breakpoints *)
Definition breakpoints_store : heap :=
  <[1 := [("global", VRef 2)]]>
  (<[2 := [("colors", VRef 3); ("deviceBreakpoints", VRef 4)]]>
  (<[3 := [("background", VStr "white")]]>
  (<[4 := [("phone", VStr "small"); ("tablet", VStr "medium");
           ("computer", VStr "large")]]> ∅))).

(** * The props handed on (lines 61-70 and 157-159) *)

(** The props the destructuring of lines 61-69 takes out by name *)
Definition namedProps : list string :=
  ["children"; "full"; "containerTarget"; "theme"; "options"; "messages"].

(** [...rest]: the own properties that are left, in their order *)
Definition rest (props : list (string * value)) : list (string * value) :=
  fold_right obj_delete props namedProps.

(** [{...src}] on top of the properties [dst] written before it *)
Definition spread (src dst : list (string * value)) : list (string * value) :=
  fold_left (fun acc kv => obj_set kv.1 kv.2 acc) src dst.

(** The props of the [StyledGrommet] element of lines 157-159:
    [full={full} {...rest}] and the children; the [ref] is not a prop. *)
Definition styledProps (props : list (string * value))
  : list (string * value) :=
  obj_set "children" (obj_get "children" props)
    (spread (rest props) [("full", obj_get "full" props)]).

(** The props that do not reach [StyledGrommet] *)
Definition withheldProps : list string :=
  ["containerTarget"; "theme"; "options"; "messages"].

(** * Lemmas on the monad *)

Lemma hoare_ret {S A} (P : S -> Prop) (a : A) (Q : A -> S -> Prop) E :
  (forall s, P s -> Q a s) -> hoare P (ret a) Q E.
Proof. intros H s Hs. simpl. auto. Qed.

Lemma hoare_throw {S A} (P : S -> Prop) e (Q : A -> S -> Prop) (E : S -> Prop) :
  (forall s, P s -> E s) -> hoare P (throw e) Q E.
Proof. intros H s Hs. simpl. auto. Qed.

Lemma hoare_bind {S A B} (P : S -> Prop) (m : M S A) (k : A -> M S B)
    (Q : A -> S -> Prop) (R : B -> S -> Prop) (E : S -> Prop) :
  hoare P m Q E -> (forall a, hoare (Q a) (k a) R E) ->
  hoare P (bind m k) R E.
Proof.
  intros Hm Hk s Hs. unfold bind. specialize (Hm s Hs).
  destruct (m s) as [[a|e] s']; [apply (Hk a s' Hm) | exact Hm].
Qed.

Lemma hoare_conseq {S A} (P P' : S -> Prop) (m : M S A)
    (Q Q' : A -> S -> Prop) (E E' : S -> Prop) :
  hoare P' m Q' E' ->
  (forall s, P s -> P' s) -> (forall a s, Q' a s -> Q a s) ->
  (forall s, E' s -> E s) ->
  hoare P m Q E.
Proof.
  intros H HP HQ HE s Hs. specialize (H s (HP s Hs)).
  destruct (m s) as [[a|e] s']; auto.
Qed.

Lemma hoare_pre {S A} (P P' : S -> Prop) (m : M S A)
    (Q : A -> S -> Prop) (E : S -> Prop) :
  (forall s, P s -> P' s) -> hoare P' m Q E -> hoare P m Q E.
Proof. intros HP H. eapply hoare_conseq; eauto. Qed.

Lemma hoare_mapM {S A B} (I : S -> Prop) (T : B -> Prop)
    (f : A -> M S B) (xs : list A) :
  (forall x, hoare I (f x) (fun y s => I s /\ T y) I) ->
  hoare I (mapM f xs) (fun ys s => I s /\ Forall T ys) I.
Proof.
  intros Hf. induction xs as [|x xs IH]; simpl.
  - apply hoare_ret. auto.
  - eapply hoare_bind; [apply Hf|]. intros y. simpl.
    intros s [Hs Hy]. unfold bind.
    specialize (IH s Hs). destruct (mapM f xs s) as [[ys|e] s']; simpl; [|done].
    destruct IH as [Hs' Hys]. split; [done|]. by constructor.
Qed.

(** * Objects *)

Lemma obj_get_set_eq k x fs : obj_get k (obj_set k x fs) = x.
Proof.
  induction fs as [|[k' v] fs IH]; simpl.
  - by rewrite String.eqb_refl.
  - destruct (String.eqb k k') eqn:E; simpl; rewrite E; [done | exact IH].
Qed.

Lemma obj_get_set_ne k k' x fs :
  k <> k' -> obj_get k (obj_set k' x fs) = obj_get k fs.
Proof.
  intros Hne. induction fs as [|[k'' v] fs IH]; simpl.
  - destruct (String.eqb k k') eqn:E; [|done].
    apply String.eqb_eq in E. contradiction.
  - destruct (String.eqb k' k'') eqn:E; simpl.
    + apply String.eqb_eq in E. subst k''.
      destruct (String.eqb k k') eqn:E'; [|done].
      apply String.eqb_eq in E'. contradiction.
    + by rewrite IH.
Qed.

Lemma obj_get_delete_ne k k' fs :
  k <> k' -> obj_get k (obj_delete k' fs) = obj_get k fs.
Proof.
  intros Hne. induction fs as [|[k'' v] fs IH]; simpl; [done|].
  destruct (String.eqb k' k'') eqn:E; simpl.
  - apply String.eqb_eq in E. subst k''.
    destruct (String.eqb k k') eqn:E'; [|exact IH].
    apply String.eqb_eq in E'. contradiction.
  - by rewrite IH.
Qed.

Lemma obj_get_Forall (P : value -> Prop) k fs :
  P VUndef -> Forall (fun kv => P kv.2) fs -> P (obj_get k fs).
Proof.
  intros HU. induction 1 as [|[k' v] fs Hv _ IH]; simpl; [done|].
  by destruct (String.eqb k k').
Qed.

Lemma obj_delete_Forall (P : value -> Prop) k fs :
  Forall (fun kv => P kv.2) fs -> Forall (fun kv => P kv.2) (obj_delete k fs).
Proof.
  induction 1 as [|[k' v] fs Hv Hfs IH]; simpl; [done|].
  destruct (String.eqb k k'); [done | by constructor].
Qed.

(** * Reading leaves the store alone *)

Lemma readonly_bind {A B} (m : M heap A) (k : A -> M heap B) :
  readonly m -> (forall a, readonly (k a)) -> readonly (bind m k).
Proof.
  intros Hm Hk h. unfold bind. specialize (Hm h).
  destruct (m h) as [[a|e] h']; simpl in *; subst; [apply Hk | done].
Qed.

Lemma readonly_read_obj l : readonly (read_obj l).
Proof. intros h. unfold read_obj. by destruct (h !! l). Qed.

Lemma readonly_get_prop v k : readonly (get_prop v k).
Proof.
  destruct v; simpl; try done.
  apply readonly_bind; [apply readonly_read_obj | done].
Qed.

Lemma readonly_get_path ks : forall v, readonly (get_path v ks).
Proof.
  induction ks as [|k ks IH]; intros v; simpl; [done|].
  apply readonly_bind; [apply readonly_get_prop | apply IH].
Qed.

Lemma readonly_js_and (a b : M heap value) :
  readonly a -> readonly b -> readonly (js_and a b).
Proof.
  intros Ha Hb. apply readonly_bind; [done|]. intros x.
  by destruct (truthy x).
Qed.

Lemma readonly_js_or (a b : M heap value) :
  readonly a -> readonly b -> readonly (js_or a b).
Proof.
  intros Ha Hb. apply readonly_bind; [done|]. intros x.
  by destruct (truthy x).
Qed.

Lemma readonly_call f a b : readonly (call f a b).
Proof. done. Qed.

Lemma readonly_hoare {A} (P : heap -> Prop) (m : M heap A) :
  readonly m -> hoare P m (fun _ h => P h) P.
Proof.
  intros Hm h Hh. specialize (Hm h).
  destruct (m h) as [[a|e] h']; simpl in *; by subst.
Qed.

(** * The deep merge only allocates *)

Section FrameLemmas.

Variable h0 : heap.

Lemma inv_init : inv h0 h0.
Proof.
  split; [done|]. intros l fs Hl Hn. congruence.
Qed.

Lemma fresh_old (h : heap) : framed h0 h -> h0 !! fresh (dom h) = None.
Proof.
  intros Hsub. apply not_elem_of_dom. intros Hin.
  apply (is_fresh (dom h)). by apply (subseteq_dom _ _ Hsub).
Qed.

Lemma hoare_alloc fs :
  Forall (fun kv : string * value => isnew h0 kv.2) fs ->
  hoare (inv h0) (alloc fs) (fun v h => inv h0 h /\ isnew h0 v) (inv h0).
Proof.
  intros Hfs h [Hsub Hcl]. pose proof (fresh_old h Hsub) as Hfr.
  unfold alloc. set (l0 := fresh (dom h)) in *.
  repeat split.
  - by apply insert_subseteq_r.
  - intros l fs' Hl Hn. destruct (decide (l0 = l)) as [->|Hne].
    + rewrite lookup_insert_eq in Hl. by inversion Hl; subst.
    + rewrite lookup_insert_ne in Hl by done. by eapply Hcl.
  - exact Hfr.
Qed.

Lemma hoare_read_obj (P E : heap -> Prop) l :
  (forall h, P h -> E h) ->
  hoare P (read_obj l) (fun fs h => P h /\ h !! l = Some fs) E.
Proof.
  intros HE h Hh. unfold read_obj. destruct (h !! l) eqn:El; simpl; auto.
Qed.

Lemma hoare_get_prop_new v k :
  isnew h0 v ->
  hoare (inv h0) (get_prop v k) (fun x h => inv h0 h /\ isnew h0 x) (inv h0).
Proof.
  intros Hv. destruct v; simpl;
    try (apply hoare_ret; by auto); try (apply hoare_throw; by auto).
  eapply hoare_bind; [apply hoare_read_obj; tauto|]. intros fs.
  apply hoare_ret. intros h [[Hsub Hcl] Hl]. split; [done|].
  apply (obj_get_Forall (isnew h0)); [done|]. by eapply Hcl.
Qed.

Lemma hoare_get_path_new ks : forall v,
  isnew h0 v ->
  hoare (inv h0) (get_path v ks) (fun x h => inv h0 h /\ isnew h0 x) (inv h0).
Proof.
  induction ks as [|k ks IH]; intros v Hv; simpl.
  - apply hoare_ret. auto.
  - eapply hoare_bind; [by apply hoare_get_prop_new|]. intros x.
    intros h [Hh Hx]. by apply IH.
Qed.

Lemma hoare_delete_prop_new v k :
  isnew h0 v ->
  hoare (inv h0) (delete_prop v k) (fun _ h => inv h0 h) (inv h0).
Proof.
  intros Hv. destruct v; simpl;
    try (apply hoare_ret; by auto); try (apply hoare_throw; by auto).
  intros h [Hsub Hcl]. destruct (h !! l) as [fs|] eqn:E; simpl; [|done].
  split.
  - by apply insert_subseteq_r.
  - intros l' fs' Hl Hn. destruct (decide (l = l')) as [->|Hne].
    + rewrite lookup_insert_eq in Hl. inversion Hl; subst.
      apply (obj_delete_Forall (isnew h0)). by eapply Hcl.
    + rewrite lookup_insert_ne in Hl by done. by eapply Hcl.
Qed.

(** A write to a new object keeps the old ones, whatever is written. *)
Lemma framed_set_prop v k x :
  isnew h0 v ->
  hoare (framed h0) (set_prop v k x) (fun _ h => framed h0 h) (framed h0).
Proof.
  intros Hv. destruct v; simpl; try (apply hoare_throw; by auto).
  intros h Hsub. destruct (h !! l) as [fs|] eqn:E; simpl; [|done].
  by apply insert_subseteq_r.
Qed.

Lemma hoare_field (f : value -> M heap value) (kv : string * value) :
  hoare (inv h0) (f kv.2) (fun x h => inv h0 h /\ isnew h0 x) (inv h0) ->
  hoare (inv h0) (let! x := f kv.2 in ret (kv.1, x))
        (fun y h => inv h0 h /\ isnew h0 y.2) (inv h0).
Proof.
  intros Hf. eapply hoare_bind; [exact Hf|]. intros x.
  apply hoare_ret. auto.
Qed.

Lemma hoare_deepCopy n : forall v,
  hoare (inv h0) (deepCopy n v) (fun x h => inv h0 h /\ isnew h0 x) (inv h0).
Proof.
  induction n as [|n IH]; intros v; destruct v; simpl;
    try (apply hoare_ret; by auto); try (apply hoare_throw; by auto).
  eapply hoare_bind; [apply hoare_read_obj; tauto|]. intros fs.
  eapply hoare_bind.
  - apply (hoare_pre _ (inv h0)); [by intros h [Hh _]|].
    apply (hoare_mapM (inv h0) (fun y : string * value => isnew h0 y.2)).
    intros kv. apply (hoare_field (deepCopy n)). apply IH.
  - intros fs' h [Hh Hfs]. by apply hoare_alloc.
Qed.

Lemma hoare_deepMerge_depth n : forall b o,
  hoare (inv h0) (deepMerge_depth n b o)
        (fun x h => inv h0 h /\ isnew h0 x) (inv h0).
Proof.
  induction n as [|n IH]; intros b o.
  - destruct b, o; simpl; try apply hoare_deepCopy;
      try (apply hoare_ret; by auto); try (apply hoare_throw; by auto).
  - destruct b as [| | | | |lb]; try apply (hoare_deepCopy (S n));
      destruct o as [| | | | |lo]; try apply (hoare_deepCopy (S n)).
    simpl.
    eapply hoare_bind; [apply hoare_read_obj; tauto|]. intros fb.
    eapply hoare_bind; [apply hoare_read_obj; tauto|]. intros fo.
    eapply hoare_bind.
    { apply (hoare_pre _ (inv h0)); [by intros h [[Hh _] _]|].
      apply (hoare_mapM (inv h0) (fun y : string * value => isnew h0 y.2)).
      intros kv. destruct (obj_has kv.1 fo).
      - apply (hoare_field (fun x => deepMerge_depth n x (obj_get kv.1 fo))).
        apply IH.
      - apply (hoare_field (deepCopy n)). apply hoare_deepCopy. }
    intros merged.
    eapply hoare_bind.
    { intros h [Hh Hm].
      pose proof (hoare_mapM (inv h0) (fun y : string * value => isnew h0 y.2)
        (fun kv => let! x := deepCopy n kv.2 in ret (kv.1, x))
        (List.filter (fun kv => negb (obj_has kv.1 fb)) fo)) as Hadd.
      specialize (Hadd (fun kv => hoare_field (deepCopy n) kv
                                    (hoare_deepCopy n kv.2)) h Hh).
      destruct (mapM _ _ h) as [[added|e] h']; [|exact Hadd].
      exact (conj Hadd Hm). }
    intros added h [[Hh Ha] Hm].
    apply hoare_alloc; [|done]. apply Forall_app. auto.
Qed.

Lemma hoare_deepMerge b o :
  hoare (inv h0) (deepMerge b o) (fun x h => inv h0 h /\ isnew h0 x) (inv h0).
Proof. intros h Hh. by apply hoare_deepMerge_depth. Qed.

End FrameLemmas.

(** * Theme composition keeps what existed *)

Section ThemeFrame.

Variable h0 : heap.

Lemma hoare_pure {S A} (phi : Prop) (P : S -> Prop) (m : M S A)
    (Q : A -> S -> Prop) (E : S -> Prop) :
  (phi -> hoare P m Q E) -> hoare (fun s => P s /\ phi) m Q E.
Proof. intros H s [Hs Hphi]. by apply H. Qed.

Lemma inv_framed h : inv h0 h -> framed h0 h.
Proof. by intros [H _]. Qed.

Lemma hoare_exc {A} (P : heap -> Prop) (m : M heap A) (Q : A -> heap -> Prop) :
  hoare P m Q (inv h0) -> hoare P m Q (framed h0).
Proof. intros H. eapply hoare_conseq; eauto using inv_framed. Qed.

Lemma hoare_override themeProp :
  hoare (inv h0) (js_or (ret themeProp) (alloc []))
        (fun _ h => inv h0 h) (framed h0).
Proof.
  unfold js_or. eapply hoare_bind.
  - apply (hoare_ret (inv h0) themeProp (fun _ h => inv h0 h)). auto.
  - intros x. destruct (truthy x).
    + apply hoare_ret. auto.
    + eapply hoare_conseq; [apply (hoare_alloc h0 []); constructor|..];
        simpl; auto using inv_framed. tauto.
Qed.

Lemma hoare_alignFix nextTheme themeProp :
  isnew h0 nextTheme ->
  hoare (inv h0)
        (let! drop := get_path nextTheme ["menu"; "drop"] in
         run! delete_prop drop "align" in
         let! drop' := get_path nextTheme ["menu"; "drop"] in
         let! align := get_path themeProp ["menu"; "drop"; "align"] in
         set_prop drop' "align" align)
        (fun _ h => framed h0 h) (framed h0).
Proof.
  intros Hnew.
  eapply hoare_bind; [by apply hoare_exc, hoare_get_path_new|].
  intros drop. apply hoare_pure. intros Hdrop.
  eapply hoare_bind; [by apply hoare_exc, hoare_delete_prop_new|].
  intros [].
  eapply hoare_bind; [by apply hoare_exc, hoare_get_path_new|].
  intros drop'. apply hoare_pure. intros Hdrop'.
  eapply hoare_bind.
  { apply (hoare_pre _ (framed h0)); [apply inv_framed|].
    apply readonly_hoare, readonly_get_path. }
  intros align. by apply framed_set_prop.
Qed.

Lemma hoare_mergeTheme baseTheme themeProp :
  hoare (inv h0) (mergeTheme baseTheme themeProp)
        (fun nextTheme h => framed h0 h /\ isnew h0 nextTheme) (framed h0).
Proof.
  unfold mergeTheme.
  eapply hoare_bind; [apply hoare_override|]. intros override.
  eapply hoare_bind; [apply hoare_exc, hoare_deepMerge|].
  intros nextTheme. apply hoare_pure. intros Hnew.
  eapply hoare_bind.
  { apply hoare_exc, (readonly_hoare (inv h0) (menuDropAlign themeProp)).
    repeat apply readonly_js_and; try apply readonly_get_path. done. }
  intros guard.
  eapply hoare_bind.
  { destruct (truthy guard).
    - by apply hoare_alignFix.
    - apply hoare_ret. apply inv_framed. }
  intros []. apply hoare_ret. auto.
Qed.

Lemma framed_read {A B} (m : M heap A) (k : A -> M heap B)
    (Q : B -> heap -> Prop) :
  readonly m ->
  (forall a, hoare (framed h0) (k a) Q (framed h0)) ->
  hoare (framed h0) (bind m k) Q (framed h0).
Proof.
  intros Hm Hk. eapply hoare_bind; [by apply readonly_hoare|]. exact Hk.
Qed.

Lemma framed_write {B} v k x (m : M heap B) (Q : B -> heap -> Prop) :
  isnew h0 v ->
  hoare (framed h0) m Q (framed h0) ->
  hoare (framed h0) (run! set_prop v k x in m) Q (framed h0).
Proof.
  intros Hv Hm. eapply hoare_bind; [by apply framed_set_prop|]. by intros [].
Qed.

Lemma hoare_tentativeDark nextTheme themeMode :
  isnew h0 nextTheme ->
  hoare (framed h0) (tentativeDark nextTheme themeMode)
        (fun _ h => framed h0 h) (framed h0).
Proof.
  intros Hnew. unfold tentativeDark.
  repeat (apply framed_read; [apply readonly_get_prop|]; intros ?).
  apply framed_read.
  { apply readonly_js_or; [done | apply readonly_get_prop]. }
  intros mode. apply framed_write; [done|]. apply hoare_ret. auto.
Qed.

Lemma hoare_composeTheme normalizeColor backgroundIsDark
    baseTheme themeProp background dir themeMode :
  hoare (inv h0)
        (composeTheme normalizeColor backgroundIsDark
                      baseTheme themeProp background dir themeMode)
        (fun nextTheme h => framed h0 h /\ isnew h0 nextTheme) (framed h0).
Proof.
  unfold composeTheme.
  eapply hoare_bind; [apply hoare_mergeTheme|].
  intros nextTheme. apply hoare_pure. intros Hnew.
  eapply hoare_bind; [by apply hoare_tentativeDark|]. intros themeBackground.
  apply framed_read; [apply readonly_call|]. intros color.
  apply framed_read; [apply readonly_call|]. intros isDark.
  do 2 (apply framed_write; [done|]).
  apply framed_read; [apply readonly_get_prop|]. intros baseBackground.
  apply framed_write; [done|].
  eapply hoare_bind.
  { destruct (truthy dir).
    - by apply framed_set_prop.
    - apply hoare_ret. intros s Hs. exact Hs. }
  intros []. apply hoare_ret. auto.
Qed.

End ThemeFrame.

(** * Device classification *)

Lemma test_Alt ic r1 r2 s :
  test ic (Alt r1 r2) s = test ic r1 s || test ic r2 s.
Proof.
  induction s as [|c s IH]; simpl.
  - by rewrite !orb_false_r.
  - rewrite IH.
    destruct (rmatch ic r1 (c :: s) _), (rmatch ic r2 (c :: s) _),
      (test ic r1 s), (test ic r2 s); reflexivity.
Qed.

Lemma test_mobilePattern s : test false mobilePattern s = mobileSignature s.
Proof. unfold mobilePattern, mobileSignature, contains. by rewrite !test_Alt. Qed.

(** A literal without line terminators is found in the input exactly when it
    is found in the input's first line. *)
Lemma strip_firstLine ic p : forall s,
  Forall (fun a => forall c, line_terminator c = true ->
                             unit_match ic a c = false) p ->
  is_Some (strip ic p s) <-> is_Some (strip ic p (firstLine s)).
Proof.
  induction p as [|a p IH]; intros s Hp.
  - destruct s; simpl; split; eauto.
  - inversion Hp as [|? ? Ha Hp']; subst.
    destruct s as [|c s]; simpl; [done|].
    destruct (line_terminator c) eqn:Hc; simpl.
    + rewrite (Ha c Hc). split; intros [? ?]; discriminate.
    + destruct (unit_match ic a c); [by apply IH | done].
Qed.

Lemma found_is_Some o : found o = true <-> is_Some o.
Proof.
  destruct o; simpl; split; intros H; eauto; try discriminate.
  destruct H; discriminate.
Qed.

Lemma rmatch_Lit ic p s :
  rmatch ic (Lit p) s (fun _ => true) = found (strip ic (units p) s).
Proof. simpl. by destruct (strip ic (units p) s). Qed.

Lemma dotstar_firstLine ic p s :
  Forall (fun a => forall c, line_terminator c = true ->
                             unit_match ic a c = false) (units p) ->
  units p <> [] ->
  dotstar (fun s' => rmatch ic (Lit p) s' (fun _ => true)) s
  = contains ic p (firstLine s).
Proof.
  intros Hp Hne. unfold contains.
  assert (Heq : forall t, found (strip ic (units p) t)
                          = found (strip ic (units p) (firstLine t))).
  { intros t. apply eq_true_iff_eq. rewrite !found_is_Some.
    by apply strip_firstLine. }
  induction s as [|c s IH].
  - simpl. by rewrite orb_false_r.
  - cbn [dotstar firstLine]. rewrite rmatch_Lit, Heq. cbn [firstLine].
    destruct (line_terminator c) eqn:Hc.
    + cbn [negb andb test]. by rewrite rmatch_Lit, !orb_false_r.
    + cbn [negb andb test]. by rewrite rmatch_Lit, IH.
Qed.

Lemma mobile_no_terminator :
  Forall (fun a => forall c, line_terminator c = true ->
                             unit_match true a c = false) (units "mobile").
Proof.
  repeat constructor; intros c Hc; unfold line_terminator in Hc;
    repeat (apply orb_prop in Hc as [Hc|Hc]); apply N.eqb_eq in Hc; by subst.
Qed.

Lemma test_android s :
  test true (Seq (Lit "android") (NotAhead (Seq DotStar (Lit "mobile")))) s
  = androidNotFollowed s.
Proof.
  assert (H : forall t,
    rmatch true (Seq (Lit "android") (NotAhead (Seq DotStar (Lit "mobile"))))
           t (fun _ => true)
    = match strip true (units "android") t with
      | Some rest => negb (contains true "mobile" (firstLine rest))
      | None => false
      end).
  { intros t. cbn [rmatch]. destruct (strip true (units "android") t); [|done].
    rewrite andb_true_r. f_equal.
    apply (dotstar_firstLine true "mobile");
      [apply mobile_no_terminator | done]. }
  induction s as [|c s IH].
  - cbn [test androidNotFollowed]. by rewrite H.
  - cbn [test androidNotFollowed]. by rewrite H, IH.
Qed.

Lemma test_tabletPattern s : test true tabletPattern s = tabletSignature s.
Proof.
  unfold tabletPattern, tabletSignature, contains.
  by rewrite !test_Alt, test_android.
Qed.

(** C2 (as amended).  Device classification is decided by first-match
    precedence over three buckets.  A non-empty user agent with a tablet
    signature -- "tablet", "ipad", "playbook" or "silk" in any case, or an
    "android" in any case that is not followed, later on the same line, by
    "mobile" in any case -- maps to the 'tablet' breakpoint; otherwise one
    with a mobile signature -- "Mobile", "iPhone" or "Android", in exactly
    this case -- maps to the 'phone' breakpoint; every other non-empty
    string maps to the 'computer' breakpoint; the empty string and an absent
    user agent give [undefined]. *)
Theorem deviceResponsive_first_match
    (getDeviceBreakpoint : heap -> string -> value -> value)
    (h : heap) (userAgent : option (list N)) (theme : value) :
  deviceResponsive getDeviceBreakpoint h userAgent theme =
  match userAgent with
  | Some (c :: ua) =>
      if tabletSignature (c :: ua) then getDeviceBreakpoint h "tablet" theme
      else if mobileSignature (c :: ua) then getDeviceBreakpoint h "phone" theme
      else getDeviceBreakpoint h "computer" theme
  | _ => VUndef
  end.
Proof.
  destruct userAgent as [[|c ua]|]; try reflexivity.
  unfold deviceResponsive. by rewrite test_tabletPattern, test_mobilePattern.
Qed.

(** C2 as stated fails: in "Mozilla/5.0 (Mobile; LYF/F90M; Android; rv:48.0)
    Gecko/48.0 Firefox/48.0 KAIOS/2.5" the word "Mobile" is present, so the
    string is not an "Android without a mobile token" and by the stated rule
    belongs to the mobile family; the code classifies it as a tablet,
    because no "mobile" comes after "Android". *)
Lemma deviceResponsive_mobile_before_android :
  class_value (classify_words (Some ua_mobile_android)) = VStr "phone" /\
  deviceResponsive deviceClass ∅ (Some ua_mobile_android) VUndef = VStr "tablet".
Proof. split; vm_compute; reflexivity. Qed.

(** C10.  The tablet pattern ignores case and the phone pattern does not: a
    non-empty user agent that matches none of the tablet patterns and
    contains neither "Mobile" nor "iPhone" nor "Android" in exactly this
    case -- it may contain "mobile" in lower case -- is given the 'computer'
    breakpoint, and its device class is 'computer', not 'phone'. *)
Theorem deviceResponsive_lowercase_mobile
    (getDeviceBreakpoint : heap -> string -> value -> value)
    (h : heap) (c : N) (ua : list N) (theme : value) :
  test true tabletPattern (c :: ua) = false ->
  contains false "Mobile" (c :: ua) = false ->
  contains false "iPhone" (c :: ua) = false ->
  contains false "Android" (c :: ua) = false ->
  deviceResponsive getDeviceBreakpoint h (Some (c :: ua)) theme
  = getDeviceBreakpoint h "computer" theme /\
  deviceResponsive deviceClass h (Some (c :: ua)) theme = VStr "computer" /\
  deviceResponsive deviceClass h (Some (c :: ua)) theme <> VStr "phone".
Proof.
  intros Ht Hm Hi Ha.
  assert (Hc : forall g, deviceResponsive g h (Some (c :: ua)) theme
                         = g h "computer" theme).
  { intros g. unfold deviceResponsive.
    rewrite Ht, test_mobilePattern. unfold mobileSignature.
    by rewrite Hm, Hi, Ha. }
  rewrite !Hc. repeat split. discriminate.
Qed.

Lemma deviceResponsive_lowercase_mobile_witness :
  contains true "mobile" ua_lowercase_mobile = true /\
  deviceResponsive deviceClass ∅ (Some ua_lowercase_mobile) VUndef
  = VStr "computer".
Proof.
  split; [reflexivity|].
  apply (deviceResponsive_lowercase_mobile deviceClass ∅ 77%N
           (units "ozilla/5.0 (X11; Linux x86_64) mobile safari") VUndef);
    reflexivity.
Defined.

(** * The published breakpoint *)

Lemma responsive_eq
    (getDeviceBreakpoint : heap -> string -> value -> value)
    (state : value) (userAgent : option (list N)) (theme : value) (h : heap) :
  responsive getDeviceBreakpoint state userAgent theme h
  = (if truthy state then (Ok state, h)
     else if truthy (deviceResponsive getDeviceBreakpoint h userAgent theme)
     then (Ok (deviceResponsive getDeviceBreakpoint h userAgent theme), h)
     else get_path theme ["global"; "deviceBreakpoints"; "tablet"] h).
Proof.
  unfold responsive, js_or, bind, ret. simpl.
  destruct (truthy state) eqn:Hs; simpl; [by rewrite Hs|].
  destruct (truthy (deviceResponsive _ h userAgent theme)) eqn:Hd; simpl;
    by rewrite ?Hd.
Qed.

(** C3.  The published breakpoint is the state value when the state is set;
    only when the state is unset is it the breakpoint inferred from the user
    agent, and only when that is undefined too is it the theme's 'tablet'
    device breakpoint.  Hence once a width measurement has set the state, a
    render publishes the measured breakpoint, whatever the user agent and the
    theme say.  ("Set" is the truthiness test of [||]: a breakpoint name is a
    non-empty string.) *)
Theorem responsive_precedence
    (getDeviceBreakpoint : heap -> string -> value -> value)
    (getBreakpoint : heap -> Z -> value -> value)
    (state : value) (userAgent : option (list N)) (theme : value) (h : heap) :
  let device := deviceResponsive getDeviceBreakpoint h userAgent theme in
  let fallback := get_path theme ["global"; "deviceBreakpoints"; "tablet"] h in
  let published := responsive getDeviceBreakpoint state userAgent theme h in
  (truthy state = true -> published = (Ok state, h)) /\
  (state = VUndef -> truthy device = true -> published = (Ok device, h)) /\
  (state = VUndef -> device = VUndef -> published = fallback) /\
  published = (if truthy state then (Ok state, h)
               else if truthy device then (Ok device, h)
               else fallback) /\
  (forall hm themem w d,
      document w = Some d ->
      truthy (getBreakpoint hm (clientWidth (body d)) themem) = true ->
      responsive getDeviceBreakpoint
        (stateResponsive (onResize getBreakpoint hm themem w).2)
        userAgent theme h
      = (Ok (getBreakpoint hm (clientWidth (body d)) themem), h)).
Proof.
  intros device fallback published.
  assert (Heq : published = (if truthy state then (Ok state, h)
                             else if truthy device then (Ok device, h)
                             else fallback)).
  { apply responsive_eq. }
  repeat split.
  - intros Hs. by rewrite Heq, Hs.
  - intros -> Hd. rewrite Heq. simpl. by rewrite Hd.
  - intros -> Hd. rewrite Heq. simpl. by rewrite Hd.
  - exact Heq.
  - intros hm themem w d Hdoc Hset.
    unfold onResize, bind, the_document, setResponsive. rewrite Hdoc. simpl.
    by rewrite responsive_eq, Hset.
Qed.

Lemma responsive_precedence_witness :
  truthy (sample_getBreakpoint ∅ 800 VUndef) = true /\
  responsive deviceClass
    (stateResponsive (onResize sample_getBreakpoint ∅ VUndef browser_800).2)
    (Some ua_mobile_android) VUndef ∅
  = (Ok (VStr "medium"), ∅).
Proof.
  split; [reflexivity|].
  exact (proj2 (proj2 (proj2 (proj2
           (responsive_precedence deviceClass sample_getBreakpoint VUndef
              (Some ua_mobile_android) VUndef ∅))))
           ∅ VUndef browser_800 _ eq_refl eq_refl).
Defined.

(** * Message composition *)


(** * The host environment *)

(** C7 (as amended).  When no global [document] exists, [containerTarget]
    defaults to [undefined]: that access is guarded by a [typeof] check.  The
    width measurement reads [document.body.clientWidth] and the listener
    registration and removal call [window] directly, without an existence
    check: run without these globals they raise a [ReferenceError] and leave
    the component state as it was; with both globals present the effect
    registers the listener, measures, sets the state and raises nothing. *)
Theorem environment_access (getBreakpoint : heap -> Z -> value -> value)
    (h : heap) (theme : value) (w : runtime) :
  (document w = None -> containerTarget w VUndef = VUndef) /\
  (document w = None ->
     onResize getBreakpoint h theme w = (Throw ReferenceError, w)) /\
  (window w = None ->
     resizeEffect getBreakpoint h theme w = (Throw ReferenceError, w) /\
     resizeCleanup theme w = (Throw ReferenceError, w)) /\
  (forall d x, document w = Some d -> window w = Some x ->
     resizeEffect getBreakpoint h theme w
     = (Ok tt,
        {| document := Some d;
           window := Some {| listeners := listeners x ++ [("resize", theme)] |};
           stateResponsive := getBreakpoint h (clientWidth (body d)) theme |})).
Proof.
  split; [|split; [|split]].
  - intros Hd. unfold containerTarget. by rewrite Hd.
  - intros Hd. unfold onResize, bind, the_document. by rewrite Hd.
  - intros Hw. split.
    + unfold resizeEffect, bind, the_window. by rewrite Hw.
    + unfold resizeCleanup, bind, the_window. by rewrite Hw.
  - intros d x Hd Hx.
    unfold resizeEffect, onResize, bind, the_window, the_document,
      set_listeners, setResponsive.
    rewrite Hx. simpl. by rewrite Hd.
Qed.

Lemma environment_access_witness :
  containerTarget no_globals VUndef = VUndef /\
  onResize sample_getBreakpoint ∅ VUndef no_globals
  = (Throw ReferenceError, no_globals) /\
  (resizeEffect sample_getBreakpoint ∅ VUndef browser_800).1 = Ok tt.
Proof.
  pose proof (environment_access sample_getBreakpoint ∅ VUndef no_globals)
    as (Hc & Hr & _).
  pose proof (environment_access sample_getBreakpoint ∅ VUndef browser_800)
    as (_ & _ & _ & Hb).
  split; [exact (Hc eq_refl)|]. split; [exact (Hr eq_refl)|].
  by rewrite (Hb _ _ eq_refl eq_refl).
Defined.

(** C7 as stated fails: without [document] and [window] the width
    measurement and the listener registration raise. *)
Lemma resize_without_globals_raises :
  onResize sample_getBreakpoint ∅ VUndef no_globals
  = (Throw ReferenceError, no_globals) /\
  resizeEffect sample_getBreakpoint ∅ VUndef no_globals
  = (Throw ReferenceError, no_globals).
Proof. split; reflexivity. Qed.

(** * Options *)

(** C9.  [defaultOptions] is one empty object made when the module is
    loaded.  Every render without an [options] prop publishes a reference
    to that one object: the same value, identical by reference, on every
    such render. *)
Theorem defaultOptions_shared (h : heap) :
  exists l,
    defaultOptions_init h = (Ok (VRef l), <[l := []]> h) /\
    h !! l = None /\
    forall prop1 prop2, prop1 = VUndef -> prop2 = VUndef ->
      options (VRef l) prop1 = VRef l /\
      options (VRef l) prop1 = options (VRef l) prop2.
Proof.
  exists (fresh (dom h)).
  split; [reflexivity|]. split; [apply not_elem_of_dom, is_fresh|].
  by intros prop1 prop2 -> ->.
Qed.

(** * Running the theme composition *)

Lemma bind_ok {S A B} (m : M S A) (k : A -> M S B) s a s' :
  m s = (Ok a, s') -> bind m k s = k a s'.
Proof. intros H. unfold bind. by rewrite H. Qed.

Lemma get_prop_ref (h : heap) l fs k :
  h !! l = Some fs -> get_prop (VRef l) k h = (Ok (obj_get k fs), h).
Proof. intros H. simpl. unfold bind, read_obj. by rewrite H. Qed.

Lemma set_prop_ref (h : heap) l fs k x :
  h !! l = Some fs ->
  set_prop (VRef l) k x h = (Ok tt, <[l := obj_set k x fs]> h).
Proof. intros H. simpl. by rewrite H. Qed.

Lemma delete_prop_ref (h : heap) l fs k :
  h !! l = Some fs ->
  delete_prop (VRef l) k h = (Ok tt, <[l := obj_delete k fs]> h).
Proof. intros H. simpl. by rewrite H. Qed.

(** A successful read returns in the store it started from. *)
Lemma get_prop_ok v k (h h' : heap) x :
  get_prop v k h = (Ok x, h') -> h' = h.
Proof.
  intros H. pose proof (readonly_get_prop v k h) as Hr.
  rewrite H in Hr. exact Hr.
Qed.

(** A read that returns something other than [undefined] read an object. *)
Lemma get_prop_defined v k (h h' : heap) x :
  get_prop v k h = (Ok x, h') -> x <> VUndef ->
  exists l fs, v = VRef l /\ h !! l = Some fs /\ x = obj_get k fs.
Proof.
  destruct v; simpl; unfold ret, throw; try (intros [= <- <-]; done);
    try discriminate.
  unfold bind, read_obj. destruct (h !! l) as [fs|] eqn:E; [|discriminate].
  intros [= <- <-] _. eauto.
Qed.

Lemma get_path_global v (h : heap) tb :
  get_path v ["global"; "colors"; "background"] h = (Ok tb, h) ->
  exists l fs g c,
    v = VRef l /\ h !! l = Some fs /\
    get_prop v "global" h = (Ok g, h) /\
    get_prop g "colors" h = (Ok c, h) /\
    get_prop c "background" h = (Ok tb, h).
Proof.
  simpl. unfold bind.
  destruct (get_prop v "global" h) as [[g|e] hg] eqn:Eg; [|discriminate].
  pose proof (get_prop_ok _ _ _ _ _ Eg) as ->.
  destruct (get_prop g "colors" h) as [[c|e] hc] eqn:Ec; [|discriminate].
  pose proof (get_prop_ok _ _ _ _ _ Ec) as ->.
  destruct (get_prop c "background" h) as [[b|e] hb] eqn:Eb; [|discriminate].
  pose proof (get_prop_ok _ _ _ _ _ Eb) as ->.
  intros [= ->].
  assert (Hg : g <> VUndef).
  { intros ->. simpl in Ec. discriminate. }
  destruct (get_prop_defined _ _ _ _ _ Eg Hg) as (l & fs & -> & Hl & _).
  exists l, fs, g, c. auto.
Qed.

Ltac step H := rewrite (bind_ok _ _ _ _ _ H); cbv beta.

Lemma tentativeDark_run themeMode (h1 : heap) l fs tb :
  h1 !! l = Some fs ->
  get_path (VRef l) ["global"; "colors"; "background"] h1 = (Ok tb, h1) ->
  tentativeDark (VRef l) themeMode h1
  = (Ok tb,
     <[l := obj_set "dark"
              (VBool (strict_eq (or_val themeMode (obj_get "defaultMode" fs))
                                (VStr "dark"))) fs]> h1).
Proof.
  intros Hl Hp.
  destruct (get_path_global _ _ _ Hp)
    as (l' & fs' & g & c & [= <-] & Hl' & Hg & Hc & Hb).
  unfold tentativeDark. step Hg. step Hc. step Hb.
  assert (Hmode : js_or (ret themeMode) (get_prop (VRef l) "defaultMode") h1
                  = (Ok (or_val themeMode (obj_get "defaultMode" fs)), h1)).
  { unfold js_or, or_val, bind, ret. simpl.
    destruct (truthy themeMode); [done|].
    unfold bind, read_obj. by rewrite Hl. }
  step Hmode. step (set_prop_ref _ _ _ "dark"
    (VBool (strict_eq (or_val themeMode (obj_get "defaultMode" fs))
                      (VStr "dark"))) Hl).
  reflexivity.
Qed.

Lemma composeTheme_run normalizeColor backgroundIsDark
    baseTheme themeProp background dir themeMode (h h1 : heap) l fs tb :
  mergeTheme baseTheme themeProp h = (Ok (VRef l), h1) ->
  h1 !! l = Some fs ->
  get_path (VRef l) ["global"; "colors"; "background"] h1 = (Ok tb, h1) ->
  composeTheme normalizeColor backgroundIsDark
    baseTheme themeProp background dir themeMode h
  = (Ok (VRef l),
     <[l := themeFields normalizeColor backgroundIsDark h1 l fs tb
              background dir themeMode]> h1).
Proof.
  intros Hm Hl Hp.
  unfold composeTheme. step Hm.
  step (tentativeDark_run themeMode _ _ _ _ Hl Hp).
  set (fs1 := obj_set "dark" _ fs).
  set (h2 := <[l := fs1]> h1).
  assert (Hl2 : h2 !! l = Some fs1) by apply lookup_insert_eq.
  unfold call at 1. unfold bind at 1. unfold call at 1. unfold bind at 1.
  set (isDark := backgroundIsDark h2 _ _).
  step (set_prop_ref _ _ _ "dark" isDark Hl2).
  set (fs2 := obj_set "dark" isDark fs1).
  assert (Hl3 : <[l := fs2]> h2 !! l = Some fs2) by apply lookup_insert_eq.
  step (set_prop_ref _ _ _ "baseBackground" (or_val background tb) Hl3).
  set (fs3 := obj_set "baseBackground" _ fs2).
  assert (Hl4 : <[l := fs3]> (<[l := fs2]> h2) !! l = Some fs3)
    by apply lookup_insert_eq.
  step (get_prop_ref _ _ _ "baseBackground" Hl4).
  step (set_prop_ref _ _ _ "background" (obj_get "baseBackground" fs3) Hl4).
  set (fs4 := obj_set "background" _ fs3).
  assert (Hl5 : <[l := fs4]> (<[l := fs3]> (<[l := fs2]> h2)) !! l = Some fs4)
    by apply lookup_insert_eq.
  unfold themeFields. fold fs1. fold h2. fold isDark. fold fs2. fold fs3.
  fold fs4.
  destruct (truthy dir).
  - step (set_prop_ref _ _ _ "dir" dir Hl5).
    unfold ret, h2. by rewrite !insert_insert_eq.
  - unfold bind, ret, h2. by rewrite !insert_insert_eq.
Qed.

Lemma themeFields_get normalizeColor backgroundIsDark (h1 : heap) l fs tb
    background dir themeMode :
  let fields := themeFields normalizeColor backgroundIsDark h1 l fs tb
                  background dir themeMode in
  let h2 := <[l := obj_set "dark"
                     (VBool (strict_eq
                               (or_val themeMode (obj_get "defaultMode" fs))
                               (VStr "dark"))) fs]> h1 in
  obj_get "baseBackground" fields = or_val background tb /\
  obj_get "background" fields = or_val background tb /\
  obj_get "dark" fields
  = backgroundIsDark h2 (normalizeColor h2 (or_val background tb) (VRef l))
      (VRef l).
Proof.
  intros fields h2. unfold fields, themeFields. fold h2.
  destruct (truthy dir);
    rewrite ?(obj_get_set_ne _ "dir") by discriminate;
    rewrite ?(obj_get_set_eq "background");
    rewrite ?(obj_get_set_ne _ "background") by discriminate;
    rewrite ?(obj_get_set_eq "baseBackground");
    rewrite ?(obj_get_set_ne _ "baseBackground") by discriminate;
    rewrite ?(obj_get_set_eq "dark"); done.
Qed.

Lemma composeTheme_fields normalizeColor backgroundIsDark
    baseTheme themeProp background dir themeMode (h h1 : heap) nextTheme tb :
  mergeTheme baseTheme themeProp h = (Ok nextTheme, h1) ->
  get_path nextTheme ["global"; "colors"; "background"] h1 = (Ok tb, h1) ->
  exists l fs,
    nextTheme = VRef l /\ h1 !! l = Some fs /\
    (tentativeDark nextTheme themeMode h1).2
    = <[l := obj_set "dark"
                (VBool (strict_eq (or_val themeMode (obj_get "defaultMode" fs))
                                  (VStr "dark"))) fs]> h1 /\
    forall k,
      field_of k (composeTheme normalizeColor backgroundIsDark baseTheme
                    themeProp background dir themeMode h)
      = Some (obj_get k (themeFields normalizeColor backgroundIsDark h1 l fs tb
                           background dir themeMode)).
Proof.
  intros Hm Hp.
  destruct (get_path_global _ _ _ Hp) as (l & fs & g & c & -> & Hl & _).
  exists l, fs. split; [done|]. split; [done|]. split.
  - by rewrite (tentativeDark_run themeMode _ _ _ _ Hl Hp).
  - intros k.
    rewrite (composeTheme_run normalizeColor backgroundIsDark _ _ background
               dir themeMode _ _ _ _ _ Hm Hl Hp).
    unfold field_of. by rewrite (get_prop_ref _ l _ k (lookup_insert_eq _ _ _)).
Qed.

(** C8.  In every composed theme, [baseBackground] and [background] are
    equal to each other and to the effective background: the [background]
    prop when one is supplied, else the background colour that the merged
    theme declares under [global.colors].  The composition returns whenever
    the merge of lines 76-89 does and the merged theme declares its global
    colours. *)
Theorem background_recorded normalizeColor backgroundIsDark
    (baseTheme themeProp background dir themeMode : value)
    (h h1 : heap) (nextTheme tb : value) :
  mergeTheme baseTheme themeProp h = (Ok nextTheme, h1) ->
  get_path nextTheme ["global"; "colors"; "background"] h1 = (Ok tb, h1) ->
  let composed := composeTheme normalizeColor backgroundIsDark baseTheme
                    themeProp background dir themeMode h in
  composed.1 = Ok nextTheme /\
  field_of "baseBackground" composed = Some (or_val background tb) /\
  field_of "background" composed = field_of "baseBackground" composed /\
  (truthy background = true -> or_val background tb = background) /\
  (background = VUndef -> or_val background tb = tb).
Proof.
  intros Hm Hp composed.
  destruct (composeTheme_fields normalizeColor backgroundIsDark _ _ background
              dir themeMode _ _ _ _ Hm Hp) as (l & fs & -> & Hl & _ & Hk).
  destruct (themeFields_get normalizeColor backgroundIsDark h1 l fs tb
              background dir themeMode) as (Hbb & Hbg & _).
  repeat split.
  - unfold composed.
    by rewrite (composeTheme_run normalizeColor backgroundIsDark _ _ background
                  dir themeMode _ _ _ _ _ Hm Hl Hp).
  - unfold composed. by rewrite Hk, Hbb.
  - unfold composed. by rewrite !Hk, Hbb, Hbg.
  - intros Ht. unfold or_val. by rewrite Ht.
  - by intros ->.
Qed.

(** C1 (as amended).  The mode prop only sets a tentative [dark] flag: it
    is [true] exactly when [themeMode], or with a falsy [themeMode] the
    [defaultMode] of the merged theme, is the string 'dark'.  Whenever a
    background prop is supplied, the final [dark] is what [backgroundIsDark]
    says of [normalizeColor] of that background, both handed the theme as it
    stands after line 94, tentative flag included; when the two helpers do
    not look at that flag the final [dark] is the same for every
    [themeMode].  For the background '#000000', which the helpers resolve to
    itself and classify as dark, [dark] is [true] for every [themeMode].
    With [themeMode] 'dark' and no background prop the tentative flag is
    [true] and the final one is computed, in the same way, from the
    background the merged theme declares. *)
Theorem dark_from_background normalizeColor backgroundIsDark
    (baseTheme themeProp dir : value) (h h1 : heap) (nextTheme tb : value) :
  mergeTheme baseTheme themeProp h = (Ok nextTheme, h1) ->
  get_path nextTheme ["global"; "colors"; "background"] h1 = (Ok tb, h1) ->
  let dark background themeMode :=
    field_of "dark" (composeTheme normalizeColor backgroundIsDark baseTheme
                       themeProp background dir themeMode h) in
  let h2 themeMode := (tentativeDark nextTheme themeMode h1).2 in
  (forall themeMode defaultMode,
     get_prop nextTheme "defaultMode" h1 = (Ok defaultMode, h1) ->
     get_prop nextTheme "dark" (h2 themeMode)
     = (Ok (VBool (strict_eq (or_val themeMode defaultMode) (VStr "dark"))),
        h2 themeMode)) /\
  (forall background themeMode, truthy background = true ->
     dark background themeMode
     = Some (backgroundIsDark (h2 themeMode)
               (normalizeColor (h2 themeMode) background nextTheme)
               nextTheme)) /\
  (ignores_dark normalizeColor -> ignores_dark backgroundIsDark ->
   forall background themeMode themeMode', truthy background = true ->
     dark background themeMode = dark background themeMode') /\
  (resolves_black normalizeColor -> black_is_dark backgroundIsDark ->
   forall themeMode, dark (VStr "#000000") themeMode = Some (VBool true)) /\
  (get_prop nextTheme "dark" (h2 (VStr "dark"))
   = (Ok (VBool true), h2 (VStr "dark")) /\
   dark VUndef (VStr "dark")
   = Some (backgroundIsDark (h2 (VStr "dark"))
             (normalizeColor (h2 (VStr "dark")) tb nextTheme) nextTheme)).
Proof.
  intros Hm Hp dark h2.
  assert (Hd : forall background themeMode,
    dark background themeMode
    = Some (backgroundIsDark (h2 themeMode)
              (normalizeColor (h2 themeMode) (or_val background tb) nextTheme)
              nextTheme)).
  { intros background themeMode. unfold dark, h2.
    destruct (composeTheme_fields normalizeColor backgroundIsDark _ _
                background dir themeMode _ _ _ _ Hm Hp)
      as (l & fs & -> & Hl & -> & Hk).
    rewrite Hk. f_equal. apply themeFields_get. }
  assert (Hor : forall background, truthy background = true ->
                                   or_val background tb = background).
  { intros background Ht. unfold or_val. by rewrite Ht. }
  assert (Hflag : forall themeMode defaultMode,
    get_prop nextTheme "defaultMode" h1 = (Ok defaultMode, h1) ->
    get_prop nextTheme "dark" (h2 themeMode)
    = (Ok (VBool (strict_eq (or_val themeMode defaultMode) (VStr "dark"))),
       h2 themeMode)).
  { intros themeMode defaultMode Hdm. unfold h2.
    destruct (composeTheme_fields normalizeColor backgroundIsDark _ _
                VUndef dir themeMode _ _ _ _ Hm Hp)
      as (l & fs & -> & Hl & -> & _).
    rewrite (get_prop_ref _ _ _ "defaultMode" Hl) in Hdm.
    injection Hdm as <-.
    rewrite (get_prop_ref _ l _ "dark" (lookup_insert_eq _ _ _)).
    by rewrite obj_get_set_eq. }
  split; [exact Hflag|]. split; [|split; [|split]].
  - intros background themeMode Ht. by rewrite Hd, Hor.
  - intros Hn Hb background themeMode themeMode' Ht.
    rewrite !Hd, Hor by done. unfold h2.
    destruct (composeTheme_fields normalizeColor backgroundIsDark _ _
                background dir themeMode _ _ _ _ Hm Hp)
      as (l & fs & -> & Hl & -> & _).
    destruct (composeTheme_fields normalizeColor backgroundIsDark _ _
                background dir themeMode' _ _ _ _ Hm Hp)
      as (l' & fs' & [= <-] & Hl' & -> & _).
    rewrite Hl in Hl'. injection Hl' as <-.
    by rewrite !(Hb _ _ _ _ _ Hl), !(Hn _ _ _ _ _ Hl).
  - intros Hn Hb themeMode. rewrite Hd. simpl.
    unfold resolves_black in Hn. unfold black_is_dark in Hb.
    by rewrite Hn, Hb.
  - split; [|by rewrite Hd].
    unfold h2.
    destruct (composeTheme_fields normalizeColor backgroundIsDark _ _
                VUndef dir (VStr "dark") _ _ _ _ Hm Hp)
      as (l & fs & -> & Hl & -> & _).
    rewrite (get_prop_ref _ l _ "dark" (lookup_insert_eq _ _ _)).
    by rewrite obj_get_set_eq.
Qed.

(** C1 as stated fails: the helpers are handed the theme that carries the
    tentative flag, so a resolver that reads it lets [themeMode] through.
    With the background prop [{dark: '#000000', light: '#ffffff'}] and a
    resolver that meets the contract on '#000000' and picks the variant for
    the theme's mode, the final [dark] is [true] for [themeMode] 'dark' and
    [false] for 'light'. *)
Lemma dark_follows_themeMode :
  resolves_black mode_normalizeColor /\
  black_is_dark sample_backgroundIsDark /\
  truthy (VRef 30) = true /\
  field_of "dark"
    (composeTheme mode_normalizeColor sample_backgroundIsDark
       (VRef 1) (VRef 10) (VRef 30) VUndef (VStr "dark") variant_store)
  = Some (VBool true) /\
  field_of "dark"
    (composeTheme mode_normalizeColor sample_backgroundIsDark
       (VRef 1) (VRef 10) (VRef 30) VUndef (VStr "light") variant_store)
  = Some (VBool false).
Proof.
  split; [by intros s t|]. split; [by intros s t|].
  split; [reflexivity|]. split; vm_compute; reflexivity.
Qed.

(** * The merge result agrees with the override *)

Lemma carries_mono (h h' : heap) o v :
  carries h o v -> h ⊆ h' -> carries h' o v.
Proof.
  intros H Hsub. induction H as [o Ho|lo lv fo fv Hlo Hlv Hk _ IH].
  - by constructor.
  - econstructor; eauto using lookup_weaken.
Qed.

Lemma deepCopy_grows n v (h : heap) : h ⊆ (deepCopy n v h).2.
Proof.
  pose proof (hoare_deepCopy h n v h (inv_init h)) as H.
  destruct (deepCopy n v h) as [[x|e] h']; simpl; apply H.
Qed.

Lemma deepMerge_depth_grows n b o (h : heap) :
  h ⊆ (deepMerge_depth n b o h).2.
Proof.
  pose proof (hoare_deepMerge_depth h n b o h (inv_init h)) as H.
  destruct (deepMerge_depth n b o h) as [[x|e] h']; simpl; apply H.
Qed.

Lemma mapM_Forall2 {A B} (f : A -> M heap B)
    (R : heap -> A -> B -> Prop) (xs : list A) :
  (forall x (h : heap) y h', f x h = (Ok y, h') -> R h' x y) ->
  (forall x (h : heap), h ⊆ (f x h).2) ->
  (forall (h h' : heap) x y, R h x y -> h ⊆ h' -> R h' x y) ->
  forall (h : heap) ys h',
    mapM f xs h = (Ok ys, h') -> Forall2 (R h') xs ys /\ h ⊆ h'.
Proof.
  intros Hf Hg Hmono. induction xs as [|x xs IH]; intros h ys h'; simpl.
  - intros [= <- <-]. split; [constructor | done].
  - unfold bind.
    destruct (f x h) as [[y|e] hy] eqn:Ey; [|discriminate].
    destruct (mapM f xs hy) as [[ys'|e] hys] eqn:Eys; [|discriminate].
    intros [= <- <-].
    destruct (IH _ _ _ Eys) as [HF Hsub].
    pose proof (Hg x h) as Hgx. rewrite Ey in Hgx. simpl in Hgx.
    split; [|by etrans].
    constructor; [|done]. eapply Hmono; [by eapply Hf | done].
Qed.

Lemma obj_get_has k fs : obj_get k fs <> VUndef -> obj_has k fs = true.
Proof.
  induction fs as [|[k' v] fs IH]; simpl; [done|].
  destruct (String.eqb k k'); [done | exact IH].
Qed.

Lemma obj_get_absent k fs : obj_has k fs = false -> obj_get k fs = VUndef.
Proof.
  induction fs as [|[k' v] fs IH]; simpl; [done|].
  by destruct (String.eqb k k').
Qed.

Lemma obj_has_app k fs gs : obj_has k (fs ++ gs) = obj_has k fs || obj_has k gs.
Proof.
  induction fs as [|[k' v] fs IH]; simpl; [done|].
  by rewrite IH, orb_assoc.
Qed.

Lemma obj_get_app k fs gs :
  obj_get k (fs ++ gs) = if obj_has k fs then obj_get k fs else obj_get k gs.
Proof.
  induction fs as [|[k' v] fs IH]; simpl; [done|].
  by destruct (String.eqb k k').
Qed.

Lemma obj_has_filter k fb fo :
  obj_has k fb = false ->
  obj_has k (List.filter (fun kv => negb (obj_has kv.1 fb)) fo) = obj_has k fo /\
  obj_get k (List.filter (fun kv => negb (obj_has kv.1 fb)) fo) = obj_get k fo.
Proof.
  intros Hk. induction fo as [|[k' v] fo [IH1 IH2]]; simpl; [done|].
  destruct (String.eqb k k') eqn:E.
  - apply String.eqb_eq in E. subst k'. rewrite Hk. simpl.
    by rewrite String.eqb_refl.
  - destruct (obj_has k' fb); simpl; rewrite ?E; done.
Qed.

Lemma field_rel_get (P : string -> value -> value -> Prop) fs fs' k :
  Forall2 (field_rel P) fs fs' ->
  obj_has k fs' = obj_has k fs /\
  (obj_has k fs = true -> P k (obj_get k fs) (obj_get k fs')).
Proof.
  induction 1 as [|[k1 v1] [k2 v2] fs fs' [Hk Hv] _ [IH1 IH2]]; simpl; [done|].
  simpl in Hk, Hv. subst k2.
  destruct (String.eqb k k1) eqn:E; simpl; [|done].
  apply String.eqb_eq in E. subst k1. auto.
Qed.

(** A copy carries what it was copied from. *)
Lemma deepCopy_carries n : forall v (h : heap) x h',
  deepCopy n v h = (Ok x, h') -> carries h' v x.
Proof.
  induction n as [|n IH]; intros v h x h'; destruct v; simpl;
    try (intros [= <- <-]; by constructor); try discriminate.
  unfold bind at 1. unfold read_obj.
  destruct (h !! l) as [fs|] eqn:Hl; [|discriminate].
  unfold bind at 1.
  destruct (mapM _ fs h) as [[fs'|e] hm] eqn:Em; [|discriminate].
  unfold alloc. intros [= <- <-].
  apply (mapM_Forall2 _ (fun s => field_rel (fun _ a b => carries s a b)))
    in Em as [HF Hsub].
  - assert (Hfr : hm !! fresh (dom hm) = None)
      by apply not_elem_of_dom, is_fresh.
    assert (Hsub' : hm ⊆ <[fresh (dom hm) := fs']> hm)
      by by apply insert_subseteq.
    apply (carries_obj _ l _ fs fs').
    + apply (lookup_weaken hm); [by apply (lookup_weaken h)|done].
    + apply lookup_insert_eq.
    + intros k Hk. destruct (field_rel_get _ _ _ k HF) as [-> _]. done.
    + intros k Hk. destruct (field_rel_get _ _ _ k HF) as [_ Hc].
      eapply carries_mono; eauto.
  - intros [k v] s [k' v'] s'. simpl. unfold bind.
    destruct (deepCopy n v s) as [[y|e] sy] eqn:Ey; [|discriminate].
    intros [= <- <- <-]. split; [done|]. simpl. by eapply IH.
  - intros [k v] s. simpl. unfold bind.
    pose proof (deepCopy_grows n v s) as Hg.
    destruct (deepCopy n v s) as [[y|e] sy]; exact Hg.
  - intros s s' kv kv' [Hk Hv] Hs. split; [done|]. by eapply carries_mono.
Qed.

Lemma copy_field_carries n kv (s : heap) kv' s' :
  (let! x := deepCopy n kv.2 in ret (kv.1, x)) s = (Ok kv', s') ->
  field_rel (fun _ a b => carries s' a b) kv kv'.
Proof.
  unfold bind.
  destruct (deepCopy n kv.2 s) as [[y|e] sy] eqn:Ey; [|discriminate].
  intros [= <- <-]. split; [done|]. simpl. by eapply deepCopy_carries.
Qed.

Lemma copy_field_grows n (kv : string * value) (s : heap) :
  s ⊆ ((let! x := deepCopy n kv.2 in ret (kv.1, x)) s).2.
Proof.
  unfold bind. pose proof (deepCopy_grows n kv.2 s) as Hg.
  destruct (deepCopy n kv.2 s) as [[y|e] sy]; exact Hg.
Qed.

(** A merge carries the override: it agrees with the override on every
    path present in the override. *)
Lemma deepMerge_depth_carries n : forall b o (h : heap) x h',
  deepMerge_depth n b o h = (Ok x, h') -> carries h' o x.
Proof.
  induction n as [|n IH]; intros b o h x h'.
  - destruct b, o; simpl; try (intros [= <- <-]; by constructor);
      discriminate.
  - destruct b as [| | | | |lb]; try apply (deepCopy_carries (S n));
      destruct o as [| | | | |lo]; try apply (deepCopy_carries (S n)).
    cbn [deepMerge_depth].
    unfold bind at 1. unfold read_obj at 1.
    destruct (h !! lb) as [fb|] eqn:Hlb; [|discriminate].
    unfold bind at 1. unfold read_obj at 1.
    destruct (h !! lo) as [fo|] eqn:Hlo; [|discriminate].
    unfold bind at 1.
    destruct (mapM _ fb h) as [[merged|e] hm] eqn:Em; [|discriminate].
    unfold bind at 1.
    destruct (mapM _ (List.filter _ fo) hm) as [[added|e] ha] eqn:Ea;
      [|discriminate].
    unfold alloc. intros [= <- <-].
    apply (mapM_Forall2 _
             (fun s => field_rel (fun k _ b =>
                obj_has k fo = true -> carries s (obj_get k fo) b)))
      in Em as [HFm Hsm].
    + apply (mapM_Forall2 _ (fun s => field_rel (fun _ a b => carries s a b)))
        in Ea as [HFa Hsa].
      * assert (Hsub' : ha ⊆ <[fresh (dom ha) := (merged ++ added)%list]> ha).
        { apply insert_subseteq, not_elem_of_dom, is_fresh. }
        assert (Hkey : forall k, obj_has k fo = true ->
          obj_has k (merged ++ added)%list = true /\
          carries ha (obj_get k fo) (obj_get k (merged ++ added)%list)).
        { intros k Hk. rewrite obj_has_app, obj_get_app.
          destruct (field_rel_get _ _ _ k HFm) as [Hhm Hcm].
          rewrite Hhm. destruct (obj_has k fb) eqn:Hkb.
          - split; [done|]. eapply carries_mono; [by apply Hcm | done].
          - destruct (obj_has_filter k fb fo Hkb) as [Hhf Hgf].
            destruct (field_rel_get _ _ _ k HFa) as [Hha Hca].
            rewrite Hhf in Hha, Hca. rewrite Hgf in Hca.
            by rewrite Hha, Hk; auto. }
        apply (carries_obj _ lo _ fo (merged ++ added)%list).
        -- apply (lookup_weaken ha); [|done].
           apply (lookup_weaken hm); [|done]. by apply (lookup_weaken h).
        -- apply lookup_insert_eq.
        -- intros k Hk. by apply Hkey.
        -- intros k Hk. eapply carries_mono; [by apply Hkey | done].
      * intros kv s kv' s'. apply copy_field_carries.
      * intros kv s. apply copy_field_grows.
      * intros s s' kv kv' [Hk Hv] Hs. split; [done|]. by eapply carries_mono.
    + intros [k v] s [k' v'] s'. simpl.
      destruct (obj_has k fo) eqn:Hk.
      * unfold bind.
        destruct (deepMerge_depth n v (obj_get k fo) s) as [[y|e] sy] eqn:Ey;
          [|discriminate].
        intros [= <- <- <-]. split; [done|]. simpl. intros _. by eapply IH.
      * unfold bind.
        destruct (deepCopy n v s) as [[y|e] sy] eqn:Ey; [|discriminate].
        intros [= <- <- <-]. split; [done|]. simpl. by rewrite Hk.
    + intros [k v] s. simpl. destruct (obj_has k fo).
      * unfold bind. pose proof (deepMerge_depth_grows n v (obj_get k fo) s) as Hg.
        destruct (deepMerge_depth n v (obj_get k fo) s) as [[y|e] sy]; exact Hg.
      * apply (copy_field_grows n (k, v)).
    + intros s s' kv kv' [Hk Hv] Hs. split; [done|].
      intros Hh. eapply carries_mono; eauto.
Qed.

Lemma deepMerge_carries b o (h : heap) x h' :
  deepMerge b o h = (Ok x, h') -> carries h' o x.
Proof. apply deepMerge_depth_carries. Qed.

Lemma deepMerge_grows b o (h : heap) : h ⊆ (deepMerge b o h).2.
Proof. apply deepMerge_depth_grows. Qed.

(** * Reading a path in a store that grew or changed elsewhere *)

Lemma get_prop_weaken v k (h h' : heap) x :
  h ⊆ h' -> get_prop v k h = (Ok x, h) -> get_prop v k h' = (Ok x, h').
Proof.
  intros Hsub. destruct v; simpl; unfold ret, throw;
    try (intros [= <-]; done); try discriminate.
  unfold bind, read_obj. destruct (h !! l) as [fs|] eqn:E; [|discriminate].
  intros [= <-]. by rewrite (lookup_weaken _ _ _ _ E Hsub).
Qed.

Lemma get_path_weaken ks : forall v (h h' : heap) x,
  h ⊆ h' -> get_path v ks h = (Ok x, h) -> get_path v ks h' = (Ok x, h').
Proof.
  induction ks as [|k ks IH]; intros v h h' x Hsub; simpl.
  - by intros [= <-].
  - unfold bind.
    destruct (get_prop v k h) as [[y|e] hy] eqn:Ey; [|discriminate].
    pose proof (get_prop_ok _ _ _ _ _ Ey) as ->.
    rewrite (get_prop_weaken _ _ _ _ _ Hsub Ey). by apply IH.
Qed.

(** Replacing the properties of one object by properties that agree with
    them on the keys of a path does not change what the path reads. *)
Lemma get_prop_insert (h : heap) l fs fs' k v x :
  h !! l = Some fs -> obj_get k fs' = obj_get k fs ->
  get_prop v k h = (Ok x, h) ->
  get_prop v k (<[l := fs']> h) = (Ok x, <[l := fs']> h).
Proof.
  intros Hl Hk. destruct v as [| | | | |l0]; simpl; unfold ret, throw;
    try (intros [= <-]; done); try discriminate.
  unfold bind, read_obj. destruct (h !! l0) as [fs0|] eqn:E; [|discriminate].
  intros [= <-]. destruct (decide (l = l0)) as [->|Hne].
  - rewrite lookup_insert_eq. rewrite Hl in E. injection E as <-.
    by rewrite Hk.
  - rewrite lookup_insert_ne by done. by rewrite E.
Qed.

Lemma get_path_insert (h : heap) l fs fs' ks :
  h !! l = Some fs ->
  Forall (fun k => obj_get k fs' = obj_get k fs) ks ->
  forall v x, get_path v ks h = (Ok x, h) ->
              get_path v ks (<[l := fs']> h) = (Ok x, <[l := fs']> h).
Proof.
  intros Hl. induction 1 as [|k ks Hk _ IH]; intros v x; simpl.
  - by intros [= <-].
  - unfold bind.
    destruct (get_prop v k h) as [[y|e] hy] eqn:Ey; [|discriminate].
    pose proof (get_prop_ok _ _ _ _ _ Ey) as ->.
    rewrite (get_prop_insert _ _ _ _ _ _ _ Hl Hk Ey). apply IH.
Qed.

Lemma get_path_snoc ks k : forall v (h : heap) x,
  get_path v ks h = (Ok x, h) ->
  get_path v (ks ++ [k]) h = get_prop x k h.
Proof.
  induction ks as [|k' ks IH]; intros v h x; simpl.
  - intros [= <-]. unfold bind. by destruct (get_prop v k h) as [[y|e] hy].
  - unfold bind.
    destruct (get_prop v k' h) as [[y|e] hy] eqn:Ey; [|discriminate].
    pose proof (get_prop_ok _ _ _ _ _ Ey) as ->. apply IH.
Qed.

Lemma get_path_snoc2 k1 k2 k3 v (h : heap) x :
  get_path v [k1; k2] h = (Ok x, h) ->
  get_path v [k1; k2; k3] h = get_prop x k3 h.
Proof. apply (get_path_snoc [k1; k2] k3). Qed.

Lemma js_and_truthy {S} (a b : M S value) s x s' :
  a s = (Ok x, s') -> truthy x = true -> js_and a b s = b s'.
Proof. intros Ha Hx. unfold js_and, bind. by rewrite Ha, Hx. Qed.

Lemma carries_ref (h : heap) lo v :
  carries h (VRef lo) v ->
  exists lv fo fv,
    v = VRef lv /\ h !! lo = Some fo /\ h !! lv = Some fv /\
    forall k, obj_has k fo = true ->
              obj_has k fv = true /\ carries h (obj_get k fo) (obj_get k fv).
Proof.
  intros H. inversion H as [o Ho|lo' lv fo fv Hlo Hlv Hk Hc]; subst.
  - destruct Ho.
  - exists lv, fo, fv. repeat split; auto.
Qed.

Lemma carries_falsy (h : heap) o v :
  carries h o v -> truthy o = false -> v = o.
Proof. by inversion 1. Qed.

(** * The menu alignment special case *)

Lemma get_path2 v k1 k2 (h : heap) l :
  get_path v [k1; k2] h = (Ok (VRef l), h) ->
  exists lv fv lm fm,
    v = VRef lv /\ h !! lv = Some fv /\ obj_get k1 fv = VRef lm /\
    h !! lm = Some fm /\ obj_get k2 fm = VRef l.
Proof.
  simpl. unfold bind.
  destruct (get_prop v k1 h) as [[m|e] hm] eqn:Em; [|discriminate].
  pose proof (get_prop_ok _ _ _ _ _ Em) as ->.
  destruct (get_prop m k2 h) as [[d|e] hd] eqn:Ed; [|discriminate].
  pose proof (get_prop_ok _ _ _ _ _ Ed) as ->.
  intros [= ->].
  destruct (get_prop_defined _ _ _ _ _ Ed) as (lm & fm & -> & Hlm & Hd); [done|].
  destruct (get_prop_defined _ _ _ _ _ Em) as (lv & fv & -> & Hlv & Hm); [done|].
  exists lv, fv, lm, fm. auto.
Qed.

Lemma get_path2_ref (h : heap) lv fv k1 lm fm k2 :
  h !! lv = Some fv -> obj_get k1 fv = VRef lm -> h !! lm = Some fm ->
  get_path (VRef lv) [k1; k2] h = (Ok (obj_get k2 fm), h).
Proof.
  intros Hlv Hm Hlm. cbn [get_path].
  step (get_prop_ref _ _ _ k1 Hlv). rewrite Hm.
  step (get_prop_ref _ _ _ k2 Hlm). reflexivity.
Qed.

(** When the override has an [align] key under [menu.drop], lines 76-89
    return whenever the merge does, the merged theme then reads the
    override's alignment value at [menu.drop.align], nothing that existed
    is changed, and a path without the key [align] reads what it read right
    after the merge. *)
Lemma mergeTheme_align baseTheme themeProp (h h1 : heap) nextTheme ld fd :
  deepMerge baseTheme themeProp h = (Ok nextTheme, h1) ->
  get_path themeProp ["menu"; "drop"] h = (Ok (VRef ld), h) ->
  h !! ld = Some fd ->
  obj_has "align" fd = true ->
  exists h2,
    mergeTheme baseTheme themeProp h = (Ok nextTheme, h2) /\
    get_path nextTheme ["menu"; "drop"; "align"] h2
    = (Ok (obj_get "align" fd), h2) /\
    forall ks, Forall (fun k => k <> "align") ks ->
      forall v x, get_path v ks h1 = (Ok x, h1) ->
                  get_path v ks h2 = (Ok x, h2).
Proof.
  intros Hm Hp Hld Halign.
  destruct (get_path2 _ _ _ _ _ Hp) as (lt & ft & lm & fm & -> & Hlt & Hmenu & Hlm & Hdrop).
  pose proof (deepMerge_grows baseTheme (VRef lt) h) as Hsub.
  rewrite Hm in Hsub. simpl in Hsub.
  pose proof (hoare_deepMerge h baseTheme (VRef lt) h (inv_init h)) as Hinv.
  rewrite Hm in Hinv. destruct Hinv as [[_ Hclosed] Hnew].
  (* the merged theme has menu.drop, and its align carries the override's *)
  destruct (carries_ref _ _ _ (deepMerge_carries _ _ _ _ _ Hm))
    as (ln & ft' & fn & -> & Hlt1 & Hln & Hkn).
  rewrite (lookup_weaken _ _ _ _ Hlt Hsub) in Hlt1. injection Hlt1 as <-.
  destruct (Hkn "menu") as [_ Hcm]; [apply obj_get_has; by rewrite Hmenu|].
  rewrite Hmenu in Hcm.
  destruct (carries_ref _ _ _ Hcm) as (lm' & fm0 & fm' & Hmenu' & Hlm1 & Hlm' & Hkm).
  rewrite (lookup_weaken _ _ _ _ Hlm Hsub) in Hlm1. injection Hlm1 as <-.
  destruct (Hkm "drop") as [_ Hcd]; [apply obj_get_has; by rewrite Hdrop|].
  rewrite Hdrop in Hcd.
  destruct (carries_ref _ _ _ Hcd) as (ld' & fd0 & fd' & Hdrop' & Hld1 & Hld' & Hkd).
  rewrite (lookup_weaken _ _ _ _ Hld Hsub) in Hld1. injection Hld1 as <-.
  destruct (Hkd "align" Halign) as [_ Hca].
  (* menu.drop of the merged theme is an object made by the merge *)
  assert (Hnewd : h !! ld' = None).
  { simpl in Hnew.
    pose proof (obj_get_Forall (isnew h) "menu" fn I (Hclosed _ _ Hln Hnew)) as H1.
    rewrite Hmenu' in H1. simpl in H1.
    pose proof (obj_get_Forall (isnew h) "drop" fm' I (Hclosed _ _ Hlm' H1)) as H2.
    by rewrite Hdrop' in H2. }
  (* what the override reads, in the store after the merge *)
  pose proof (lookup_weaken _ _ _ _ Hlt Hsub) as Hlt1.
  pose proof (lookup_weaken _ _ _ _ Hlm Hsub) as Hlm1.
  pose proof (lookup_weaken _ _ _ _ Hld Hsub) as Hld1.
  assert (Hg1 : get_path (VRef lt) ["menu"] h1 = (Ok (VRef lm), h1)).
  { cbn [get_path]. step (get_prop_ref _ _ _ "menu" Hlt1). by rewrite Hmenu. }
  assert (Hg2 : get_path (VRef lt) ["menu"; "drop"] h1 = (Ok (VRef ld), h1)).
  { rewrite (get_path2_ref _ _ _ _ _ _ "drop" Hlt1 Hmenu Hlm1). by rewrite Hdrop. }
  assert (Hg3 : get_path (VRef lt) ["menu"; "drop"; "align"] h
                = (Ok (obj_get "align" fd), h)).
  { rewrite (get_path_snoc2 "menu" "drop" "align" _ _ _ Hp).
    apply (get_prop_ref _ _ _ _ Hld). }
  assert (Hguard : menuDropAlign (VRef lt) h1 = (Ok (obj_get "align" fd), h1)).
  { unfold menuDropAlign.
    assert (Ha1 : js_and (ret (VRef lt)) (get_path (VRef lt) ["menu"]) h1
                  = (Ok (VRef lm), h1)).
    { by rewrite (js_and_truthy _ _ h1 (VRef lt) h1). }
    assert (Ha2 : js_and (js_and (ret (VRef lt)) (get_path (VRef lt) ["menu"]))
                         (get_path (VRef lt) ["menu"; "drop"]) h1
                  = (Ok (VRef ld), h1)).
    { by rewrite (js_and_truthy _ _ h1 (VRef lm) h1 Ha1). }
    rewrite (js_and_truthy _ _ h1 (VRef ld) h1 Ha2) by done.
    by apply (get_path_weaken _ _ _ _ _ Hsub Hg3). }
  assert (Hn2 : get_path (VRef ln) ["menu"; "drop"] h1 = (Ok (VRef ld'), h1)).
  { rewrite (get_path2_ref _ _ _ _ _ _ "drop" Hln Hmenu' Hlm'). by rewrite Hdrop'. }
  unfold mergeTheme.
  assert (Hov : js_or (ret (VRef lt)) (alloc []) h = (Ok (VRef lt), h)) by done.
  step Hov. step Hm. step Hguard.
  destruct (truthy (obj_get "align" fd)) eqn:Hy.
  - (* the special case runs *)
    set (fd1 := obj_delete "align" fd').
    set (fd2 := obj_set "align" (obj_get "align" fd) fd1).
    assert (Hkeep1 : forall ks, Forall (fun k => k <> "align") ks ->
              Forall (fun k => obj_get k fd1 = obj_get k fd') ks).
    { intros ks Hks. eapply Forall_impl; [exact Hks|]. intros k Hk.
      by apply obj_get_delete_ne. }
    assert (Hkeep2 : forall ks, Forall (fun k => k <> "align") ks ->
              Forall (fun k => obj_get k fd2 = obj_get k fd') ks).
    { intros ks Hks. eapply Forall_impl; [exact Hks|]. intros k Hk.
      unfold fd2, fd1.
      rewrite obj_get_set_ne by done. by apply obj_get_delete_ne. }
    assert (Hh2 : <[ld' := fd2]> (<[ld' := fd1]> h1) = <[ld' := fd2]> h1)
      by apply insert_insert_eq.
    exists (<[ld' := fd2]> h1). split; [|split].
    + assert (Hfix :
        (let! drop := get_path (VRef ln) ["menu"; "drop"] in
         run! delete_prop drop "align" in
         let! drop' := get_path (VRef ln) ["menu"; "drop"] in
         let! align := get_path (VRef lt) ["menu"; "drop"; "align"] in
         set_prop drop' "align" align) h1 = (Ok tt, <[ld' := fd2]> h1)).
      { step Hn2. step (delete_prop_ref _ _ _ "align" Hld'). fold fd1.
        assert (Hn3 : get_path (VRef ln) ["menu"; "drop"] (<[ld' := fd1]> h1)
                      = (Ok (VRef ld'), <[ld' := fd1]> h1)).
        { apply (get_path_insert _ _ _ _ _ Hld'); [|exact Hn2].
          apply Hkeep1. repeat constructor; discriminate. }
        step Hn3.
        assert (Hsub1 : h ⊆ <[ld' := fd1]> h1) by by apply insert_subseteq_r.
        step (get_path_weaken _ _ _ _ _ Hsub1 Hg3).
        assert (Hl1 : <[ld' := fd1]> h1 !! ld' = Some fd1)
          by apply lookup_insert_eq.
        rewrite (set_prop_ref _ _ _ "align" (obj_get "align" fd) Hl1).
        fold fd2. by rewrite Hh2. }
      by step Hfix.
    + assert (Hn4 : get_path (VRef ln) ["menu"; "drop"] (<[ld' := fd2]> h1)
                    = (Ok (VRef ld'), <[ld' := fd2]> h1)).
      { apply (get_path_insert _ _ _ _ _ Hld'); [|exact Hn2].
        apply Hkeep2. repeat constructor; discriminate. }
      rewrite (get_path_snoc2 "menu" "drop" "align" _ _ _ Hn4).
      rewrite (get_prop_ref _ ld' fd2 "align" (lookup_insert_eq _ _ _)).
      unfold fd2. by rewrite obj_get_set_eq.
    + intros ks Hks v x. apply (get_path_insert _ _ _ _ _ Hld').
      by apply Hkeep2.
  - (* the override's alignment is falsy: the merge already took it *)
    exists h1. split; [|split].
    + reflexivity.
    + rewrite (get_path_snoc2 "menu" "drop" "align" _ _ _ Hn2).
      rewrite (get_prop_ref _ _ _ "align" Hld').
      by rewrite (carries_falsy _ _ _ Hca Hy).
    + auto.
Qed.

Lemma themeFields_other normalizeColor backgroundIsDark (h1 : heap) l fs tb
    background dir themeMode k :
  k <> "dark" -> k <> "baseBackground" -> k <> "background" -> k <> "dir" ->
  obj_get k (themeFields normalizeColor backgroundIsDark h1 l fs tb
               background dir themeMode) = obj_get k fs.
Proof.
  intros H1 H2 H3 H4. unfold themeFields.
  destruct (truthy dir); by rewrite !obj_get_set_ne.
Qed.

(** C4.  When the theme override supplies a menu-drop alignment (its
    [menu.drop] has an [align] key), the composed theme's [menu.drop.align]
    is the override's alignment value itself: for an object, a reference to
    the override's own alignment object, whose properties are those the
    override gave it, with nothing of the base alignment merged in.  This
    holds for every base theme; the composition returns whenever the deep
    merge does and the merged theme declares its global colours. *)
Theorem menu_align_override normalizeColor backgroundIsDark
    (baseTheme themeProp background dir themeMode : value)
    (h h1 : heap) (nextTheme : value) ld fd (tb : value) :
  deepMerge baseTheme themeProp h = (Ok nextTheme, h1) ->
  get_path themeProp ["menu"; "drop"] h = (Ok (VRef ld), h) ->
  h !! ld = Some fd ->
  obj_has "align" fd = true ->
  get_path nextTheme ["global"; "colors"; "background"] h1 = (Ok tb, h1) ->
  exists h',
    composeTheme normalizeColor backgroundIsDark baseTheme themeProp
      background dir themeMode h = (Ok nextTheme, h') /\
    get_path nextTheme ["menu"; "drop"; "align"] h'
    = (Ok (obj_get "align" fd), h') /\
    get_path themeProp ["menu"; "drop"; "align"] h'
    = (Ok (obj_get "align" fd), h') /\
    forall la fa, obj_get "align" fd = VRef la -> h !! la = Some fa ->
                  h' !! la = Some fa.
Proof.
  intros Hm Hp Hld Halign Hglobal.
  destruct (mergeTheme_align _ _ _ _ _ _ _ Hm Hp Hld Halign)
    as (h2 & Hmt & Hread & Hkeep).
  assert (Hglobal2 : get_path nextTheme ["global"; "colors"; "background"] h2
                     = (Ok tb, h2)).
  { apply Hkeep; [|exact Hglobal]. repeat constructor; discriminate. }
  destruct (get_path_global _ _ _ Hglobal2) as (l & fs & g & c & -> & Hl & _).
  pose proof (composeTheme_run normalizeColor backgroundIsDark _ _ background
                dir themeMode _ _ _ _ _ Hmt Hl Hglobal2) as Hrun.
  pose proof (hoare_composeTheme h normalizeColor backgroundIsDark baseTheme
                themeProp background dir themeMode h (inv_init h)) as Hframe.
  rewrite Hrun in Hframe. destruct Hframe as [Hframe _].
  eexists. split; [exact Hrun|]. split; [|split].
  - apply (get_path_insert _ _ _ _ _ Hl); [|exact Hread].
    repeat constructor; apply themeFields_other; discriminate.
  - apply (get_path_weaken _ _ h); [exact Hframe|].
    rewrite (get_path_snoc2 "menu" "drop" "align" _ _ _ Hp).
    apply (get_prop_ref _ _ _ _ Hld).
  - intros la fa _ Hla. by apply (lookup_weaken _ _ _ _ Hla Hframe).
Qed.

(** * The merge returns on finite structures *)

Lemma finite_prim (h : heap) n v : isprim v -> finite h n v = true.
Proof. by destruct n, v. Qed.

Lemma finite_mono_depth (h : heap) n : forall m v,
  finite h n v = true -> n <= m -> finite h m v = true.
Proof.
  induction n as [|n IH]; intros m v; destruct v;
    try (intros; by apply finite_prim); simpl; try done.
  destruct m as [|m]; [lia|]. simpl.
  destruct (h !! l) as [fs|]; [|done].
  rewrite !forallb_forall. intros Hfs Hle kv Hin.
  apply IH; [by apply Hfs | lia].
Qed.

Lemma finite_mono_heap (h h' : heap) n : forall v,
  finite h n v = true -> h ⊆ h' -> finite h' n v = true.
Proof.
  induction n as [|n IH]; intros v; destruct v; simpl; try done.
  destruct (h !! l) as [fs|] eqn:Hl; [|done]. intros Hfs Hsub.
  rewrite (lookup_weaken _ _ _ _ Hl Hsub).
  rewrite forallb_forall in *. intros kv Hin. apply IH; auto.
Qed.

(** A structure that is finite at a depth at which the object [l] is not
    does not contain [l]. *)
Lemma finite_delete (h : heap) l n : forall v,
  finite h n v = true -> finite h n (VRef l) = false ->
  finite (delete l h) n v = true.
Proof.
  induction n as [|n IH]; intros v; destruct v as [| | | | |l']; simpl;
    try done.
  destruct (h !! l') as [fs|] eqn:Hl'; [|done]. intros Hfs Hl.
  assert (Hne : l <> l').
  { intros ->. rewrite Hl' in Hl. congruence. }
  rewrite lookup_delete_ne by done. rewrite Hl'.
  rewrite forallb_forall in *. intros kv Hin. apply IH; [by apply Hfs|].
  destruct (finite h n (VRef l)) eqn:E; [|done].
  apply (finite_mono_depth _ _ (S n)) in E; [|lia]. simpl in E. congruence.
Qed.

(** A finite structure is no deeper than the store has objects. *)
Lemma finite_bound n : forall (h : heap) v,
  finite h n v = true -> finite h (S (size h)) v = true.
Proof.
  induction n as [|n IH]; intros h v; destruct v as [| | | | |l]; try done.
  intros Hv. destruct (finite h n (VRef l)) eqn:E; [by apply IH|].
  simpl in Hv. simpl. destruct (h !! l) as [fs|] eqn:Hl; [|done].
  assert (Hsize : size h = S (size (delete l h))).
  { rewrite <- (insert_delete_id h l fs) at 1 by done.
    apply map_size_insert_None, lookup_delete_eq. }
  rewrite forallb_forall in *. intros kv Hin.
  rewrite Hsize.
  apply (finite_mono_heap (delete l h)); [|apply delete_subseteq].
  apply IH. apply finite_delete; [by apply Hv | exact E].
Qed.

Lemma mapM_returns {A B} (h0 : heap) (f : A -> M heap B) (xs : list A) :
  Forall (fun x => forall h : heap, h0 ⊆ h ->
                   exists y h', f x h = (Ok y, h')) xs ->
  (forall x (h : heap), h ⊆ (f x h).2) ->
  forall h : heap, h0 ⊆ h ->
    exists ys h', mapM f xs h = (Ok ys, h') /\ h ⊆ h'.
Proof.
  intros Hxs Hg. induction Hxs as [|x xs Hx _ IH]; intros h Hsub; simpl.
  - by exists [], h.
  - destruct (Hx h Hsub) as (y & hy & Ey).
    pose proof (Hg x h) as Hgx. rewrite Ey in Hgx. simpl in Hgx.
    destruct (IH hy) as (ys & h' & Eys & Hsub'); [by etrans|].
    exists (y :: ys), h'. unfold bind. rewrite Ey, Eys. split; [done|].
    by etrans.
Qed.

Lemma copy_field_returns n (h0 : heap) (kv : string * value) :
  (forall h : heap, h0 ⊆ h -> exists x h', deepCopy n kv.2 h = (Ok x, h')) ->
  forall h : heap, h0 ⊆ h ->
    exists y h', (let! x := deepCopy n kv.2 in ret (kv.1, x)) h = (Ok y, h').
Proof.
  intros Hc h Hsub. destruct (Hc h Hsub) as (x & h' & E).
  exists (kv.1, x), h'. unfold bind. by rewrite E.
Qed.

Lemma deepCopy_returns n : forall (h0 : heap) v,
  finite h0 n v = true ->
  forall h : heap, h0 ⊆ h -> exists x h', deepCopy n v h = (Ok x, h').
Proof.
  induction n as [|n IH]; intros h0 v; destruct v as [| | | | |l]; simpl;
    try (intros _ h _; eexists _, h; reflexivity); try done.
  destruct (h0 !! l) as [fs|] eqn:Hl; [|done]. intros Hfs h Hsub.
  rewrite forallb_forall in Hfs.
  destruct (mapM_returns h0
              (fun kv => let! x := deepCopy n kv.2 in ret (kv.1, x)) fs)
    with (h := h) as (fs' & h' & Em & _).
  - apply Forall_forall. intros kv Hin. apply copy_field_returns.
    apply IH, Hfs. by apply list_elem_of_In.
  - intros kv s. apply copy_field_grows.
  - done.
  - unfold bind at 1. unfold read_obj.
    rewrite (lookup_weaken _ _ _ _ Hl Hsub).
    unfold bind at 1. rewrite Em. unfold alloc. eauto.
Qed.

Lemma obj_get_finite (h : heap) n k fs :
  forallb (fun kv => finite h n kv.2) fs = true ->
  finite h n (obj_get k fs) = true.
Proof.
  induction fs as [|[k' v] fs IH]; simpl; [intros; by apply finite_prim|].
  intros [Hv Hfs]%andb_prop. destruct (String.eqb k k'); auto.
Qed.

Lemma deepMerge_depth_returns n : forall (h0 : heap) b o,
  finite h0 n b = true -> finite h0 n o = true ->
  forall h : heap, h0 ⊆ h ->
    exists x h', deepMerge_depth n b o h = (Ok x, h').
Proof.
  induction n as [|n IH]; intros h0 b o Hb Ho.
  - destruct b, o; try done; intros h _; eexists _, h; reflexivity.
  - destruct b as [| | | | |lb]; try apply (deepCopy_returns (S n) h0 o Ho);
      destruct o as [| | | | |lo];
      try (intros h _; eexists _, h; reflexivity).
    simpl in Hb, Ho.
    destruct (h0 !! lb) as [fb|] eqn:Hlb; [|done].
    destruct (h0 !! lo) as [fo|] eqn:Hlo; [|done].
    intros h Hsub. cbn [deepMerge_depth].
    unfold bind at 1. unfold read_obj at 1.
    rewrite (lookup_weaken _ _ _ _ Hlb Hsub).
    unfold bind at 1. unfold read_obj at 1.
    rewrite (lookup_weaken _ _ _ _ Hlo Hsub).
    pose proof Hb as Hb'. pose proof Ho as Ho'.
    rewrite forallb_forall in Hb', Ho'.
    pose (fm := fun kv : string * value =>
      if obj_has kv.1 fo
      then let! x := deepMerge_depth n kv.2 (obj_get kv.1 fo) in ret (kv.1, x)
      else let! x := deepCopy n kv.2 in ret (kv.1, x)).
    assert (Hm : exists merged hm, mapM fm fb h = (Ok merged, hm) /\ h ⊆ hm).
    { apply (mapM_returns h0 fm fb); [| |exact Hsub].
      - apply Forall_forall. intros kv Hin%list_elem_of_In s Hs.
        unfold fm. destruct (obj_has kv.1 fo).
        + destruct (IH h0 kv.2 (obj_get kv.1 fo)) with (h := s)
            as (x & s' & E);
            [by apply Hb' | by apply obj_get_finite | done |].
          exists (kv.1, x), s'. unfold bind. by rewrite E.
        + apply (copy_field_returns n h0 kv); [|done].
          apply deepCopy_returns. by apply Hb'.
      - intros kv s. unfold fm. destruct (obj_has kv.1 fo).
        + unfold bind.
          pose proof (deepMerge_depth_grows n kv.2 (obj_get kv.1 fo) s) as Hg.
          destruct (deepMerge_depth n kv.2 (obj_get kv.1 fo) s)
            as [[y|e] sy]; exact Hg.
        + apply copy_field_grows. }
    destruct Hm as (merged & hm & Em & Hsm). unfold fm in Em.
    unfold bind at 1. rewrite Em.
    pose (fa := fun kv : string * value =>
                  let! x := deepCopy n kv.2 in ret (kv.1, x)).
    assert (Ha : exists added ha,
      mapM fa (List.filter (fun kv : string * value =>
                              negb (obj_has kv.1 fb)) fo) hm
      = (Ok added, ha) /\ hm ⊆ ha).
    { apply (mapM_returns h0 fa); [| |by etrans].
      - apply Forall_forall. intros kv Hin%list_elem_of_In.
        apply filter_In in Hin as [Hin _].
        apply copy_field_returns, deepCopy_returns. by apply Ho'.
      - intros kv s. apply copy_field_grows. }
    destruct Ha as (added & ha & Ea & _). unfold fa in Ea.
    unfold bind at 1. rewrite Ea. unfold alloc. eauto.
Qed.

(** [deepMerge] returns whenever the base and the override are finite
    structures of the store. *)
Lemma deepMerge_returns (h : heap) n m b o :
  finite h n b = true -> finite h m o = true ->
  exists x h', deepMerge b o h = (Ok x, h').
Proof.
  intros Hb Ho. unfold deepMerge.
  apply (deepMerge_depth_returns (S (size h)) h);
    eauto using finite_bound.
Qed.

(** * Lines 76-89 return on finite structures *)

Lemma stable_ret {A} (a : A) : stable (ret a).
Proof. by intros h h' x [= <-] _. Qed.

Lemma stable_get_path v ks : stable (get_path v ks).
Proof. intros h h' x H Hsub. by apply (get_path_weaken ks v h). Qed.

Lemma stable_js_and (a b : M heap value) :
  readonly a -> stable a -> stable b -> stable (js_and a b).
Proof.
  intros Hr Ha Hb h h' x H Hsub. unfold js_and, bind in *.
  pose proof (Hr h) as Hrh.
  destruct (a h) as [[y|e] hy] eqn:Ey; [|discriminate].
  simpl in Hrh. subst hy. rewrite (Ha _ _ _ Ey Hsub).
  destruct (truthy y).
  - exact (Hb h h' x H Hsub).
  - injection H as <-. reflexivity.
Qed.

Lemma stable_menuDropAlign themeProp : stable (menuDropAlign themeProp).
Proof.
  unfold menuDropAlign.
  repeat (apply stable_js_and;
          [repeat apply readonly_js_and; try apply readonly_get_path; done
          | | apply stable_get_path]).
  apply stable_ret.
Qed.

Lemma finite_ref (h : heap) n l :
  finite h n (VRef l) = true ->
  exists n' fs, n = S n' /\ h !! l = Some fs /\
                forall k, finite h n' (obj_get k fs) = true.
Proof.
  destruct n as [|n']; simpl; [done|].
  destruct (h !! l) as [fs|]; [|done]. intros Hfs.
  exists n', fs. repeat split. intros k. by apply obj_get_finite.
Qed.

Lemma js_and_falsy {S} (a b : M S value) s x s' :
  a s = (Ok x, s') -> truthy x = false -> js_and a b s = (Ok x, s').
Proof. intros Ha Hx. unfold js_and, bind. by rewrite Ha, Hx. Qed.

(** One more [&& themeProp.k1...k] of the guard: it is truthy only if the
    path so far led to an object, and then it is that object's [k]. *)
Lemma guard_chain (h : heap) themeProp ks k n (a : M heap value) x :
  a h = (Ok x, h) ->
  (truthy x = true ->
   get_path themeProp ks h = (Ok x, h) /\ finite h n x = true) ->
  exists x',
    js_and a (get_path themeProp (ks ++ [k])) h = (Ok x', h) /\
    (truthy x' = true ->
     get_path themeProp (ks ++ [k]) h = (Ok x', h) /\
     finite h (pred n) x' = true /\
     exists l fs, x = VRef l /\ h !! l = Some fs /\ x' = obj_get k fs).
Proof.
  intros Ha Hx. destruct (truthy x) eqn:Htruthy.
  - destruct (Hx eq_refl) as [Hpath Hfin].
    rewrite (js_and_truthy _ _ _ _ _ Ha Htruthy).
    rewrite (get_path_snoc ks k _ _ _ Hpath).
    destruct x as [| |b|z|s|l]; try discriminate;
      try (exists VUndef; split; [reflexivity | done]).
    destruct (finite_ref _ _ _ Hfin) as (n' & fs & -> & Hl & Hfs).
    exists (obj_get k fs). split; [by apply get_prop_ref|].
    intros _. split; [by apply get_prop_ref|]. split; [apply Hfs|].
    by exists l, fs.
  - exists x. split; [by apply js_and_falsy|]. congruence.
Qed.

(** In a finite override the guard of lines 81-86 evaluates, and it is
    truthy only if [menu.drop] is an object with an [align] key. *)
Lemma menuDropAlign_returns (h : heap) n themeProp :
  finite h n themeProp = true ->
  exists guard,
    menuDropAlign themeProp h = (Ok guard, h) /\
    (truthy guard = true ->
     exists ld fd,
       get_path themeProp ["menu"; "drop"] h = (Ok (VRef ld), h) /\
       h !! ld = Some fd /\ obj_has "align" fd = true).
Proof.
  intros Hf. unfold menuDropAlign.
  destruct (guard_chain h themeProp [] "menu" n (ret themeProp) themeProp)
    as (x1 & H1 & Hx1); [done | done |].
  destruct (guard_chain h themeProp ["menu"] "drop" (pred n) _ x1 H1)
    as (x2 & H2 & Hx2); [intros Ht; by destruct (Hx1 Ht) as (? & ? & _)|].
  destruct (guard_chain h themeProp ["menu"; "drop"] "align" (pred (pred n))
              _ x2 H2)
    as (x3 & H3 & Hx3); [intros Ht; by destruct (Hx2 Ht) as (? & ? & _)|].
  exists x3. split; [exact H3|]. intros Ht.
  destruct (Hx3 Ht) as (_ & _ & ld & fd & -> & Hld & ->).
  destruct (Hx2 eq_refl) as (Hp & _).
  exists ld, fd. split; [exact Hp|]. split; [exact Hld|].
  apply obj_get_has. intros E. by rewrite E in Ht.
Qed.

(** The merge of lines 76-89 returns for every finite base theme and every
    finite theme override. *)
Lemma mergeTheme_returns (h : heap) n m baseTheme themeProp :
  finite h n baseTheme = true -> finite h m themeProp = true ->
  exists nextTheme h2, mergeTheme baseTheme themeProp h = (Ok nextTheme, h2).
Proof.
  intros Hb Ht.
  destruct (menuDropAlign_returns _ _ _ Ht) as (guard & Hguard & Halign).
  unfold mergeTheme. destruct (truthy themeProp) eqn:Htruthy.
  - assert (Hov : js_or (ret themeProp) (alloc []) h = (Ok themeProp, h)).
    { unfold js_or, bind, ret. by rewrite Htruthy. }
    destruct (deepMerge_returns h n m baseTheme themeProp Hb Ht)
      as (nextTheme & h1 & Hm).
    destruct (truthy guard) eqn:Hg.
    + destruct (Halign eq_refl) as (ld & fd & Hp & Hld & Hhas).
      destruct (mergeTheme_align _ _ _ _ _ _ _ Hm Hp Hld Hhas)
        as (h2 & Hmt & _).
      exists nextTheme, h2. exact Hmt.
    + pose proof (deepMerge_grows baseTheme themeProp h) as Hsub.
      rewrite Hm in Hsub. simpl in Hsub.
      step Hov. step Hm.
      step (stable_menuDropAlign themeProp _ _ _ Hguard Hsub).
      rewrite Hg. by eexists _, _.
  - assert (Hguard' : forall s : heap,
              menuDropAlign themeProp s = (Ok themeProp, s)).
    { intros s. unfold menuDropAlign.
      assert (A1 : js_and (ret themeProp) (get_path themeProp ["menu"]) s
                   = (Ok themeProp, s)) by by apply js_and_falsy.
      assert (A2 : js_and (js_and (ret themeProp)
                                  (get_path themeProp ["menu"]))
                          (get_path themeProp ["menu"; "drop"]) s
                   = (Ok themeProp, s))
        by exact (js_and_falsy _ _ _ _ _ A1 Htruthy).
      exact (js_and_falsy _ _ _ _ _ A2 Htruthy). }
    set (h0' := <[fresh (dom h) := []]> h).
    assert (Hov : js_or (ret themeProp) (alloc []) h
                  = (Ok (VRef (fresh (dom h))), h0')).
    { unfold js_or, bind, ret. by rewrite Htruthy. }
    assert (Hsub0 : h ⊆ h0').
    { apply insert_subseteq, not_elem_of_dom, is_fresh. }
    destruct (deepMerge_returns h0' n 1 baseTheme (VRef (fresh (dom h))))
      as (nextTheme & h1 & Hm).
    { by apply (finite_mono_heap h). }
    { simpl. unfold h0'. by rewrite lookup_insert_eq. }
    step Hov. step Hm. step (Hguard' h1). rewrite Htruthy.
    by eexists _, _.
Qed.

(** * The merged message table *)




(** * The theorems at the sample store *)

(** The merge alone combines the two alignments: at the sample store the
    merged [menu.drop.align] still has the base's [left].  Lines 87-88 are
    what replaces it by the override's alignment. *)
Lemma deepMerge_keeps_base_left :
  (let! merged := deepMerge (VRef 1) (VRef 10) in
   get_path merged ["menu"; "drop"; "align"; "left"]) sample_store
  = (Ok (VStr "left"), (deepMerge (VRef 1) (VRef 10) sample_store).2) /\
  (let! composed := composeTheme sample_normalizeColor sample_backgroundIsDark
                      (VRef 1) (VRef 10) VUndef VUndef VUndef in
   get_path composed ["menu"; "drop"; "align"; "left"]) sample_store
  = (Ok VUndef,
     (composeTheme sample_normalizeColor sample_backgroundIsDark
        (VRef 1) (VRef 10) VUndef VUndef VUndef sample_store).2).
Proof. split; vm_compute; reflexivity. Qed.

Lemma menu_align_override_witness :
  exists h',
    composeTheme sample_normalizeColor sample_backgroundIsDark
      (VRef 1) (VRef 10) VUndef VUndef VUndef sample_store
    = (Ok (VRef 27), h') /\
    get_path (VRef 27) ["menu"; "drop"; "align"] h' = (Ok (VRef 13), h') /\
    h' !! 13 = Some [("top", VStr "bottom")].
Proof.
  destruct (menu_align_override sample_normalizeColor sample_backgroundIsDark
              (VRef 1) (VRef 10) VUndef VUndef VUndef sample_store
              (deepMerge (VRef 1) (VRef 10) sample_store).2 (VRef 27)
              12 [("align", VRef 13)] (VStr "white"))
    as (h' & Hrun & Halign & _ & Hkeep);
    try (vm_compute; reflexivity).
  exists h'. split; [exact Hrun|]. split; [exact Halign|].
  apply Hkeep; reflexivity.
Defined.

Lemma defaultOptions_shared_witness :
  exists l,
    defaultOptions_init sample_store = (Ok (VRef l), <[l := []]> sample_store) /\
    options (VRef l) VUndef = VRef l.
Proof.
  destruct (defaultOptions_shared sample_store) as (l & Hinit & _ & Hsame).
  exists l. split; [exact Hinit|].
  apply (Hsame VUndef VUndef); reflexivity.
Defined.

Lemma dark_from_background_witness :
  field_of "dark"
    (composeTheme sample_normalizeColor sample_backgroundIsDark
       (VRef 1) (VRef 10) (VStr "#000000") VUndef (VStr "light") sample_store)
  = Some (VBool true) /\
  field_of "dark"
    (composeTheme sample_normalizeColor sample_backgroundIsDark
       (VRef 1) (VRef 10) VUndef VUndef (VStr "dark") sample_store)
  = Some (VBool false).
Proof.
  pose proof (dark_from_background sample_normalizeColor
                sample_backgroundIsDark (VRef 1) (VRef 10) VUndef sample_store
                (mergeTheme (VRef 1) (VRef 10) sample_store).2 (VRef 27)
                (VStr "white")) as H.
  cbv zeta in H.
  destruct H as (_ & _ & _ & Hblack & _ & Hdefault);
    try (vm_compute; reflexivity).
  split.
  - apply Hblack; intros s t; reflexivity.
  - exact Hdefault.
Defined.

Lemma background_recorded_witness :
  field_of "baseBackground"
    (composeTheme sample_normalizeColor sample_backgroundIsDark
       (VRef 1) (VRef 10) (VStr "#000000") VUndef VUndef sample_store)
  = Some (VStr "#000000") /\
  field_of "background"
    (composeTheme sample_normalizeColor sample_backgroundIsDark
       (VRef 1) (VRef 10) VUndef VUndef VUndef sample_store)
  = Some (VStr "white").
Proof.
  pose proof (background_recorded sample_normalizeColor
                sample_backgroundIsDark (VRef 1) (VRef 10) (VStr "#000000")
                VUndef VUndef sample_store
                (mergeTheme (VRef 1) (VRef 10) sample_store).2 (VRef 27)
                (VStr "white")) as H1.
  pose proof (background_recorded sample_normalizeColor
                sample_backgroundIsDark (VRef 1) (VRef 10) VUndef
                VUndef VUndef sample_store
                (mergeTheme (VRef 1) (VRef 10) sample_store).2 (VRef 27)
                (VStr "white")) as H2.
  cbv zeta in H1, H2.
  destruct H1 as (_ & Hbase & _); try (vm_compute; reflexivity).
  destruct H2 as (_ & Hbase2 & Hbg & _); try (vm_compute; reflexivity).
  split; [exact Hbase|]. rewrite Hbg. exact Hbase2.
Defined.

(** * Reading a path after a write elsewhere *)

Lemma get_prop_insert_outcome (h : heap) l fs fs' k v :
  h !! l = Some fs -> obj_get k fs' = obj_get k fs ->
  (get_prop v k (<[l := fs']> h)).1 = (get_prop v k h).1.
Proof.
  intros Hl Hk. destruct v as [| | | | |l0]; try reflexivity.
  simpl. unfold bind, read_obj. destruct (decide (l = l0)) as [->|Hne].
  - rewrite lookup_insert_eq, Hl. simpl. by rewrite Hk.
  - rewrite lookup_insert_ne by done. by destruct (h !! l0).
Qed.

Lemma get_path_step v k ks (h : heap) :
  (get_path v (k :: ks) h).1
  = match (get_prop v k h).1 with
    | Ok x => (get_path x ks h).1
    | Throw e => Throw e
    end.
Proof.
  simpl. unfold bind. pose proof (readonly_get_prop v k h) as Hr.
  destruct (get_prop v k h) as [[x|e] hx]; simpl in *; by subst.
Qed.

Lemma get_path_insert_outcome (h : heap) l fs fs' ks :
  h !! l = Some fs ->
  Forall (fun k => obj_get k fs' = obj_get k fs) ks ->
  forall v, (get_path v ks (<[l := fs']> h)).1 = (get_path v ks h).1.
Proof.
  intros Hl. induction 1 as [|k ks Hk _ IH]; intros v; [done|].
  rewrite !get_path_step, (get_prop_insert_outcome _ _ _ _ _ _ Hl Hk).
  destruct (get_prop v k h).1; [apply IH | done].
Qed.

Lemma get_path_returns ks v (h h' : heap) x :
  get_path v ks h = (Ok x, h') -> get_path v ks h = (Ok x, h).
Proof.
  intros H. pose proof (readonly_get_path ks v h) as Hr.
  rewrite H in Hr. simpl in Hr. by subst.
Qed.


(** Deleting [align] from an object leaves every path that avoids [align]. *)
Lemma delete_prop_paths drop (h1 h1a : heap) :
  delete_prop drop "align" h1 = (Ok tt, h1a) ->
  forall ks, Forall (fun k => k <> "align") ks ->
    forall v, (get_path v ks h1a).1 = (get_path v ks h1).1.
Proof.
  intros E2 ks Hks v. destruct drop as [| |b|z|s|l]; simpl in E2;
    try discriminate; try (injection E2 as <-; reflexivity).
  destruct (h1 !! l) as [fs|] eqn:El; [|discriminate].
  injection E2 as <-. apply (get_path_insert_outcome _ _ _ _ _ El).
  eapply Forall_impl; [exact Hks|]. intros k Hk.
  by apply obj_get_delete_ne.
Qed.

(** * Theme composition keeps what existed, when the merge does *)

Lemma post_bind {S A B} (m : M S A) (k : A -> M S B) (s : S)
    (Q : A -> S -> Prop) (R : outcome B * S -> Prop) :
  match m s with
  | (Ok a, s') => Q a s'
  | (Throw e, s') => R (Throw e, s')
  end ->
  (forall a s', m s = (Ok a, s') -> Q a s' -> R (k a s')) ->
  R (bind m k s).
Proof.
  intros Hm Hk. unfold bind.
  destruct (m s) as [[a|e] s']; [by apply Hk | exact Hm].
Qed.

Section KeepsInputs.

(** The store in which the merge starts. *)
Variable h0 : heap.

Lemma framed_delete_prop v k :
  isnew h0 v ->
  hoare (framed h0) (delete_prop v k) (fun _ h => framed h0 h) (framed h0).
Proof.
  intros Hv. destruct v; simpl;
    try (apply hoare_ret; by auto); try (apply hoare_throw; by auto).
  intros h Hsub. destruct (h !! l) as [fs|] eqn:E; simpl; [|done].
  by apply insert_subseteq_r.
Qed.

(** Lines 87-88 write to the [menu.drop] of the merged theme only. *)
Lemma framed_alignFix nextTheme themeProp (h1 : heap) :
  framed h0 h1 ->
  (forall drop, get_path nextTheme ["menu"; "drop"] h1 = (Ok drop, h1) ->
                isnew h0 drop) ->
  framed h0
    ((let! drop := get_path nextTheme ["menu"; "drop"] in
      run! delete_prop drop "align" in
      let! drop' := get_path nextTheme ["menu"; "drop"] in
      let! align := get_path themeProp ["menu"; "drop"; "align"] in
      set_prop drop' "align" align) h1).2.
Proof.
  intros Hf Hown.
  apply (post_bind _ _ _
           (fun drop s => s = h1 /\ isnew h0 drop /\
              get_path nextTheme ["menu"; "drop"] h1 = (Ok drop, h1))
           (fun r => framed h0 r.2)).
  { pose proof (readonly_get_path ["menu"; "drop"] nextTheme h1) as Hr.
    destruct (get_path nextTheme ["menu"; "drop"] h1) as [[drop|e] s] eqn:E1;
      simpl in Hr; subst s; [|done].
    split; [done|]. split; [by apply Hown | done]. }
  intros drop s _ (-> & Hnew & E1).
  apply (post_bind _ _ _
           (fun _ s => framed h0 s /\
              (get_path nextTheme ["menu"; "drop"] s).1 = Ok drop)
           (fun r => framed h0 r.2)).
  { pose proof (framed_delete_prop drop "align" Hnew h1 Hf) as Hd.
    destruct (delete_prop drop "align" h1) as [[[]|e] s] eqn:E2; [|exact Hd].
    split; [exact Hd|].
    rewrite (delete_prop_paths _ _ _ E2); [by rewrite E1|].
    repeat constructor; discriminate. }
  intros [] s _ [Hs Hsame].
  apply (post_bind _ _ _ (fun drop' s' => s' = s /\ drop' = drop)
           (fun r => framed h0 r.2)).
  { pose proof (readonly_get_path ["menu"; "drop"] nextTheme s) as Hr.
    destruct (get_path nextTheme ["menu"; "drop"] s) as [[d|e] s'];
      simpl in Hr, Hsame; subst s'; [|done].
    split; [done | congruence]. }
  intros drop' s' _ [-> ->].
  apply (post_bind _ _ _ (fun _ s' => s' = s) (fun r => framed h0 r.2)).
  { pose proof (readonly_get_path ["menu"; "drop"; "align"] themeProp s) as Hr.
    destruct (get_path themeProp ["menu"; "drop"; "align"] s) as [[a|e] s'];
      simpl in Hr; by subst s'. }
  intros align s' _ ->.
  pose proof (framed_set_prop h0 drop "align" align Hnew s Hs) as Hw.
  destruct (set_prop drop "align" align s) as [[[]|e] s']; exact Hw.
Qed.

(** Lines 90-106 write to the merged theme only. *)
Lemma hoare_finish normalizeColor backgroundIsDark
    nextTheme background dir themeMode :
  isnew h0 nextTheme ->
  hoare (framed h0)
        (let! themeBackground := tentativeDark nextTheme themeMode in
         let! color := call normalizeColor (or_val background themeBackground)
                            nextTheme in
         let! isDark := call backgroundIsDark color nextTheme in
         run! set_prop nextTheme "dark" isDark in
         run! set_prop nextTheme "baseBackground"
                       (or_val background themeBackground) in
         let! baseBackground := get_prop nextTheme "baseBackground" in
         run! set_prop nextTheme "background" baseBackground in
         run! (if truthy dir then set_prop nextTheme "dir" dir else ret tt) in
         ret nextTheme)
        (fun _ h => framed h0 h) (framed h0).
Proof.
  intros Hnew.
  eapply hoare_bind; [by apply hoare_tentativeDark|]. intros themeBackground.
  apply framed_read; [apply readonly_call|]. intros color.
  apply framed_read; [apply readonly_call|]. intros isDark.
  do 2 (apply framed_write; [done|]).
  apply framed_read; [apply readonly_get_prop|]. intros baseBackground.
  apply framed_write; [done|].
  eapply hoare_bind.
  { destruct (truthy dir).
    - by apply framed_set_prop.
    - apply hoare_ret. intros s Hs. exact Hs. }
  intros []. apply hoare_ret. auto.
Qed.

(** The sharing merge only allocates. *)
Lemma hoare_sharingMerge_depth n : forall b o,
  hoare (framed h0) (sharingMerge_depth n b o)
        (fun _ h => framed h0 h) (framed h0).
Proof.
  induction n as [|n IH]; intros b o; destruct b, o; simpl;
    try (apply hoare_ret; by auto); try (apply hoare_throw; by auto).
  eapply hoare_bind; [apply hoare_read_obj; tauto|]. intros fb.
  eapply hoare_bind.
  { apply (hoare_pre _ (framed h0)); [by intros h [Hh _]|].
    apply hoare_read_obj. tauto. }
  intros fo.
  eapply hoare_bind.
  { apply (hoare_pre _ (framed h0)); [by intros h [Hh _]|].
    apply (hoare_mapM (framed h0) (fun _ => True)).
    intros kv. destruct (obj_has kv.1 fo).
    - eapply hoare_bind; [apply IH|]. intros x. apply hoare_ret. auto.
    - apply hoare_ret. auto. }
  intros merged h [Hh _]. unfold alloc. simpl.
  apply insert_subseteq_r; [|done]. by apply fresh_old.
Qed.

End KeepsInputs.

Lemma sharingMerge_grows b o (h : heap) : h ⊆ (sharingMerge b o h).2.
Proof.
  unfold sharingMerge.
  pose proof (hoare_sharingMerge_depth h (S (size h)) b o h) as H.
  destruct (sharingMerge_depth (S (size h)) b o h) as [[x|e] h'];
    by apply H.
Qed.

(** The sharing merge of two objects returns a new object. *)
Lemma sharingMerge_new lb lo (h : heap) x h' :
  sharingMerge (VRef lb) (VRef lo) h = (Ok x, h') -> isnew h x.
Proof.
  unfold sharingMerge. cbn [sharingMerge_depth].
  unfold bind at 1. destruct (read_obj lb h) as [[fb|e] s1] eqn:E1;
    [|discriminate].
  unfold bind at 1. destruct (read_obj lo s1) as [[fo|e] s2] eqn:E2;
    [|discriminate].
  assert (s1 = h) as ->.
  { pose proof (readonly_read_obj lb h) as Hr. by rewrite E1 in Hr. }
  assert (s2 = h) as ->.
  { pose proof (readonly_read_obj lo h) as Hr. by rewrite E2 in Hr. }
  unfold bind at 1.
  match goal with
  | |- context [mapM ?f fb h] =>
      pose proof (hoare_mapM (framed h) (fun _ => True) f fb) as Hm;
      destruct (mapM f fb h) as [[merged|e] hm] eqn:Em; [|discriminate]
  end.
  unfold alloc. intros [= <- <-]. simpl. apply fresh_old.
  assert (Hall : framed h h) by done.
  eapply (fun H => proj1 (eq_ind _ (fun r => match r with
                                             | (Ok ys, s) => framed h s /\ _
                                             | (Throw _, s) => framed h s
                                             end) (Hm H h Hall) _ Em)).
  intros kv. destruct (obj_has kv.1 fo).
  - eapply hoare_bind;
      [apply (hoare_sharingMerge_depth h (size h))|].
    intros y. apply hoare_ret. auto.
  - apply hoare_ret. auto.
Qed.

Lemma override_grows themeProp (h h0 : heap) override :
  js_or (ret themeProp) (alloc []) h = (Ok override, h0) -> h ⊆ h0.
Proof.
  unfold js_or, bind, ret, alloc. destruct (truthy themeProp).
  - by intros [= <- <-].
  - intros [= <- <-]. apply insert_subseteq, not_elem_of_dom, is_fresh.
Qed.

(** Lines 76-89 over a merge that writes to nothing that exists and returns
    a new object: what existed is kept, provided that the [menu.drop] which
    lines 87-88 write to is not an object that existed. *)
Lemma mergeThemeWith_framed merge
    (baseTheme themeProp : value) (h h0 : heap) (override : value) :
  js_or (ret themeProp) (alloc []) h = (Ok override, h0) ->
  h0 ⊆ (merge baseTheme override h0).2 ->
  (forall nextTheme h1,
     merge baseTheme override h0 = (Ok nextTheme, h1) -> isnew h0 nextTheme) ->
  (forall nextTheme h1 guard drop,
     merge baseTheme override h0 = (Ok nextTheme, h1) ->
     menuDropAlign themeProp h1 = (Ok guard, h1) -> truthy guard = true ->
     get_path nextTheme ["menu"; "drop"] h1 = (Ok drop, h1) ->
     isnew h0 drop) ->
  match mergeThemeWith merge baseTheme themeProp h with
  | (Ok nextTheme, h2) => framed h0 h2 /\ isnew h0 nextTheme
  | (Throw _, h2) => framed h0 h2
  end.
Proof.
  intros Ho Hkeep Hnew Hown. unfold mergeThemeWith.
  set (R := fun r : outcome value * heap =>
              match r with
              | (Ok nextTheme, h2) => framed h0 h2 /\ isnew h0 nextTheme
              | (Throw _, h2) => framed h0 h2
              end).
  change (R ((let! override := js_or (ret themeProp) (alloc []) in
              let! nextTheme := merge baseTheme override in
              let! guard := menuDropAlign themeProp in
              run! (if truthy guard then
                      let! drop := get_path nextTheme ["menu"; "drop"] in
                      run! delete_prop drop "align" in
                      let! drop' := get_path nextTheme ["menu"; "drop"] in
                      let! align :=
                        get_path themeProp ["menu"; "drop"; "align"] in
                      set_prop drop' "align" align
                    else ret tt) in
              ret nextTheme) h)).
  apply (post_bind _ _ _ (fun o s => o = override /\ s = h0)).
  { by rewrite Ho. }
  intros o s _ [-> ->].
  apply (post_bind _ _ _
           (fun nextTheme h1 =>
              merge baseTheme override h0 = (Ok nextTheme, h1) /\
              framed h0 h1 /\ isnew h0 nextTheme)).
  { destruct (merge baseTheme override h0) as [[nextTheme|e] h1] eqn:Em;
      simpl in Hkeep; [|exact Hkeep].
    split; [done|]. split; [exact Hkeep | by apply (Hnew _ h1)]. }
  intros nextTheme h1 _ (Hm & Hf & Hn).
  apply (post_bind _ _ _
           (fun guard s => s = h1 /\
              menuDropAlign themeProp h1 = (Ok guard, h1))).
  { assert (Hr : readonly (menuDropAlign themeProp)).
    { unfold menuDropAlign.
      repeat apply readonly_js_and; try apply readonly_get_path. done. }
    specialize (Hr h1).
    destruct (menuDropAlign themeProp h1) as [[guard|e] s];
      simpl in Hr; subst s; [done | exact Hf]. }
  intros guard s _ [-> Hg].
  apply (post_bind _ _ _ (fun _ s => framed h0 s)).
  { destruct (truthy guard) eqn:Ht.
    - pose proof (framed_alignFix h0 nextTheme themeProp h1 Hf
                    (fun drop Hd => Hown _ _ _ _ Hm Hg Ht Hd)) as Ha.
      match goal with
      | |- match ?m h1 with _ => _ end =>
          destruct (m h1) as [[[]|e] s]; exact Ha
      end.
    - exact Hf. }
  intros [] s _ Hs. by split.
Qed.

(** C6 (as amended).  Theme composition never mutates its inputs when the
    merge gives its result a [menu.drop] of its own.  [deepMerge] is taken
    as the import provides it, with what section 4.1 says of it: it leaves
    every object that exists as it is, and it returns a new object.  If
    moreover, when the override supplies a menu-drop alignment, the
    [menu.drop] of the merge result is not an object that existed before
    the merge, then every object that is in the store when the [theme] memo
    runs -- the base theme, the theme override and everything nested in
    them -- is in the store afterwards with exactly the properties it had,
    whether the composition returns or raises: the assignments of [dark],
    [baseBackground], [background] and [dir] go to the object the merge
    returned, the menu alignment special case to its [menu.drop]. *)
Theorem composition_keeps_inputs
    (merge : value -> value -> M heap value) normalizeColor backgroundIsDark
    (baseTheme themeProp background dir themeMode : value)
    (h h0 : heap) (override : value) :
  js_or (ret themeProp) (alloc []) h = (Ok override, h0) ->
  h0 ⊆ (merge baseTheme override h0).2 ->
  (forall nextTheme h1,
     merge baseTheme override h0 = (Ok nextTheme, h1) -> isnew h0 nextTheme) ->
  (forall nextTheme h1 guard drop,
     merge baseTheme override h0 = (Ok nextTheme, h1) ->
     menuDropAlign themeProp h1 = (Ok guard, h1) -> truthy guard = true ->
     get_path nextTheme ["menu"; "drop"] h1 = (Ok drop, h1) ->
     isnew h0 drop) ->
  forall l fs, h !! l = Some fs ->
    (composeThemeWith merge normalizeColor backgroundIsDark
       baseTheme themeProp background dir themeMode h).2 !! l = Some fs.
Proof.
  intros Ho Hkeep Hnew Hown l fs Hl.
  pose proof (override_grows _ _ _ _ Ho) as Hh.
  enough (Hf : framed h0
            (composeThemeWith merge normalizeColor backgroundIsDark
               baseTheme themeProp background dir themeMode h).2).
  { apply (lookup_weaken h0); [by apply (lookup_weaken h) | exact Hf]. }
  unfold composeThemeWith.
  apply (post_bind _ _ _
           (fun nextTheme h2 => framed h0 h2 /\ isnew h0 nextTheme)
           (fun r => framed h0 r.2)).
  { pose proof (mergeThemeWith_framed merge baseTheme themeProp h h0 override
                  Ho Hkeep Hnew Hown) as Hm.
    destruct (mergeThemeWith merge baseTheme themeProp h) as [[nt|e] h2];
      exact Hm. }
  intros nextTheme h2 _ [Hf Hn].
  pose proof (hoare_finish h0 normalizeColor backgroundIsDark nextTheme
                background dir themeMode Hn h2 Hf) as Ht.
  match goal with
  | |- framed h0 (?m h2).2 => destruct (m h2) as [[x|e] s]; exact Ht
  end.
Qed.

(** With the sharing merge and a base theme that has its own
    [menu.drop.align], the merge recurses down to [menu.drop] and the
    composition keeps the override and the base theme. *)
Lemma composition_keeps_inputs_witness :
  (composeThemeWith sharingMerge sample_normalizeColor sample_backgroundIsDark
     (VRef 1) (VRef 10) VUndef (VStr "rtl") (VStr "dark") sample_store).2 !! 12
  = Some [("align", VRef 13)] /\
  (composeThemeWith sharingMerge sample_normalizeColor sample_backgroundIsDark
     (VRef 1) (VRef 10) VUndef (VStr "rtl") (VStr "dark") sample_store).2 !! 1
  = Some [("global", VRef 2); ("menu", VRef 4); ("defaultMode", VStr "light")].
Proof.
  assert (Hown : forall nextTheme h1 guard drop,
    sharingMerge (VRef 1) (VRef 10) sample_store = (Ok nextTheme, h1) ->
    menuDropAlign (VRef 10) h1 = (Ok guard, h1) -> truthy guard = true ->
    get_path nextTheme ["menu"; "drop"] h1 = (Ok drop, h1) ->
    isnew sample_store drop).
  { intros nextTheme h1 guard drop Hm _ _ Hd.
    vm_compute in Hm. injection Hm as <- <-.
    vm_compute in Hd. injection Hd as <-. reflexivity. }
  split;
    apply (composition_keeps_inputs sharingMerge sample_normalizeColor
             sample_backgroundIsDark (VRef 1) (VRef 10) VUndef (VStr "rtl")
             (VStr "dark") sample_store sample_store (VRef 10) eq_refl
             (sharingMerge_grows _ _ _)
             (fun nextTheme h1 => sharingMerge_new 1 10 sample_store
                                    nextTheme h1)
             Hown);
    reflexivity.
Defined.

(** C6 as stated fails for a merge that shares: with the sharing merge,
    which writes to nothing that exists and returns a new object, and a base
    theme without [menu], the [menu] of the merged theme is the override's
    own, line 87 deletes the [align] of the override's [menu.drop] and line
    88 assigns it the [undefined] that is read back from there. *)
Lemma composition_mutates_shared_override :
  no_menu_store ⊆ (sharingMerge (VRef 1) (VRef 10) no_menu_store).2 /\
  (exists nextTheme h1,
     sharingMerge (VRef 1) (VRef 10) no_menu_store = (Ok nextTheme, h1) /\
     isnew no_menu_store nextTheme) /\
  no_menu_store !! 12 = Some [("align", VRef 13)] /\
  (composeThemeWith sharingMerge sample_normalizeColor sample_backgroundIsDark
     (VRef 1) (VRef 10) VUndef VUndef VUndef no_menu_store).2 !! 12
  = Some [("align", VUndef)].
Proof.
  split; [apply sharingMerge_grows|]. split.
  - eexists _, _. split; [vm_compute; reflexivity | reflexivity].
  - split; vm_compute; reflexivity.
Qed.

(** With the modelled [deepMerge] for the import, this is the composition
    the other theorems are about. *)
Lemma composeThemeWith_deepMerge normalizeColor backgroundIsDark :
  composeThemeWith deepMerge normalizeColor backgroundIsDark
  = composeTheme normalizeColor backgroundIsDark.
Proof. reflexivity. Qed.

(** * Letter case and position in the user agent *)

Lemma same_letter_cases c c' :
  same_letter c c' ->
  c = c' \/ ((65 <= c <= 122)%N /\ (65 <= c' <= 122)%N).
Proof.
  unfold same_letter, canonicalize.
  destruct (N.leb_spec 97 c), (N.leb_spec c 122),
    (N.leb_spec 97 c'), (N.leb_spec c' 122); simpl; lia.
Qed.

Lemma line_terminator_letter c :
  (65 <= c <= 122)%N -> line_terminator c = false.
Proof.
  intros Hc. unfold line_terminator.
  rewrite !(proj2 (N.eqb_neq _ _)) by lia. reflexivity.
Qed.

Lemma line_terminator_fold c c' :
  same_letter c c' -> line_terminator c = line_terminator c'.
Proof.
  intros [->|[Hc Hc']]%same_letter_cases; [done|].
  by rewrite !line_terminator_letter.
Qed.

Lemma unit_match_fold a c c' :
  same_letter c c' -> unit_match true a c = unit_match true a c'.
Proof. unfold same_letter, unit_match. by intros ->. Qed.

Lemma strip_fold p : forall s s',
  Forall2 same_letter s s' ->
  option_Forall2 (Forall2 same_letter) (strip true p s) (strip true p s').
Proof.
  induction p as [|a p IH]; intros s s' Hs.
  - destruct Hs; by repeat constructor.
  - destruct Hs as [|c c' s s' Hc Hs]; cbn [strip]; [constructor|].
    rewrite (unit_match_fold a c c' Hc).
    destruct (unit_match true a c'); [by apply IH | constructor].
Qed.

Lemma dotstar_fold (k k' : list N -> bool) s s' :
  Forall2 same_letter s s' ->
  (forall t t', Forall2 same_letter t t' -> k t = k' t') ->
  dotstar k s = dotstar k' s'.
Proof.
  intros Hs Hk. induction Hs as [|c c' s s' Hc Hs IH]; simpl.
  - by rewrite (Hk [] []).
  - rewrite (Hk (c :: s) (c' :: s')) by by constructor.
    by rewrite (line_terminator_fold c c' Hc), IH.
Qed.

Lemma rmatch_fold r : forall s s' (k k' : list N -> bool),
  Forall2 same_letter s s' ->
  (forall t t', Forall2 same_letter t t' -> k t = k' t') ->
  rmatch true r s k = rmatch true r s' k'.
Proof.
  induction r as [p|r1 IH1 r2 IH2|r1 IH1 r2 IH2| |r IH]; intros s s' k k' Hs Hk;
    simpl.
  - destruct (strip_fold (units p) s s' Hs); [by apply Hk | done].
  - by rewrite (IH1 s s' k k'), (IH2 s s' k k').
  - apply IH1; [done|]. intros t t' Ht. by apply IH2.
  - by apply dotstar_fold.
  - rewrite (IH s s' (fun _ => true) (fun _ => true)) by done.
    by rewrite (Hk s s').
Qed.

Lemma test_fold r s s' :
  Forall2 same_letter s s' -> test true r s = test true r s'.
Proof.
  induction 1 as [|c c' s s' Hc Hs IH]; simpl.
  - reflexivity.
  - rewrite (rmatch_fold r (c :: s) (c' :: s') (fun _ => true) (fun _ => true))
      by (done || by constructor).
    by rewrite IH.
Qed.

(** The class observed for a non-empty user agent is 'tablet' exactly when
    the tablet pattern matches. *)
Lemma deviceClass_tablet (h : heap) c ua theme :
  deviceResponsive deviceClass h (Some (c :: ua)) theme = VStr "tablet"
  <-> test true tabletPattern (c :: ua) = true.
Proof.
  unfold deviceResponsive, deviceClass.
  destruct (test true tabletPattern (c :: ua)); [done|].
  destruct (test false mobilePattern (c :: ua)); split; discriminate.
Qed.

Lemma deviceResponsive_tablet
    (getDeviceBreakpoint : heap -> string -> value -> value)
    (h : heap) s theme :
  test true tabletPattern s = true ->
  deviceResponsive getDeviceBreakpoint h (Some s) theme
  = getDeviceBreakpoint h "tablet" theme.
Proof.
  intros Ht. destruct s as [|c ua]; [done|].
  unfold deviceResponsive. by rewrite Ht.
Qed.

(** X1.  The tablet check ignores letter case altogether: two user agents
    that differ only in the case of ASCII letters both have a tablet
    signature or both have none, so if one is given the 'tablet' breakpoint
    the other is too. *)
Theorem tablet_any_case
    (getDeviceBreakpoint : heap -> string -> value -> value)
    (h : heap) (c c' : N) (ua ua' : list N) (theme : value) :
  Forall2 same_letter (c :: ua) (c' :: ua') ->
  test true tabletPattern (c :: ua) = test true tabletPattern (c' :: ua') /\
  (deviceResponsive deviceClass h (Some (c :: ua)) theme = VStr "tablet" ->
   deviceResponsive getDeviceBreakpoint h (Some (c' :: ua')) theme
   = getDeviceBreakpoint h "tablet" theme).
Proof.
  intros Hs. pose proof (test_fold tabletPattern _ _ Hs) as Heq.
  split; [exact Heq|]. intros Ht%deviceClass_tablet.
  apply deviceResponsive_tablet. by rewrite <- Heq.
Qed.

Lemma tablet_any_case_witness :
  deviceResponsive deviceClass ∅ (Some (units "MOZILLA/5.0 (IPAD; CPU OS 13)"))
    VUndef = VStr "tablet".
Proof.
  apply (tablet_any_case deviceClass ∅ 77%N 77%N
           (units "ozilla/5.0 (iPad; CPU OS 13)")
           (units "OZILLA/5.0 (IPAD; CPU OS 13)") VUndef).
  - repeat constructor.
  - reflexivity.
Defined.

Lemma strip_same p w : forall post,
  Forall2 same_letter p w -> strip true p (w ++ post)%list = Some post.
Proof.
  intros post. induction 1 as [|a c p w Hc _ IH]; [by destruct post|].
  cbn [strip app]. unfold unit_match. unfold same_letter in Hc.
  by rewrite Hc, N.eqb_refl.
Qed.

Lemma test_skip ic r pre s :
  test ic r s = true -> test ic r (pre ++ s)%list = true.
Proof.
  intros Hs. induction pre as [|c pre IH]; [done|].
  cbn [app test]. by rewrite IH, orb_true_r.
Qed.

Lemma contains_here ic p s more :
  strip ic (units p) s = Some more -> contains ic p s = true.
Proof.
  intros Hs. unfold contains.
  destruct s; cbn [test]; by rewrite rmatch_Lit, Hs.
Qed.

Lemma tabletSignature_keyword kw s :
  kw ∈ tabletKeywords -> contains true kw s = true -> tabletSignature s = true.
Proof.
  unfold tabletKeywords, tabletSignature. intros Hkw Hc.
  repeat (apply elem_of_cons in Hkw as [->|Hkw];
          [rewrite Hc; by rewrite ?orb_true_r|]).
  by apply elem_of_nil in Hkw.
Qed.

(** X2.  A tablet keyword wins wherever it stands and whatever else the
    user agent holds: a string with "tablet", "ipad", "playbook" or "silk"
    in it, in any letter case, is given the 'tablet' breakpoint -- also when
    it contains "Mobile" or "iPhone", as the user agents of iPads do. *)
Theorem tablet_keyword_wins
    (getDeviceBreakpoint : heap -> string -> value -> value)
    (h : heap) (kw : string) (pre w post : list N) (theme : value) :
  kw ∈ tabletKeywords ->
  Forall2 same_letter (units kw) w ->
  deviceResponsive getDeviceBreakpoint h (Some (pre ++ w ++ post)%list) theme
  = getDeviceBreakpoint h "tablet" theme.
Proof.
  intros Hkw Hw. apply deviceResponsive_tablet.
  rewrite test_tabletPattern. apply (tabletSignature_keyword kw); [done|].
  apply test_skip. apply (contains_here true kw _ post). by apply strip_same.
Qed.

Lemma tablet_keyword_wins_witness :
  contains false "Mobile"
    (units "Mozilla/5.0 (iPad; CPU OS 13_2 like Mac OS X) Mobile/15E148")
  = true /\
  deviceResponsive deviceClass ∅
    (Some (units "Mozilla/5.0 (iPad; CPU OS 13_2 like Mac OS X) Mobile/15E148"))
    VUndef
  = VStr "tablet".
Proof.
  split; [reflexivity|].
  apply (tablet_keyword_wins deviceClass ∅ "ipad" (units "Mozilla/5.0 (")
           (units "iPad") (units "; CPU OS 13_2 like Mac OS X) Mobile/15E148")
           VUndef).
  - unfold tabletKeywords. set_solver.
  - repeat constructor.
Defined.

Lemma strip_app_l ic p : forall s more t,
  strip ic p s = Some more -> strip ic p (s ++ t) = Some (more ++ t)%list.
Proof.
  induction p as [|a p IH]; intros s more t.
  - destruct s; intros [= <-]; reflexivity.
  - destruct s as [|c s]; cbn [strip app]; [done|].
    destruct (unit_match ic a c); [apply IH | done].
Qed.

Lemma strip_suffix ic p : forall s more,
  strip ic p s = Some more -> exists w, s = (w ++ more)%list.
Proof.
  induction p as [|a p IH]; intros s more.
  - destruct s; intros [= <-]; by exists [].
  - destruct s as [|c s]; cbn [strip]; [done|].
    destruct (unit_match ic a c); [|done].
    intros [w ->]%IH. by exists (c :: w).
Qed.

Lemma contains_prefix ic p s t :
  contains ic p s = true -> contains ic p (s ++ t)%list = true.
Proof.
  unfold contains. induction s as [|c s IH].
  - cbn [test]. rewrite rmatch_Lit, orb_false_r.
    destruct (strip ic (units p) []) as [more|] eqn:E; [|done]. intros _.
    apply (contains_here ic p _ (more ++ t)%list).
    by apply (strip_app_l ic (units p) [] more t).
  - cbn [test app]. rewrite !rmatch_Lit. intros [Hh|Ht]%orb_prop.
    + destruct (strip ic (units p) (c :: s)) as [more|] eqn:E; [|done].
      pose proof (strip_app_l ic (units p) (c :: s) more t E) as E'.
      cbn [app] in E'. by rewrite E'.
    + by rewrite IH, orb_true_r.
Qed.

Lemma firstLine_prefix s : exists t, s = (firstLine s ++ t)%list.
Proof.
  induction s as [|c s [t IH]]; [by exists []|].
  cbn [firstLine]. destruct (line_terminator c).
  - by exists (c :: s).
  - exists t. cbn [app]. by rewrite <- IH.
Qed.

Lemma contains_firstLine ic p s :
  contains ic p (firstLine s) = true -> contains ic p s = true.
Proof.
  intros H. destruct (firstLine_prefix s) as [t Ht]. rewrite Ht.
  by apply contains_prefix.
Qed.

Lemma contains_tail ic p c s :
  contains ic p (c :: s) = false -> contains ic p s = false.
Proof. unfold contains. cbn [test]. by intros [_ H]%orb_false_elim. Qed.

Lemma android_occurrence_not_followed s more :
  contains true "mobile" s = false ->
  strip true (units "android") s = Some more ->
  contains true "mobile" (firstLine more) = false.
Proof.
  intros Hm [w ->]%strip_suffix.
  destruct (contains true "mobile" (firstLine more)) eqn:E; [|done].
  apply contains_firstLine in E.
  unfold contains in *. by rewrite (test_skip true _ w more E) in Hm.
Qed.

Lemma androidNotFollowed_no_mobile s :
  contains true "mobile" s = false ->
  contains true "android" s = true ->
  androidNotFollowed s = true.
Proof.
  induction s as [|c s IH]; intros Hm Ha.
  - done.
  - cbn [androidNotFollowed].
    destruct (strip true (units "android") (c :: s)) as [more|] eqn:E.
    + by rewrite (android_occurrence_not_followed _ _ Hm E).
    + rewrite IH; [by rewrite orb_true_r | by apply contains_tail in Hm |].
      unfold contains in Ha. cbn [test] in Ha. by rewrite rmatch_Lit, E in Ha.
Qed.

(** X3.  An Android user agent without any "mobile" in it, in whatever
    letter case either word is written, is given the 'tablet' breakpoint. *)
Theorem android_without_mobile
    (getDeviceBreakpoint : heap -> string -> value -> value)
    (h : heap) (s : list N) (theme : value) :
  contains true "android" s = true ->
  contains true "mobile" s = false ->
  deviceResponsive getDeviceBreakpoint h (Some s) theme
  = getDeviceBreakpoint h "tablet" theme.
Proof.
  intros Ha Hm. apply deviceResponsive_tablet.
  rewrite test_tabletPattern. unfold tabletSignature.
  by rewrite (androidNotFollowed_no_mobile s Hm Ha), !orb_true_r.
Qed.

Lemma android_without_mobile_witness :
  deviceResponsive deviceClass ∅
    (Some (units "Mozilla/5.0 (Linux; Android 10; SM-T510) Safari/537.36"))
    VUndef
  = VStr "tablet".
Proof.
  apply (android_without_mobile deviceClass); reflexivity.
Defined.

Lemma firstLine_terminator mid t post :
  line_terminator t = true ->
  firstLine (mid ++ t :: post)%list = firstLine mid.
Proof.
  intros Ht. induction mid as [|c mid IH]; cbn [app firstLine].
  - by rewrite Ht.
  - by rewrite IH.
Qed.

Lemma androidNotFollowed_skip pre s :
  androidNotFollowed s = true -> androidNotFollowed (pre ++ s)%list = true.
Proof.
  intros Hs. induction pre as [|c pre IH]; [done|].
  cbn [app androidNotFollowed]. by rewrite IH, orb_true_r.
Qed.

(** X4.  The lookahead of the tablet pattern stops at a line terminator: an
    "android" with no "mobile" after it on its own line makes the user
    agent a tablet, whatever comes after the line terminator -- also a
    "Mobile". *)
Theorem android_mobile_on_next_line
    (getDeviceBreakpoint : heap -> string -> value -> value)
    (h : heap) (pre w mid post : list N) (t : N) (theme : value) :
  Forall2 same_letter (units "android") w ->
  contains true "mobile" mid = false ->
  line_terminator t = true ->
  deviceResponsive getDeviceBreakpoint h
    (Some (pre ++ w ++ mid ++ t :: post)%list) theme
  = getDeviceBreakpoint h "tablet" theme.
Proof.
  intros Hw Hmid Ht. apply deviceResponsive_tablet.
  rewrite test_tabletPattern. unfold tabletSignature.
  rewrite androidNotFollowed_skip; [by rewrite !orb_true_r|].
  assert (Hs : strip true (units "android") (w ++ mid ++ t :: post)%list
               = Some (mid ++ t :: post)%list) by by apply strip_same.
  destruct w as [|c w]; [by inversion Hw|].
  cbn [app] in *. cbn [androidNotFollowed]. rewrite Hs.
  rewrite firstLine_terminator by done.
  destruct (contains true "mobile" (firstLine mid)) eqn:E; [|done].
  apply contains_firstLine in E. congruence.
Qed.

Lemma android_mobile_on_next_line_witness :
  deviceResponsive deviceClass ∅
    (Some (units "Android 10" ++ [10%N] ++ units "Mobile Safari")%list) VUndef
  = VStr "tablet".
Proof.
  apply (android_mobile_on_next_line deviceClass ∅ [] (units "Android")
           (units " 10") (units "Mobile Safari") 10%N VUndef).
  - repeat constructor.
  - reflexivity.
  - reflexivity.
Defined.

(** * What theme composition changes and what it leaves *)

(** Lines 87-88, once they have run, changed [align] in one object. *)
Lemma alignFix_inv nextTheme themeProp (h1 h2 : heap) :
  (let! drop := get_path nextTheme ["menu"; "drop"] in
   run! delete_prop drop "align" in
   let! drop' := get_path nextTheme ["menu"; "drop"] in
   let! align := get_path themeProp ["menu"; "drop"; "align"] in
   set_prop drop' "align" align) h1 = (Ok tt, h2) ->
  forall ks, Forall (fun k => k <> "align") ks ->
    forall v, (get_path v ks h2).1 = (get_path v ks h1).1.
Proof.
  unfold bind at 1.
  destruct (get_path nextTheme ["menu"; "drop"] h1) as [[drop|e] s] eqn:E1;
    [|discriminate].
  pose proof (readonly_get_path ["menu"; "drop"] nextTheme h1) as Hr.
  rewrite E1 in Hr. simpl in Hr. subst s.
  unfold bind at 1.
  destruct (delete_prop drop "align" h1) as [[[]|e] h1a] eqn:E2;
    [|discriminate].
  assert (Hdel : forall ks, Forall (fun k => k <> "align") ks ->
            forall v, (get_path v ks h1a).1 = (get_path v ks h1).1).
  { intros ks Hks v. destruct drop as [| |b|z|s|l]; simpl in E2;
      try discriminate; try (injection E2 as <-; reflexivity).
    destruct (h1 !! l) as [fs|] eqn:El; [|discriminate].
    injection E2 as <-. apply (get_path_insert_outcome _ _ _ _ _ El).
    eapply Forall_impl; [exact Hks|]. intros k Hk.
    by apply obj_get_delete_ne. }
  unfold bind at 1.
  destruct (get_path nextTheme ["menu"; "drop"] h1a) as [[drop'|e] s] eqn:E3;
    [|discriminate].
  pose proof (readonly_get_path ["menu"; "drop"] nextTheme h1a) as Hr.
  rewrite E3 in Hr. simpl in Hr. subst s.
  unfold bind at 1.
  destruct (get_path themeProp ["menu"; "drop"; "align"] h1a)
    as [[align|e] s] eqn:E4; [|discriminate].
  pose proof (readonly_get_path ["menu"; "drop"; "align"] themeProp h1a) as Hr.
  rewrite E4 in Hr. simpl in Hr. subst s.
  intros E5 ks Hks v. rewrite <- (Hdel ks Hks v).
  destruct drop' as [| |b|z|s|l]; simpl in E5; try discriminate.
  destruct (h1a !! l) as [fs|] eqn:El; [|discriminate].
  injection E5 as <-. apply (get_path_insert_outcome _ _ _ _ _ El).
  eapply Forall_impl; [exact Hks|]. intros k Hk. by apply obj_get_set_ne.
Qed.

(** Lines 76-89, once they have returned: the theme is the result of the
    merge, and only [align] may read differently than right after it. *)
Lemma mergeTheme_inv baseTheme themeProp (h h2 : heap) nextTheme :
  mergeTheme baseTheme themeProp h = (Ok nextTheme, h2) ->
  exists override h0 h1,
    js_or (ret themeProp) (alloc []) h = (Ok override, h0) /\
    deepMerge baseTheme override h0 = (Ok nextTheme, h1) /\
    forall ks, Forall (fun k => k <> "align") ks ->
      forall v, (get_path v ks h2).1 = (get_path v ks h1).1.
Proof.
  unfold mergeTheme. unfold bind at 1.
  destruct (js_or (ret themeProp) (alloc []) h) as [[override|e] h0] eqn:E0;
    [|discriminate].
  unfold bind at 1.
  destruct (deepMerge baseTheme override h0) as [[merged|e] h1] eqn:E1;
    [|discriminate].
  unfold bind at 1.
  destruct (menuDropAlign themeProp h1) as [[guard|e] s] eqn:E2;
    [|discriminate].
  assert (s = h1) as ->.
  { assert (Hr : readonly (menuDropAlign themeProp)).
    { unfold menuDropAlign.
      repeat apply readonly_js_and; try apply readonly_get_path. done. }
    specialize (Hr h1). by rewrite E2 in Hr. }
  unfold bind at 1. destruct (truthy guard).
  - match goal with
    | |- context [let (o, s') := ?m h1 in _] =>
        destruct (m h1) as [[[]|e] s] eqn:E3; [|discriminate]
    end.
    intros [= <- <-]. exists override, h0, h1. repeat split; [done..|].
    by apply (alignFix_inv merged themeProp).
  - intros [= <- <-]. exists override, h0, h1. by repeat split.
Qed.

(** A composition that returned went through lines 90-106 on the theme that
    lines 76-89 returned. *)
Lemma composeTheme_inv normalizeColor backgroundIsDark
    baseTheme themeProp background dir themeMode (h h' : heap) composed :
  composeTheme normalizeColor backgroundIsDark baseTheme themeProp
    background dir themeMode h = (Ok composed, h') ->
  exists h2 l fs tb,
    composed = VRef l /\
    mergeTheme baseTheme themeProp h = (Ok (VRef l), h2) /\
    h2 !! l = Some fs /\
    get_path (VRef l) ["global"; "colors"; "background"] h2 = (Ok tb, h2) /\
    h' = <[l := themeFields normalizeColor backgroundIsDark h2 l fs tb
                  background dir themeMode]> h2.
Proof.
  intros Hc. pose proof Hc as Hc'. revert Hc'.
  unfold composeTheme. unfold bind at 1.
  destruct (mergeTheme baseTheme themeProp h) as [[nextTheme|e] h2] eqn:Em;
    [|discriminate].
  unfold bind at 1.
  destruct (tentativeDark nextTheme themeMode h2) as [[tb|e] h3] eqn:Et;
    [|discriminate].
  intros _. revert Et. unfold tentativeDark.
  unfold bind at 1.
  destruct (get_prop nextTheme "global" h2) as [[g|e] s] eqn:Eg;
    [|discriminate].
  pose proof (get_prop_ok _ _ _ _ _ Eg) as ->.
  unfold bind at 1.
  destruct (get_prop g "colors" h2) as [[c|e] s] eqn:Ec; [|discriminate].
  pose proof (get_prop_ok _ _ _ _ _ Ec) as ->.
  unfold bind at 1.
  destruct (get_prop c "background" h2) as [[b|e] s] eqn:Eb; [|discriminate].
  pose proof (get_prop_ok _ _ _ _ _ Eb) as ->.
  intros Et.
  assert (Hg : g <> VUndef).
  { intros ->. simpl in Ec. discriminate. }
  destruct (get_prop_defined _ _ _ _ _ Eg Hg) as (l & fs & -> & Hl & _).
  assert (Hp : get_path (VRef l) ["global"; "colors"; "background"] h2
               = (Ok b, h2)).
  { cbn [get_path]. step Eg. step Ec. step Eb. reflexivity. }
  rewrite (composeTheme_run normalizeColor backgroundIsDark _ _ background
             dir themeMode _ _ _ _ _ Em Hl Hp) in Hc.
  injection Hc as <- <-. by exists h2, l, fs, b.
Qed.

(** X5.  A composed theme is the merge result with five properties set: any
    path that does not go through [align], [dark], [baseBackground],
    [background] or [dir] reads in the composed theme what it read right
    after the merge of the base theme with the override (an empty object
    when the [theme] prop is falsy). *)
Theorem composition_writes_five_keys normalizeColor backgroundIsDark
    (baseTheme themeProp background dir themeMode : value)
    (h h' : heap) (composed : value) :
  composeTheme normalizeColor backgroundIsDark baseTheme themeProp
    background dir themeMode h = (Ok composed, h') ->
  exists override h0 h1,
    js_or (ret themeProp) (alloc []) h = (Ok override, h0) /\
    deepMerge baseTheme override h0 = (Ok composed, h1) /\
    forall ks, Forall (fun k => k ∉ composedKeys) ks ->
      forall v, (get_path v ks h').1 = (get_path v ks h1).1.
Proof.
  intros Hc.
  destruct (composeTheme_inv _ _ _ _ _ _ _ _ _ _ Hc)
    as (h2 & l & fs & tb & -> & Hm & Hl & _ & ->).
  destruct (mergeTheme_inv _ _ _ _ _ Hm) as (override & h0 & h1 & Ho & Hd & Hk).
  exists override, h0, h1. split; [done|]. split; [done|].
  intros ks Hks v. rewrite <- (Hk ks).
  - apply (get_path_insert_outcome _ _ _ _ _ Hl).
    eapply Forall_impl; [exact Hks|]. intros k Hk'.
    unfold composedKeys in Hk'.
    apply themeFields_other; intros ->; apply Hk'; set_solver.
  - eapply Forall_impl; [exact Hks|]. intros k Hk' ->.
    apply Hk'. unfold composedKeys. set_solver.
Qed.

Lemma composition_writes_five_keys_witness :
  (get_path (VRef 27) ["menu"; "drop"]
     (composeTheme sample_normalizeColor sample_backgroundIsDark
        (VRef 1) (VRef 10) (VStr "#000000") (VStr "rtl") (VStr "dark")
        sample_store).2).1
  = (get_path (VRef 27) ["menu"; "drop"]
       (deepMerge (VRef 1) (VRef 10) sample_store).2).1.
Proof.
  destruct (composition_writes_five_keys sample_normalizeColor
              sample_backgroundIsDark (VRef 1) (VRef 10) (VStr "#000000")
              (VStr "rtl") (VStr "dark") sample_store
              (composeTheme sample_normalizeColor sample_backgroundIsDark
                 (VRef 1) (VRef 10) (VStr "#000000") (VStr "rtl") (VStr "dark")
                 sample_store).2 (VRef 27))
    as (override & h0 & h1 & Ho & Hd & Hk); [vm_compute; reflexivity|].
  injection Ho as <- <-.
  assert (h1 = (deepMerge (VRef 1) (VRef 10) sample_store).2) as <-
    by by rewrite Hd.
  apply Hk. unfold composedKeys.
  apply Forall_cons_2; [|apply Forall_cons_2; [|apply Forall_nil_2]];
    intros Hin; apply list_elem_of_In in Hin; simpl in Hin;
    intuition discriminate.
Defined.

(** * Reading through a missing object *)

Lemma get_path_app ks ks' v (h : heap) x :
  get_path v ks h = (Ok x, h) ->
  get_path v (ks ++ ks') h = get_path x ks' h.
Proof.
  revert v. induction ks as [|k ks IH]; intros v.
  - by intros [= ->].
  - cbn [get_path app]. unfold bind.
    destruct (get_prop v k h) as [[y|e] s] eqn:E; [|discriminate].
    pose proof (get_prop_ok _ _ _ _ _ E) as ->. apply IH.
Qed.

Lemma get_path_nullish ks k more v (h : heap) x :
  get_path v ks h = (Ok x, h) -> nullish x ->
  get_path v (ks ++ k :: more) h = (Throw TypeError, h).
Proof.
  intros Hp Hx. rewrite (get_path_app _ _ _ _ _ Hp).
  by destruct Hx as [-> | ->].
Qed.

Lemma tentativeDark_raises nextTheme themeMode (h h' : heap) e :
  get_path nextTheme ["global"; "colors"; "background"] h = (Throw e, h') ->
  tentativeDark nextTheme themeMode h = (Throw e, h').
Proof.
  unfold tentativeDark. cbn [get_path]. unfold bind.
  destruct (get_prop nextTheme "global" h) as [[g|e1] s1]; [|done].
  destruct (get_prop g "colors" s1) as [[c|e2] s2]; [|done].
  destruct (get_prop c "background" s2) as [[b|e3] s3]; [|done].
  discriminate.
Qed.

(** X6.  Lines 90-92 read [global.colors.background] of the merged theme
    without a check: when the merged theme, its [global] or its
    [global.colors] is [undefined] or [null], the composition raises a
    [TypeError] and has written nothing to the merge result: no [dark], no
    [baseBackground], no [background], no [dir]. *)
Theorem composition_needs_global_colors normalizeColor backgroundIsDark
    (baseTheme themeProp background dir themeMode : value)
    (h h1 : heap) (nextTheme x : value) (ks : list string) (k : string)
    (more : list string) :
  mergeTheme baseTheme themeProp h = (Ok nextTheme, h1) ->
  ["global"; "colors"; "background"] = (ks ++ k :: more)%list ->
  get_path nextTheme ks h1 = (Ok x, h1) ->
  nullish x ->
  composeTheme normalizeColor backgroundIsDark baseTheme themeProp
    background dir themeMode h = (Throw TypeError, h1).
Proof.
  intros Hm Hks Hp Hx. unfold composeTheme. step Hm.
  unfold bind at 1.
  by rewrite (tentativeDark_raises _ themeMode _ _ _
                (eq_ind_r (fun p => get_path nextTheme p h1 = _)
                   (get_path_nullish _ k more _ _ _ Hp Hx) Hks)).
Qed.

Lemma composition_needs_global_colors_witness :
  composeTheme sample_normalizeColor sample_backgroundIsDark
    (VRef 1) VUndef VUndef VUndef VUndef
    (<[1 := [("global", VRef 2)]]> (<[2 := []]> ∅))
  = (Throw TypeError,
     (mergeTheme (VRef 1) VUndef
        (<[1 := [("global", VRef 2)]]> (<[2 := []]> ∅))).2).
Proof.
  apply (composition_needs_global_colors sample_normalizeColor
           sample_backgroundIsDark (VRef 1) VUndef VUndef VUndef VUndef _ _
           (VRef 5) VUndef ["global"; "colors"] "background" []).
  - vm_compute. reflexivity.
  - reflexivity.
  - vm_compute. reflexivity.
  - by left.
Defined.

(** X7.  The [dir] of a composed theme is the [dir] prop when that is
    truthy; with no [dir] prop, or a falsy one such as the empty string, it
    is the [dir] of the merged theme, untouched by the other assignments. *)
Theorem composed_dir normalizeColor backgroundIsDark
    (baseTheme themeProp background dir themeMode : value)
    (h h1 : heap) (nextTheme tb : value) :
  mergeTheme baseTheme themeProp h = (Ok nextTheme, h1) ->
  get_path nextTheme ["global"; "colors"; "background"] h1 = (Ok tb, h1) ->
  field_of "dir" (composeTheme normalizeColor backgroundIsDark baseTheme
                    themeProp background dir themeMode h)
  = if truthy dir then Some dir else field_of "dir" (Ok nextTheme, h1).
Proof.
  intros Hm Hp.
  destruct (composeTheme_fields normalizeColor backgroundIsDark _ _ background
              dir themeMode _ _ _ _ Hm Hp) as (l & fs & -> & Hl & _ & Hk).
  rewrite Hk. unfold field_of. rewrite (get_prop_ref _ _ _ "dir" Hl).
  unfold themeFields. destruct (truthy dir).
  - by rewrite obj_get_set_eq.
  - by rewrite !obj_get_set_ne.
Qed.

Lemma composed_dir_witness :
  field_of "dir" (composeTheme sample_normalizeColor sample_backgroundIsDark
                    (VRef 1) (VRef 10) VUndef (VStr "rtl") VUndef sample_store)
  = Some (VStr "rtl").
Proof.
  apply (composed_dir sample_normalizeColor sample_backgroundIsDark
           (VRef 1) (VRef 10) VUndef (VStr "rtl") VUndef sample_store
           (mergeTheme (VRef 1) (VRef 10) sample_store).2
           (VRef 27) (VStr "white")); vm_compute; reflexivity.
Defined.

Lemma menuDropAlign_falsy themeProp (h : heap) :
  truthy themeProp = false -> menuDropAlign themeProp h = (Ok themeProp, h).
Proof.
  intros Ht. unfold menuDropAlign.
  assert (H1 : js_and (ret themeProp) (get_path themeProp ["menu"]) h
               = (Ok themeProp, h)) by by apply js_and_falsy.
  assert (H2 : js_and (js_and (ret themeProp) (get_path themeProp ["menu"]))
                 (get_path themeProp ["menu"; "drop"]) h
               = (Ok themeProp, h)) by by apply (js_and_falsy _ _ _ _ _ H1).
  by apply (js_and_falsy _ _ _ _ _ H2).
Qed.

Lemma menuDropAlign_empty l (h : heap) :
  h !! l = Some [] -> menuDropAlign (VRef l) h = (Ok VUndef, h).
Proof.
  intros Hl. unfold menuDropAlign.
  assert (H1 : js_and (ret (VRef l)) (get_path (VRef l) ["menu"]) h
               = (Ok VUndef, h)).
  { rewrite (js_and_truthy _ _ h (VRef l) h); [|done..].
    cbn [get_path]. step (get_prop_ref _ _ _ "menu" Hl). reflexivity. }
  assert (H2 : js_and (js_and (ret (VRef l)) (get_path (VRef l) ["menu"]))
                 (get_path (VRef l) ["menu"; "drop"]) h
               = (Ok VUndef, h)) by by apply (js_and_falsy _ _ _ _ _ H1).
  by apply (js_and_falsy _ _ _ _ _ H2).
Qed.

Lemma bind_same {S A B} (m : M S A) (k k' : A -> M S B) s :
  (forall x s', m s = (Ok x, s') -> k x s' = k' x s') ->
  bind m k s = bind m k' s.
Proof.
  intros H. unfold bind. destruct (m s) as [[x|e] s']; [by apply H | done].
Qed.

Lemma mergeTheme_falsy baseTheme themeProp (h : heap) :
  truthy themeProp = false ->
  mergeTheme baseTheme themeProp h
  = mergeTheme baseTheme (VRef (fresh (dom h))) (<[fresh (dom h) := []]> h).
Proof.
  intros Ht. unfold mergeTheme.
  set (l := fresh (dom h)). set (h0 := <[l := []]> h).
  assert (Ho : js_or (ret themeProp) (alloc []) h = (Ok (VRef l), h0)).
  { unfold js_or, bind, ret. by rewrite Ht. }
  assert (Ho' : js_or (ret (VRef l)) (alloc []) h0 = (Ok (VRef l), h0))
    by reflexivity.
  step Ho. step Ho'.
  apply bind_same. intros merged h1 Hd.
  pose proof (deepMerge_grows baseTheme (VRef l) h0) as Hg.
  rewrite Hd in Hg. simpl in Hg.
  assert (Hl : h1 !! l = Some []).
  { apply (lookup_weaken _ _ _ _ (lookup_insert_eq h l []) Hg). }
  step (menuDropAlign_falsy themeProp h1 Ht).
  step (menuDropAlign_empty l h1 Hl).
  by rewrite Ht.
Qed.

(** X8.  A falsy [theme] prop -- absent, [null], [false] -- composes as an
    explicit empty object does: same theme, same store, same exception.  The
    menu alignment special case stays out of both. *)
Theorem falsy_theme_is_empty_object normalizeColor backgroundIsDark
    (baseTheme themeProp background dir themeMode : value) (h : heap) :
  truthy themeProp = false ->
  composeTheme normalizeColor backgroundIsDark baseTheme themeProp
    background dir themeMode h
  = composeTheme normalizeColor backgroundIsDark baseTheme
      (VRef (fresh (dom h))) background dir themeMode
      (<[fresh (dom h) := []]> h).
Proof.
  intros Ht. unfold composeTheme. unfold bind at 1 9.
  by rewrite (mergeTheme_falsy baseTheme themeProp h Ht).
Qed.

Lemma falsy_theme_is_empty_object_witness :
  composeTheme sample_normalizeColor sample_backgroundIsDark (VRef 1) VNull
    VUndef VUndef VUndef sample_store
  = composeTheme sample_normalizeColor sample_backgroundIsDark (VRef 1)
      (VRef (fresh (dom sample_store))) VUndef VUndef VUndef
      (<[fresh (dom sample_store) := []]> sample_store).
Proof.
  apply (falsy_theme_is_empty_object sample_normalizeColor
           sample_backgroundIsDark (VRef 1) VNull VUndef VUndef VUndef
           sample_store).
  reflexivity.
Defined.

(** * The last resort of the published breakpoint *)

(** X9.  When neither the component state nor the user agent gives a
    breakpoint, line 142 reads [theme.global.deviceBreakpoints.tablet]
    without a check: the read raises a [TypeError] when the theme, its
    [global] or the breakpoint table is [undefined] or [null], and the
    published breakpoint is [undefined] when the table has no [tablet]
    entry. *)
Theorem responsive_last_resort
    (getDeviceBreakpoint : heap -> string -> value -> value)
    (state : value) (userAgent : option (list N)) (theme : value) (h : heap) :
  truthy state = false ->
  truthy (deviceResponsive getDeviceBreakpoint h userAgent theme) = false ->
  (forall ks k more x,
     ["global"; "deviceBreakpoints"; "tablet"] = (ks ++ k :: more)%list ->
     get_path theme ks h = (Ok x, h) -> nullish x ->
     responsive getDeviceBreakpoint state userAgent theme h
     = (Throw TypeError, h)) /\
  (forall l fs,
     get_path theme ["global"; "deviceBreakpoints"] h = (Ok (VRef l), h) ->
     h !! l = Some fs ->
     responsive getDeviceBreakpoint state userAgent theme h
     = (Ok (obj_get "tablet" fs), h) /\
     (obj_has "tablet" fs = false ->
      responsive getDeviceBreakpoint state userAgent theme h
      = (Ok VUndef, h))).
Proof.
  intros Hs Hd. rewrite responsive_eq, Hs, Hd. split.
  - intros ks k more x -> Hp Hx. by apply (get_path_nullish _ _ _ _ _ x).
  - intros l fs Hp Hl.
    assert (Hr : get_path theme ["global"; "deviceBreakpoints"; "tablet"] h
                 = (Ok (obj_get "tablet" fs), h)).
    { pose proof (get_path_app ["global"; "deviceBreakpoints"] ["tablet"]
                    _ _ _ Hp) as Ha.
      cbn [app] in Ha. rewrite Ha. cbn [get_path]. step (get_prop_ref _ _ _ "tablet" Hl). reflexivity. }
    split; [exact Hr|]. intros Hn. by rewrite Hr, (obj_get_absent _ _ Hn).
Qed.

Lemma responsive_last_resort_witness :
  responsive deviceClass VUndef None (VRef 1) sample_store
  = (Throw TypeError, sample_store) /\
  responsive deviceClass VUndef (Some []) (VRef 1) breakpoints_store
  = (Ok (VStr "medium"), breakpoints_store).
Proof.
  split.
  - apply (proj1 (responsive_last_resort deviceClass VUndef None (VRef 1)
                    sample_store eq_refl eq_refl)
             ["global"; "deviceBreakpoints"] "tablet" [] VUndef).
    + reflexivity.
    + vm_compute. reflexivity.
    + by left.
  - apply (proj2 (responsive_last_resort deviceClass VUndef (Some []) (VRef 1)
                    breakpoints_store eq_refl eq_refl)
             4%nat [("phone", VStr "small"); ("tablet", VStr "medium");
                    ("computer", VStr "large")]).
    + vm_compute. reflexivity.
    + vm_compute. reflexivity.
Defined.

(** X10.  Theme composition leaves the breakpoint table alone: with no
    breakpoint from the state or the user agent, a render publishes what
    reading [global.deviceBreakpoints.tablet] gave in the result of the
    merge, before lines 80-104 wrote to it, be that a value or an
    exception. *)
Theorem responsive_default_from_merge normalizeColor backgroundIsDark
    (getDeviceBreakpoint : heap -> string -> value -> value)
    (baseTheme themeProp background dir themeMode : value)
    (h h' : heap) (composed state : value) (userAgent : option (list N)) :
  composeTheme normalizeColor backgroundIsDark baseTheme themeProp
    background dir themeMode h = (Ok composed, h') ->
  truthy state = false ->
  truthy (deviceResponsive getDeviceBreakpoint h' userAgent composed) = false ->
  exists override h0 h1,
    js_or (ret themeProp) (alloc []) h = (Ok override, h0) /\
    deepMerge baseTheme override h0 = (Ok composed, h1) /\
    (responsive getDeviceBreakpoint state userAgent composed h').1
    = (get_path composed ["global"; "deviceBreakpoints"; "tablet"] h1).1.
Proof.
  intros Hc Hs Hd.
  destruct (composeTheme_inv _ _ _ _ _ _ _ _ _ _ Hc)
    as (h2 & l & fs & tb & -> & Hm & Hl & _ & ->).
  destruct (mergeTheme_inv _ _ _ _ _ Hm) as (override & h0 & h1 & Ho & Hm1 & Hk).
  exists override, h0, h1. split; [done|]. split; [done|].
  rewrite responsive_eq, Hs, Hd.
  rewrite <- (Hk ["global"; "deviceBreakpoints"; "tablet"]).
  - apply (get_path_insert_outcome _ _ _ _ _ Hl).
    repeat apply Forall_cons_2; try apply Forall_nil_2;
      by apply themeFields_other.
  - by repeat apply Forall_cons_2; try apply Forall_nil_2.
Qed.

Lemma responsive_default_from_merge_witness :
  exists override h0 h1,
    js_or (ret VUndef) (alloc []) breakpoints_store = (Ok override, h0) /\
    deepMerge (VRef 1) override h0 = (Ok (VRef 9), h1) /\
    (responsive deviceClass VUndef None (VRef 9)
       (composeTheme sample_normalizeColor sample_backgroundIsDark
          (VRef 1) VUndef VUndef VUndef VUndef breakpoints_store).2).1
    = (get_path (VRef 9) ["global"; "deviceBreakpoints"; "tablet"] h1).1.
Proof.
  apply (responsive_default_from_merge sample_normalizeColor
           sample_backgroundIsDark deviceClass (VRef 1) VUndef VUndef VUndef
           VUndef breakpoints_store).
  - vm_compute. reflexivity.
  - reflexivity.
  - reflexivity.
Defined.

(** * A [format] property that is not a function *)

(** X11.  When the [messages] prop carries a [format] that is not a
    function, composing the messages still succeeds, and what a call of the
    composed [format] does depends on that value: a truthy one is called and
    the call raises a [TypeError]; a falsy one other than [undefined]
    ([null], [false], [0], the empty string) is itself returned as the
    message, without the standard substitution; [undefined] gives the
    standard substitution. *)
Theorem format_not_a_function (opts : Type)
    (format : heap -> opts -> value -> value)
    (defaultMessages : value) (p : MessagesProp opts) (v : value)
    (h h1 : heap) (merged : value) :
  nextMessages opts defaultMessages (Some p) h = (Ok merged, h1) ->
  prop_format opts p = FormatOther v ->
  exists bundle,
    messages opts format defaultMessages (Some p) h = (Ok bundle, h1) /\
    forall (o : opts) (h' : heap),
      (truthy v = true ->
         bundle_format opts bundle o h' = (Throw TypeError, h')) /\
      (truthy v = false -> v <> VUndef ->
         bundle_format opts bundle o h' = (Ok v, h')) /\
      (v = VUndef ->
         bundle_format opts bundle o h' = (Ok (format h' o merged), h')).
Proof.
  intros Hm Hf. eexists. split.
  - unfold messages, bind. rewrite Hm. reflexivity.
  - intros o h'. simpl. unfold composedFormat, callerFormat, bind, ret, throw.
    rewrite Hf. repeat split.
    + by intros ->.
    + intros -> Hv. by destruct v.
    + by intros ->.
Qed.

Lemma format_not_a_function_witness :
  exists bundle,
    messages string sample_format (VRef 20)
      (Some {| prop_messages := VRef 21; prop_format := FormatOther VNull |})
      sample_store
    = (Ok bundle,
       (nextMessages string (VRef 20)
          (Some {| prop_messages := VRef 21;
                   prop_format := FormatOther VNull |}) sample_store).2) /\
    bundle_format string bundle "input.readOnly" sample_store
    = (Ok VNull, sample_store).
Proof.
  destruct (format_not_a_function string sample_format (VRef 20)
              {| prop_messages := VRef 21; prop_format := FormatOther VNull |}
              VNull sample_store
              (nextMessages string (VRef 20)
                 (Some {| prop_messages := VRef 21;
                          prop_format := FormatOther VNull |}) sample_store).2
              (VRef 22))
    as (bundle & Hb & Hf); [vm_compute; reflexivity | reflexivity |].
  exists bundle. split; [exact Hb|].
  by apply (Hf "input.readOnly" sample_store).
Defined.

(** * The life of the resize listener *)

Lemma remove_listener_last l ls :
  l ∉ ls -> remove_listener l (ls ++ [l]) = ls.
Proof.
  induction ls as [|l' ls IH]; intros Hn; simpl.
  - by rewrite bool_decide_eq_true_2.
  - apply not_elem_of_cons in Hn as [Hne Hn].
    rewrite bool_decide_eq_false_2 by done. by rewrite IH.
Qed.

(** X12.  Mounting and unmounting is a round trip on the listeners of
    [window]: after the effect and its cleanup they are what they were, and
    the component state holds the breakpoint measured at mount.  The
    listener is taken not to be registered beforehand. *)
Theorem mount_unmount_round_trip (getBreakpoint : heap -> Z -> value -> value)
    (h : heap) (theme : value) (w : runtime) (d : Document) (x : Window) :
  document w = Some d -> window w = Some x ->
  ("resize", theme) ∉ listeners x ->
  (run! resizeEffect getBreakpoint h theme in resizeCleanup theme) w
  = (Ok tt,
     {| document := Some d; window := Some x;
        stateResponsive := getBreakpoint h (clientWidth (body d)) theme |}).
Proof.
  intros Hd Hw Hn. destruct w as [wd ww ws]. simpl in Hd, Hw. subst wd ww.
  destruct x as [ls]. simpl in Hn.
  unfold bind, resizeEffect, resizeCleanup, onResize, bind, the_window,
    the_document, set_listeners, setResponsive. simpl.
  by rewrite remove_listener_last.
Qed.

Lemma mount_unmount_round_trip_witness :
  (run! resizeEffect sample_getBreakpoint ∅ VUndef in resizeCleanup VUndef)
    browser_800
  = (Ok tt,
     {| document := document browser_800; window := window browser_800;
        stateResponsive :=
          sample_getBreakpoint ∅ 800 VUndef |}).
Proof.
  apply (mount_unmount_round_trip sample_getBreakpoint ∅ VUndef browser_800
           {| body := {| element := VRef 0; clientWidth := 800 |} |}
           {| listeners := [] |}).
  - reflexivity.
  - reflexivity.
  - simpl. apply not_elem_of_nil.
Defined.

(** X13.  The effect registers the listener before it measures: in an
    environment that has [window] but no [document] it raises a
    [ReferenceError] with the listener already registered, and the component
    state is not set. *)
Theorem listener_registered_before_measure
    (getBreakpoint : heap -> Z -> value -> value)
    (h : heap) (theme : value) (w : runtime) (x : Window) :
  window w = Some x -> document w = None ->
  resizeEffect getBreakpoint h theme w
  = (Throw ReferenceError,
     {| document := None;
        window := Some {| listeners := listeners x ++ [("resize", theme)] |};
        stateResponsive := stateResponsive w |}).
Proof.
  intros Hw Hd. destruct w as [wd ww ws]. simpl in Hd, Hw. subst wd ww.
  reflexivity.
Qed.

Lemma listener_registered_before_measure_witness :
  resizeEffect sample_getBreakpoint ∅ VUndef
    {| document := None; window := Some {| listeners := [] |};
       stateResponsive := VUndef |}
  = (Throw ReferenceError,
     {| document := None;
        window := Some {| listeners := [("resize", VUndef)] |};
        stateResponsive := VUndef |}).
Proof.
  apply (listener_registered_before_measure sample_getBreakpoint ∅ VUndef
           {| document := None; window := Some {| listeners := [] |};
              stateResponsive := VUndef |} {| listeners := [] |});
    reflexivity.
Defined.

Lemma remove_listener_first l ls1 ls2 :
  l ∉ ls1 -> remove_listener l (ls1 ++ l :: ls2) = (ls1 ++ ls2)%list.
Proof.
  induction ls1 as [|l' ls1 IH]; intros Hn; simpl.
  - by rewrite bool_decide_eq_true_2.
  - apply not_elem_of_cons in Hn as [Hne Hn].
    rewrite bool_decide_eq_false_2 by done. by rewrite IH.
Qed.

(** X14.  When the theme changes, the cleanup of the old effect followed by
    the new effect swaps the listener, wherever the old one stands among the
    listeners of [window]: its registration is removed, the listener for the
    new theme is added at the end, the other listeners keep their order, and
    the state is measured against the new theme.  When the old listener was
    registered once and the themes differ, it is registered no more. *)
Theorem theme_change_swaps_listener
    (getBreakpoint : heap -> Z -> value -> value)
    (h : heap) (old new : value) (w : runtime) (d : Document)
    (ls1 ls2 : list (string * value)) :
  document w = Some d ->
  window w = Some {| listeners := ls1 ++ ("resize", old) :: ls2 |} ->
  ("resize", old) ∉ ls1 ->
  (run! resizeCleanup old in resizeEffect getBreakpoint h new) w
  = (Ok tt,
     {| document := Some d;
        window := Some {| listeners := (ls1 ++ ls2) ++ [("resize", new)] |};
        stateResponsive := getBreakpoint h (clientWidth (body d)) new |}) /\
  (("resize", old) ∉ ls2 -> old <> new ->
   ("resize", old) ∉ ((ls1 ++ ls2) ++ [("resize", new)])%list).
Proof.
  intros Hd Hw Hn. split.
  - destruct w as [wd ww ws]. simpl in Hd, Hw. subst wd ww.
    unfold bind, resizeEffect, resizeCleanup, onResize, bind, the_window,
      the_document, set_listeners, setResponsive. simpl.
    by rewrite remove_listener_first.
  - intros Hn2 Hne. rewrite !elem_of_app, list_elem_of_singleton.
    intros [[H|H]|H]; [done..|]. by injection H.
Qed.

Lemma theme_change_swaps_listener_witness :
  (run! resizeCleanup (VRef 1) in resizeEffect sample_getBreakpoint ∅ (VRef 2))
    {| document := document browser_800;
       window := Some {| listeners := [("scroll", VUndef); ("resize", VRef 1);
                                       ("keydown", VUndef)] |};
       stateResponsive := VUndef |}
  = (Ok tt,
     {| document := document browser_800;
        window := Some {| listeners := [("scroll", VUndef); ("keydown", VUndef);
                                        ("resize", VRef 2)] |};
        stateResponsive := sample_getBreakpoint ∅ 800 (VRef 2) |}).
Proof.
  apply (theme_change_swaps_listener sample_getBreakpoint ∅ (VRef 1) (VRef 2)
           {| document := document browser_800;
              window := Some {| listeners := [("scroll", VUndef);
                                              ("resize", VRef 1);
                                              ("keydown", VUndef)] |};
              stateResponsive := VUndef |}
           {| body := {| element := VRef 0; clientWidth := 800 |} |}
           [("scroll", VUndef)] [("keydown", VUndef)]).
  - reflexivity.
  - reflexivity.
  - intros Hin. apply list_elem_of_In in Hin. simpl in Hin.
    destruct Hin as [Hin|[]]. discriminate.
Defined.

(** * The props handed on *)

(** Membership in a list of names that is written out *)
Ltac in_list := repeat (apply elem_of_cons; first [by left | right]).

Lemma obj_has_delete k k' fs :
  obj_has k (obj_delete k' fs) = negb (String.eqb k k') && obj_has k fs.
Proof.
  induction fs as [|[k'' v] fs IH]; simpl; [by rewrite andb_false_r|].
  destruct (String.eqb k' k'') eqn:E; simpl.
  - apply String.eqb_eq in E as <-. rewrite IH.
    by destruct (String.eqb k k').
  - rewrite IH. destruct (String.eqb k k') eqn:E'; simpl; [|done].
    apply String.eqb_eq in E' as ->. by rewrite E.
Qed.

Lemma obj_has_set k k' x fs :
  obj_has k (obj_set k' x fs) = String.eqb k k' || obj_has k fs.
Proof.
  induction fs as [|[k'' v] fs IH]; simpl; [done|].
  destruct (String.eqb k' k'') eqn:E; simpl.
  - apply String.eqb_eq in E as <-. by destruct (String.eqb k k').
  - rewrite IH. by destruct (String.eqb k k'), (String.eqb k k'').
Qed.

Lemma obj_has_keys k fs : obj_has k fs = true <-> k ∈ fs.*1.
Proof.
  induction fs as [|[k' v] fs IH]; simpl.
  - split; [done | by intros ?%elem_of_nil].
  - rewrite elem_of_cons, orb_true_iff, IH, String.eqb_eq. done.
Qed.

Lemma obj_delete_keys k k' fs : k ∈ (obj_delete k' fs).*1 -> k ∈ fs.*1.
Proof.
  rewrite <- !obj_has_keys, obj_has_delete. by intros [_ ?]%andb_true_iff.
Qed.

Lemma obj_delete_NoDup k fs : NoDup fs.*1 -> NoDup (obj_delete k fs).*1.
Proof.
  induction fs as [|[k' v] fs IH]; simpl; [done|].
  intros [Hn Hd]%NoDup_cons. destruct (String.eqb k k'); [by apply IH|].
  simpl. apply NoDup_cons. split; [|by apply IH].
  intros Hin. by apply Hn, (obj_delete_keys _ k).
Qed.

Lemma obj_has_spread k src dst :
  obj_has k (spread src dst) = obj_has k src || obj_has k dst.
Proof.
  unfold spread. revert dst.
  induction src as [|[k' v] src IH]; intros dst; simpl; [done|].
  rewrite IH, obj_has_set. by destruct (String.eqb k k'), (obj_has k src).
Qed.

Lemma obj_get_spread k src dst :
  NoDup src.*1 ->
  obj_get k (spread src dst)
  = if obj_has k src then obj_get k src else obj_get k dst.
Proof.
  unfold spread. revert dst.
  induction src as [|[k' v] src IH]; intros dst; simpl; [done|].
  intros [Hn Hd]%NoDup_cons. rewrite (IH _ Hd).
  destruct (String.eqb k k') eqn:E; simpl.
  - apply String.eqb_eq in E as ->.
    destruct (obj_has k' src) eqn:Hh.
    + by apply obj_has_keys in Hh.
    + apply obj_get_set_eq.
  - destruct (obj_has k src); [done|].
    apply obj_get_set_ne. intros ->. by rewrite String.eqb_refl in E.
Qed.

Lemma rest_NoDup props : NoDup props.*1 -> NoDup (rest props).*1.
Proof.
  intros Hd. unfold rest, namedProps. simpl.
  by repeat apply obj_delete_NoDup.
Qed.

Lemma rest_other k props :
  k ∉ namedProps ->
  obj_get k (rest props) = obj_get k props /\
  obj_has k (rest props) = obj_has k props.
Proof.
  intros Hk. unfold rest. unfold namedProps in *. simpl.
  assert (Hne : forall k', k' ∈ namedProps -> String.eqb k k' = false).
  { intros k' Hk'. apply String.eqb_neq. by intros <-. }
  unfold namedProps in Hne. split.
  - rewrite !obj_get_delete_ne; [done|intros ->; apply Hk; in_list..].
  - rewrite !obj_has_delete, !Hne; [done|in_list..].
Qed.

Lemma rest_named k props : k ∈ namedProps -> obj_has k (rest props) = false.
Proof.
  intros Hk. unfold rest. unfold namedProps in *. simpl.
  rewrite !obj_has_delete.
  repeat (apply elem_of_cons in Hk as [->|Hk];
          [simpl; by rewrite ?andb_false_r|]).
  by apply elem_of_nil in Hk.
Qed.

(** X15.  [StyledGrommet] is handed every prop of [Grommet] but four:
    [containerTarget], [theme], [options] and [messages] are withheld, and
    every other prop -- [full] and [children], and also [background], [dir],
    [themeMode] and [userAgent], which the component reads at line 71 without
    taking them out of the rest -- arrives with the value the caller gave. *)
Theorem styled_props_forwarded (props : list (string * value)) :
  NoDup props.*1 ->
  (forall k, k ∉ withheldProps ->
     obj_get k (styledProps props) = obj_get k props) /\
  (forall k, k ∈ withheldProps ->
     obj_has k (styledProps props) = false /\
     obj_get k (styledProps props) = VUndef).
Proof.
  intros Hd. pose proof (rest_NoDup _ Hd) as Hr. split.
  - intros k Hk. unfold styledProps.
    destruct (decide (k = "children")) as [->|Hc]; [apply obj_get_set_eq|].
    rewrite obj_get_set_ne by done. rewrite (obj_get_spread _ _ _ Hr).
    destruct (decide (k = "full")) as [->|Hf].
    { by rewrite (rest_named "full" props) by (unfold namedProps; in_list). }
    assert (Hn : k ∉ namedProps).
    { unfold namedProps, withheldProps in *. intros Hin.
      repeat (apply elem_of_cons in Hin as [->|Hin];
              [first [done | apply Hk; in_list]|]).
      by apply elem_of_nil in Hin. }
    destruct (rest_other k props Hn) as [-> ->].
    destruct (obj_has k props) eqn:Hh; [done|].
    rewrite (obj_get_absent _ _ Hh). simpl.
    destruct (String.eqb k "full") eqn:E; [|done].
    by apply String.eqb_eq in E.
  - intros k Hk.
    assert (Hh : obj_has k (styledProps props) = false).
    { unfold styledProps.
      rewrite obj_has_set, obj_has_spread, (rest_named k props).
      - unfold withheldProps in Hk.
        repeat (apply elem_of_cons in Hk as [->|Hk]; [done|]).
        by apply elem_of_nil in Hk.
      - unfold namedProps, withheldProps in *.
        repeat (apply elem_of_cons in Hk as [->|Hk]; [in_list|]).
        by apply elem_of_nil in Hk. }
    split; [exact Hh | by apply obj_get_absent].
Qed.

Lemma styled_props_forwarded_witness :
  obj_get "userAgent"
    (styledProps [("theme", VRef 10); ("userAgent", VStr "iPad");
                  ("full", VBool true)])
  = VStr "iPad" /\
  obj_has "theme"
    (styledProps [("theme", VRef 10); ("userAgent", VStr "iPad");
                  ("full", VBool true)])
  = false.
Proof.
  assert (Hd : NoDup [("theme", VRef 10); ("userAgent", VStr "iPad");
                      ("full", VBool true)].*1).
  { simpl. repeat (apply NoDup_cons_2; [|]); try apply NoDup_nil_2;
      intros Hin; apply list_elem_of_In in Hin; simpl in Hin;
      intuition discriminate. }
  destruct (styled_props_forwarded _ Hd) as [Hf Hw]. split.
  - apply (Hf "userAgent"). unfold withheldProps.
    intros Hin. apply list_elem_of_In in Hin. simpl in Hin.
    intuition discriminate.
  - apply (Hw "theme"). unfold withheldProps. apply elem_of_cons. right.
    apply elem_of_cons. by left.
Defined.
